(** * biome-action: setup routine (index.js) and teardown routine (post.js)

    A shallow embedding of the two entry points of the action and of the
    JavaScript primitives they rely on (strings, [String.prototype.split]
    with a regular expression, [trim], completions of [try]/[catch]/[finally]),
    followed by the properties of the orchestration. *)

From Stdlib Require Import Ascii String DecimalString.
From stdpp Require Import base list gmap.

Open Scope N_scope.
Open Scope list_scope.

(** ** JavaScript strings

    A JavaScript string is a sequence of UTF-16 code units. *)

Definition jsstring : Type := list N.

Fixpoint js (s : string) : jsstring :=
  match s with
  | EmptyString => []
  | String a s' => N_of_ascii a :: js s'
  end.

(** The double quote, which the source writes inside template literals. *)
Definition dquote : jsstring := [34].

(** [\s] of a regular expression, which is also what [trim] strips:
    WhiteSpace and LineTerminator of the language specification. *)
Definition is_space (c : N) : bool :=
  (c =? 9) || (c =? 10) || (c =? 11) || (c =? 12) || (c =? 13) || (c =? 32)
  || (c =? 160) || (c =? 5760) || ((8192 <=? c) && (c <=? 8202))
  || (c =? 8232) || (c =? 8233) || (c =? 8239) || (c =? 8287)
  || (c =? 12288) || (c =? 65279).

Definition is_newline (c : N) : bool := c =? 10.

(** [Boolean(s)] of a string: the empty string is the only falsy one. *)
Definition Boolean (s : jsstring) : bool :=
  match s with [] => false | _ :: _ => true end.

(** [a || b] on strings. *)
Definition js_or (a b : jsstring) : jsstring := if Boolean a then a else b.

(** [Boolean(l.length)] of an array. *)
Definition Boolean_length {A} (l : list A) : bool :=
  match l with [] => false | _ :: _ => true end.

(** [a == b] on two strings. *)
Definition js_eq (a b : jsstring) : bool := bool_decide (a = b).

Fixpoint drop_space (s : jsstring) : jsstring :=
  match s with
  | c :: s' => if is_space c then drop_space s' else s
  | [] => []
  end.

(** [s.trim()] *)
Definition trim (s : jsstring) : jsstring :=
  rev (drop_space (rev (drop_space s))).

(** [l.join(sep)] *)
Fixpoint join (sep : jsstring) (l : list jsstring) : jsstring :=
  match l with
  | [] => []
  | [x] => x
  | x :: l' => x ++ sep ++ join sep l'
  end.

(** ** Regular expressions

    The fragment the source uses, with the backtracking semantics of the
    language: a matcher takes the rest of the input and a continuation, and
    a greedy star tries one more iteration before it tries the
    continuation; an iteration that consumes nothing is rejected. *)

Inductive regex : Type :=
| RClass (p : N -> bool)
| RSeq (r1 r2 : regex)
| RStar (r : regex)
| RPlus (r : regex).

Definition matcher : Type :=
  jsstring -> (jsstring -> option jsstring) -> option jsstring.

Fixpoint star_loop (m : matcher) (fuel : nat) (s : jsstring)
    (k : jsstring -> option jsstring) : option jsstring :=
  match fuel with
  | O => k s
  | S fuel' =>
      match m s (fun s' =>
                   if (length s' <? length s)%nat
                   then star_loop m fuel' s' k else None) with
      | Some r => Some r
      | None => k s
      end
  end.

Fixpoint rmatch (r : regex) : matcher :=
  fun s k =>
  match r with
  | RClass p =>
      match s with
      | c :: s' => if p c then k s' else None
      | [] => None
      end
  | RSeq r1 r2 => rmatch r1 s (fun s1 => rmatch r2 s1 k)
  | RStar r1 => star_loop (rmatch r1) (length s) s k
  | RPlus r1 =>
      rmatch r1 s (fun s1 => star_loop (rmatch r1) (length s1) s1 k)
  end.

(** [/\s+/] *)
Definition re_spaces : regex := RPlus (RClass is_space).

(** [/\s*\n\s*/] *)
Definition re_newline : regex :=
  RSeq (RStar (RClass is_space))
       (RSeq (RClass is_newline) (RStar (RClass is_space))).

(** A match anchored at the start of [s]: what is left after it. *)
Definition SplitMatcher (R : regex) (s : jsstring) : option jsstring :=
  rmatch R s Some.

(** The loop of [String.prototype.split]: [acc] holds, reversed, the code
    units between the last split point [p] and the position [q] under
    test, [rest] is the input from [q] on. *)
Fixpoint split_loop (fuel : nat) (R : regex) (acc rest : jsstring)
    : list jsstring :=
  match fuel with
  | O => [rev acc ++ rest]
  | S fuel' =>
      match rest with
      | [] => [rev acc]
      | c :: tl =>
          match SplitMatcher R rest with
          | None => split_loop fuel' R (c :: acc) tl
          | Some rest' =>
              if (length rest' =? length rest)%nat && negb (Boolean acc)
              then split_loop fuel' R (c :: acc) tl
              else rev acc :: split_loop fuel' R [] rest'
          end
      end
  end.

(** [S.split(R)] *)
Definition js_split (R : regex) (S : jsstring) : list jsstring :=
  match S with
  | [] => match SplitMatcher R [] with Some _ => [] | None => [[]] end
  | _ :: _ => split_loop (2 * length S + 1) R [] S
  end.

(** ** Effects

    The routines call the CI toolkit ([core], [exec], [io], [cache]) and
    [fs]. What such a call answers is not decided by the program: it is
    read from an oracle, which sees the whole state of the world, and every
    call is recorded, with its answer, in the log of the world. *)

Inductive outcome (A : Type) : Type :=
| Done (a : A)
| Failed (err : jsstring).
Arguments Done {A} a.
Arguments Failed {A} err.

(** The options of [exec] the routines set or pass on. *)
Record exec_options : Type := {
  opt_env : option (gmap jsstring jsstring);
  opt_ignoreReturnCode : bool
}.

Definition no_options : exec_options :=
  {| opt_env := None; opt_ignoreReturnCode := false |}.

Definition with_env (e : gmap jsstring jsstring) : exec_options :=
  {| opt_env := Some e; opt_ignoreReturnCode := false |}.

Inductive event : Type :=
| EExportVariable (name val : jsstring) (res : outcome unit)
| EWhich (tool : jsstring) (res : outcome jsstring)
| EInfo (msg : jsstring)
| EConsoleInfo (msg : jsstring)
| EStartGroup (name : jsstring)
| EEndGroup
| ESetFailed (msg : jsstring)
| EExistsSync (path : jsstring) (res : bool)
| EWriteFileSync (path data : jsstring) (res : outcome unit)
| EExec (commandLine : jsstring) (args : list jsstring)
        (options : exec_options) (res : outcome Z)
| ERmRF (path : jsstring) (res : outcome unit)
| ERestoreCache (paths : list jsstring) (key : jsstring)
                (res : outcome (option jsstring))
| ESaveCache (paths : list jsstring) (key : jsstring) (res : outcome Z).

(** The world: the paths that exist among those the routines test, write
    or remove, the environment of the process, and the log. *)
Record World : Type := {
  files : gset jsstring;
  env : gmap jsstring jsstring;
  log : list event
}.

(** What a child process does: the chunks it writes on its standard
    output, and how the promise of [exec] settles (the exit code, or the
    error [exec] rejects with). *)
Record proc : Type := {
  stdout_chunks : list (list N);
  status : outcome Z
}.

Record Oracle : Type := {
  exportVariable_res : World -> jsstring -> jsstring -> outcome unit;
  which_res : World -> jsstring -> outcome jsstring;
  exec_res : World -> jsstring -> list jsstring -> exec_options -> proc;
  rmRF_res : World -> jsstring -> outcome unit;
  writeFileSync_res : World -> jsstring -> jsstring -> outcome unit;
  (** the cache hit, if any, and the paths the archive was unpacked to *)
  restoreCache_res :
    World -> list jsstring -> jsstring
    -> outcome (option jsstring) * gset jsstring;
  saveCache_res : World -> list jsstring -> jsstring -> outcome Z
}.

Definition emit (e : event) (w : World) : World :=
  {| files := files w; env := env w; log := log w ++ [e] |}.

Definition set_files (f : gset jsstring -> gset jsstring) (w : World)
    : World :=
  {| files := f (files w); env := env w; log := log w |}.

Definition set_env (f : gmap jsstring jsstring -> gmap jsstring jsstring)
    (w : World) : World :=
  {| files := files w; env := f (env w); log := log w |}.

(** *** Completions

    A block of statements completes normally, throws, or returns from the
    enclosing function ([return;] yields no value). *)

Inductive completion (A : Type) : Type :=
| Normal (a : A)
| Throw (err : jsstring)
| Return.
Arguments Normal {A} a.
Arguments Throw {A} err.
Arguments Return {A}.

Definition M (A : Type) : Type := World -> completion A * World.

Definition ret {A} (a : A) : M A := fun w => (Normal a, w).

Definition bind {A B} (m : M A) (k : A -> M B) : M B :=
  fun w =>
    match m w with
    | (Normal a, w1) => k a w1
    | (Throw err, w1) => (Throw err, w1)
    | (Return, w1) => (Return, w1)
    end.

Declare Scope js_scope.
Delimit Scope js_scope with js.
Notation "'let*' x ':=' m 'in' k" := (bind m (fun x => k))
  (at level 10, x name, m at level 100, k at level 200) : js_scope.
Notation "m '>>' k" := (bind m (fun _ => k))
  (at level 100, k at level 200, right associativity) : js_scope.
Open Scope js_scope.

(** [return;] *)
Definition return_ {A} : M A := fun w => (Return, w).

(** [try { body } catch (err) { handler } finally { fin }]: the handler
    runs on a throw of the body, the finalizer always runs, and when it
    completes normally the completion of the [try]/[catch] stands. *)
Definition try_catch_finally {A} (body : M A) (handler : jsstring -> M A)
    (fin : M unit) : M A :=
  fun w =>
    let '(c, w1) := body w in
    let '(c1, w2) :=
      match c with
      | Throw err => handler err w1
      | _ => (c, w1)
      end in
    match fin w2 with
    | (Normal _, w3) => (c1, w3)
    | (Throw err, w3) => (Throw err, w3)
    | (Return, w3) => (Return, w3)
    end.

(** [try { body } catch (err) { handler }] *)
Definition try_catch {A} (body : M A) (handler : jsstring -> M A) : M A :=
  try_catch_finally body handler (ret tt).

(** A call whose answer the oracle gives: the call and its answer are
    logged; a failure is thrown, a success takes effect on the world. *)
Definition call {A} (ask : World -> outcome A) (ev : outcome A -> event)
    (effect : A -> World -> World) : M A :=
  fun w =>
    let r := ask w in
    let w1 := emit (ev r) w in
    match r with
    | Done a => (Normal a, effect a w1)
    | Failed err => (Throw err, w1)
    end.

(** A call that cannot fail and answers nothing. *)
Definition say (e : event) : M unit := fun w => (Normal tt, emit e w).

(** [number.toString()] of an integer. *)
Definition Number_toString (z : Z) : jsstring :=
  js (NilZero.string_of_int (Z.to_int z)).

(** What [rm -v "P"] removes: P. *)
Fixpoint strip_prefix (p s : jsstring) : option jsstring :=
  match p, s with
  | [], _ => Some s
  | a :: p', b :: s' => if (a =? b) then strip_prefix p' s' else None
  | _ :: _, [] => None
  end.

Definition rm_target (commandLine : jsstring) : option jsstring :=
  match strip_prefix (js "rm -v " ++ dquote) commandLine with
  | Some r =>
      match rev r with
      | q :: p => if (q =? 34) then Some (rev p) else None
      | [] => None
      end
  | None => None
  end.

(** The part of a command's effect the world keeps track of. *)
Definition command_effect (commandLine : jsstring) (w : World) : World :=
  match rm_target commandLine with
  | Some p => set_files (fun fs => fs ∖ {[ p ]}) w
  | None => w
  end.

(** The promise an [async] function returns. *)
Inductive promise : Type :=
| Fulfilled
| Rejected (err : jsstring).

(** Calling an [async] function never throws: what its body throws
    rejects the promise. *)
Definition call_async {A} (body : M A) : M promise :=
  fun w =>
    match body w with
    | (Throw err, w1) => (Normal (Rejected err), w1)
    | (_, w1) => (Normal Fulfilled, w1)
    end.

Section Toolkit.

Variable o : Oracle.

(** [core.exportVariable(name, val)] also sets the variable in the
    environment of the process. *)
Definition exportVariable (name val : jsstring) : M unit :=
  fun w =>
    call (fun _ => exportVariable_res o w name val)
         (EExportVariable name val)
         (fun _ w' => w')
         (set_env (fun e => <[ name := val ]> e) w).

Definition which (tool : jsstring) : M jsstring :=
  call (fun w => which_res o w tool) (EWhich tool) (fun _ w => w).

Definition info (msg : jsstring) : M unit := say (EInfo msg).
Definition console_info (msg : jsstring) : M unit := say (EConsoleInfo msg).
Definition startGroup (name : jsstring) : M unit := say (EStartGroup name).
Definition endGroup : M unit := say EEndGroup.
Definition setFailed (msg : jsstring) : M unit := say (ESetFailed msg).

Definition existsSync (path : jsstring) : M bool :=
  fun w =>
    let b := bool_decide (path ∈ files w) in
    (Normal b, emit (EExistsSync path b) w).

Definition writeFileSync (path data : jsstring) : M unit :=
  call (fun w => writeFileSync_res o w path data)
       (EWriteFileSync path data)
       (fun _ => set_files (fun fs => fs ∪ {[ path ]})).

Definition exec (commandLine : jsstring) (args : list jsstring)
    (options : exec_options) : M Z :=
  call (fun w => status (exec_res o w commandLine args options))
       (EExec commandLine args options)
       (fun _ => command_effect commandLine).

Definition rmRF (path : jsstring) : M unit :=
  call (fun w => rmRF_res o w path) (ERmRF path)
       (fun _ => set_files (fun fs => fs ∖ {[ path ]})).

Definition restoreCache (paths : list jsstring) (key : jsstring)
    : M (option jsstring) :=
  fun w =>
    let res := restoreCache_res o w paths key in
    call (fun _ => res.1) (ERestoreCache paths key) (fun _ w' => w')
         (set_files (fun fs => fs ∪ res.2) w).

Definition saveCache (paths : list jsstring) (key : jsstring) : M Z :=
  call (fun w => saveCache_res o w paths key) (ESaveCache paths key)
       (fun _ w => w).

(** [process.env] *)
Definition process_env : M (gmap jsstring jsstring) :=
  fun w => (Normal (env w), w).

(** [exec] with a [stdout] listener: the listener is run on each chunk,
    in order, before the promise settles. *)
Definition exec_listening {S} (commandLine : jsstring)
    (args : list jsstring) (options : exec_options)
    (on_stdout : list N -> S -> S) (s0 : S) : M S :=
  fun w =>
    let p := exec_res o w commandLine args options in
    let s1 := fold_left (fun s buffer => on_stdout buffer s)
                        (stdout_chunks p) s0 in
    bind (call (fun _ => status p) (EExec commandLine args options)
               (fun _ => command_effect commandLine))
         (fun _ => ret s1) w.

End Toolkit.

(** A template literal prints an undefined value as [undefined]. *)
Definition env_text (v : option jsstring) : jsstring :=
  match v with Some s => s | None => js "undefined" end.

(** ** The setup routine (index.js) *)

(** The value of [supervisor]: [true], [false] or an array of services. *)
Inductive supervisor_t : Type :=
| SupBool (b : bool)
| SupArray (services : list jsstring).

Module Index.

Section Index.

(** [core.getInput]: the value of an input, the empty string when it is
    not set. *)
Variable getInput : jsstring -> jsstring.

(** [process.env] when the module is loaded. *)
Variable env0 : gmap jsstring jsstring.

Definition deps : list jsstring :=
  List.filter Boolean
    (js_split re_spaces (js_or (getInput (js "deps")) [])).

Definition supervisor : supervisor_t :=
  if js_eq (getInput (js "supervisor")) (js "true")
  then SupBool true
  else if negb (Boolean (getInput (js "supervisor")))
       then SupBool false
       else SupArray
              (List.filter Boolean
                 (js_split re_newline (trim (getInput (js "supervisor"))))).

Definition cacheKey : jsstring :=
  js_or (getInput (js "cache-key"))
        (js "hab-artifacts-cache:"
            ++ env_text (env0 !! js "GITHUB_WORKFLOW")).

Definition CACHE_LOCK_PATH : jsstring := js "/hab/cache/artifacts/.cached".
Definition RESTORE_LOCK_PATH : jsstring := js "/hab/cache/artifacts/.restored".

Variable o : Oracle.

Definition tarball : jsstring := js "bio-1.6.372-x86_64-linux.tar.gz".

(** lines 47 to 59 *)
Definition install_bio : M unit :=
  try_catch_finally
    (startGroup (js "Installing Biome") >>
     exec o (js "wget https://github.com/biome-sh/biome/releases/download/v1.6.372/bio-1.6.372-x86_64-linux.tar.gz") [] no_options >>
     exec o (js "tar xf bio-1.6.372-x86_64-linux.tar.gz") [] no_options >>
     exec o (js "sudo mv bio /usr/bin") [] no_options >>
     exec o (js "sudo chmod +x /usr/bin/bio") [] no_options >>
     rmRF o tarball)
    (fun err =>
       setFailed (js "Failed to install Biome: " ++ err) >> return_)
    endGroup.

(** lines 63 to 73 *)
Definition create_hab_user : M unit :=
  try_catch_finally
    (startGroup (js "Creating hab user") >>
     exec o (js "sudo groupadd hab") [] no_options >>
     exec o (js "sudo useradd -g hab -G docker hab") [] no_options >>
     rmRF o (js "/tmp/hab-install.sh"))
    (fun err =>
       setFailed (js "Failed to create hab user: " ++ err) >> return_)
    endGroup.

(** lines 77 to 82 *)
Definition verify_installation : M unit :=
  try_catch
    (exec o (js "bio --version") [] no_options >> ret tt)
    (fun err =>
       setFailed (js "Failed to verify bio installation: " ++ err)
       >> return_).

(** lines 86 to 95 *)
Definition link_cache : M unit :=
  try_catch_finally
    (startGroup (js "Linking ~/.hab/cache to /hab/cache") >>
     let* penv := process_env in
     exec o (js "mkdir -p " ++ dquote ++ env_text (penv !! js "HOME")
               ++ js "/.hab" ++ dquote) [] no_options >>
     let* penv := process_env in
     exec o (js "ln -sf /hab/cache " ++ dquote
               ++ env_text (penv !! js "HOME") ++ js "/.hab/" ++ dquote)
          [] no_options >>
     ret tt)
    (fun err =>
       setFailed (js "Failed to link ~/.hab/cache: " ++ err) >> return_)
    endGroup.

(** lines 100 to 110 *)
Definition update_cache_ownership : M unit :=
  try_catch_finally
    (startGroup (js "Updating cache ownership") >>
     exec o (js "sudo mkdir -p /hab/cache") [] no_options >>
     exec o (js "sudo chown -R runner:docker /hab/cache") [] no_options >>
     exec o (js "sudo chmod g+s /hab/cache") [] no_options >>
     ret tt)
    (fun err =>
       setFailed (js "Failed to update cache ownership: " ++ err)
       >> return_)
    endGroup.

(** lines 114 to 146 *)
Definition restore_cache : M unit :=
  let* locked := existsSync RESTORE_LOCK_PATH in
  if locked
  then info (js "Skipping restoring, " ++ RESTORE_LOCK_PATH
               ++ js " already exists")
  else
    try_catch_finally
      (startGroup (js "Restoring package cache") >>
       info (js "Initializing runner-writable /hab/cache") >>
       exec o (js "mkdir -p /hab/cache/artifacts") [] no_options >>
       info (js "Writing restore lock: " ++ RESTORE_LOCK_PATH) >>
       writeFileSync o RESTORE_LOCK_PATH [] >>
       console_info (js "Calling restoreCache: " ++ cacheKey) >>
       let* restoredCache :=
         restoreCache o [js "/hab/cache/artifacts"] cacheKey in
       info (match restoredCache with
             | Some k =>
                 if Boolean k then js "Restored cache " ++ k
                 else js "No cache restored"
             | None => js "No cache restored"
             end) >>
       info (js "Re-writing restore lock: " ++ RESTORE_LOCK_PATH) >>
       writeFileSync o RESTORE_LOCK_PATH [] >>
       let* cached := existsSync CACHE_LOCK_PATH in
       if cached
       then
         info (js "Erasing cache lock: " ++ CACHE_LOCK_PATH) >>
         exec o (js "rm -v " ++ dquote ++ CACHE_LOCK_PATH ++ dquote)
              [] no_options >>
         ret tt
       else ret tt)
      (fun err =>
         setFailed (js "Failed to restore package cache: " ++ err)
         >> return_)
      endGroup.

(** lines 150 to 160 *)
Definition install_deps (habEnv : gmap jsstring jsstring) : M unit :=
  if Boolean_length deps
  then
    try_catch_finally
      (startGroup (js "Installing deps: " ++ join (js " ") deps) >>
       exec o (js "sudo --preserve-env bio pkg install") deps
            (with_env habEnv) >>
       ret tt)
      (fun err =>
         setFailed (js "Failed to install deps: " ++ err) >> return_)
      endGroup
  else ret tt.

(** lines 165 to 184 *)
Definition start_supervisor (habEnv : gmap jsstring jsstring) : M unit :=
  try_catch_finally
    (startGroup (js "Starting supervisor") >>
     exec o (js "sudo mkdir -p /hab/sup/default") [] no_options >>
     exec o (js "sudo --preserve-env setsid bash")
          [js "-c"; js "bio sup run > /hab/sup/default/sup.log 2>&1 &"]
          (with_env habEnv) >>
     info (js "Waiting for supervisor secret...") >>
     exec o (js "bash")
          [js "-c";
           js "until test -f /hab/sup/default/CTL_SECRET; do echo -n "
             ++ dquote ++ js "." ++ dquote ++ js "; sleep .1; done; echo"]
          no_options >>
     info (js "Enabling sudoless access to supervisor API...") >>
     exec o (js "sudo chgrp docker /hab/sup/default/CTL_SECRET") []
          no_options >>
     exec o (js "sudo chmod g+r /hab/sup/default/CTL_SECRET") []
          no_options >>
     info (js "Waiting for supervisor...") >>
     exec o (js "bash")
          [js "-c";
           js "until bio svc status; do echo -n "
             ++ dquote ++ js "." ++ dquote ++ js "; sleep .1; done; echo"]
          no_options >>
     ret tt)
    (fun err =>
       setFailed (js "Failed to start supervisor: " ++ err) >> return_)
    endGroup.

(** lines 188 to 196: the body of the loop over the services *)
Definition load_service (habEnv : gmap jsstring jsstring) (svc : jsstring)
    : M unit :=
  try_catch_finally
    (startGroup (js "Loading service: " ++ svc) >>
     exec o (js "bio svc load " ++ svc) [] (with_env habEnv) >>
     ret tt)
    (fun err =>
       setFailed (js "Failed to load service: " ++ err) >> return_)
    endGroup.

(** lines 187 to 197: [for (const svc of supervisor)] *)
Fixpoint load_services (habEnv : gmap jsstring jsstring)
    (services : list jsstring) : M unit :=
  match services with
  | [] => ret tt
  | svc :: rest => load_service habEnv svc >> load_services habEnv rest
  end.

(** lines 164 to 199: [if (supervisor)], with [if (Array.isArray(supervisor))]
    inside; an array is truthy, also when it is empty *)
Definition setup_supervisor (habEnv : gmap jsstring jsstring) : M unit :=
  match supervisor with
  | SupBool false => ret tt
  | SupBool true => start_supervisor habEnv
  | SupArray services =>
      start_supervisor habEnv >> load_services habEnv services
  end.

(** lines 202 to 211; a template literal reads [\;] as [;] *)
Definition enable_sudoless : M unit :=
  try_catch_finally
    (startGroup (js "Enabling sudoless package installation") >>
     exec o (js "sudo chown -R runner:docker /hab/pkgs") [] no_options >>
     exec o (js "find /hab/pkgs -maxdepth 3 -type d -exec sudo chmod g+ws {} ;")
          [] no_options >>
     ret tt)
    (fun err =>
       setFailed (js "Failed to enable sudoless package installation: "
                    ++ err) >> return_)
    endGroup.

(** lines 47 to 95: what runs when [bio] is not on the search path *)
Definition install : M unit :=
  install_bio >> create_hab_user >> verify_installation >> link_cache.

(** lines 99 to 211: what runs once [bio] is there *)
Definition after_install (habEnv : gmap jsstring jsstring) : M unit :=
  update_cache_ownership >>
  restore_cache >>
  install_deps habEnv >>
  setup_supervisor habEnv >>
  enable_sudoless.

(** [async function run()], lines 31 to 212 *)
Definition run : M unit :=
  exportVariable o (js "HAB_NONINTERACTIVE") (js "true") >>
  exportVariable o (js "HAB_BLDR_URL") (js "https://bldr.biome.sh") >>
  exportVariable o (js "STUDIO_TYPE") (js "default") >>
  let* penv := process_env in
  let habEnv := penv ∪ {[ js "HAB_NONINTERACTIVE" := js "true" ]} in
  let* bio := which o (js "bio") in
  (if Boolean bio
   then info (js "Biome already installed!")
   else install) >>
  after_install habEnv.

(** [Buffer.prototype.toString], which [stdout += buffer] applies to
    each chunk. *)
Variable Buffer_toString : list N -> jsstring.

(** [async function execOutput(commandLine, args, options)], lines 214
    to 226: [exec] hands every chunk of the standard output to the
    [stdout] listener, which appends it to the local [stdout]. *)
Definition execOutput (commandLine : jsstring) (args : list jsstring)
    (options : exec_options) : M jsstring :=
  let* stdout :=
    exec_listening o commandLine args options
      (fun buffer stdout => stdout ++ Buffer_toString buffer) [] in
  ret (trim stdout).

(** lines 25 to 29: [run] is an [async] function, so the call completes
    normally with a promise whatever happens in its body. *)
Definition main : M (option promise) :=
  try_catch
    (let* p := call_async run in ret (Some p))
    (fun err => setFailed err >> ret None).

End Index.

End Index.

(** ** The teardown routine (post.js) *)

Module Post.

Section Post.

Definition CACHE_LOCK_PATH : jsstring := js "/hab/pkgs/.cached".

Variable o : Oracle.

(** [async function run()], lines 16 to 36 *)
Definition run : M unit :=
  let* cached := existsSync CACHE_LOCK_PATH in
  if cached
  then info (js "Skipping caching, " ++ CACHE_LOCK_PATH
               ++ js " already exists")
  else
    try_catch_finally
      (startGroup (js "Saving package cache") >>
       writeFileSync o CACHE_LOCK_PATH [] >>
       let* cacheId := saveCache o [js "/hab/pkgs"] (js "hab-pkgs") in
       info (if (cacheId =? 0)%Z then js "No cache saved"
             else js "Saved cache " ++ Number_toString cacheId))
      (fun err =>
         setFailed (js "Failed to save package cache: " ++ err)
         >> return_)
      endGroup.

(** lines 10 to 14 *)
Definition main : M (option promise) :=
  try_catch
    (let* p := call_async run in ret (Some p))
    (fun err => setFailed err >> ret None).

End Post.

End Post.

(** The whole of a module's load: the inputs are read from the process
    as it is when the module is loaded. *)
Definition index_js (getInput : jsstring -> jsstring) (o : Oracle)
    : M (option promise) :=
  fun w => Index.main getInput (env w) o w.

Definition post_js (o : Oracle) : M (option promise) := Post.main o.

(** ** The parsing of the inputs, in the words of the specification *)

(** Splitting on runs of whitespace: a run of one or more whitespace code
    units separates two tokens ([in_run] tells that the code unit before
    was whitespace). *)
Fixpoint split_runs (in_run : bool) (acc s : jsstring) : list jsstring :=
  match s with
  | [] => [rev acc]
  | c :: s' =>
      if is_space c
      then if in_run then split_runs true [] s'
           else rev acc :: split_runs true [] s'
      else split_runs false (c :: acc) s'
  end.

Definition split_on_whitespace_runs (s : jsstring) : list jsstring :=
  split_runs false [] s.

(** Splitting on newlines: every newline separates two lines. *)
Fixpoint lines_from (acc s : jsstring) : list jsstring :=
  match s with
  | [] => [rev acc]
  | c :: s' =>
      if is_newline c then rev acc :: lines_from [] s'
      else lines_from (c :: acc) s'
  end.

Definition lines (s : jsstring) : list jsstring := lines_from [] s.

(** The services of a supervisor input: its lines, each without the
    whitespace around it, the empty ones dropped. *)
Definition services_of (s : jsstring) : list jsstring :=
  List.filter Boolean (map trim (lines s)).

(** ** Auxiliary definitions of the proofs *)

(** A greedy star over a character class, by recursion on the input. *)
Fixpoint star_class (p : N -> bool) (s : jsstring)
    (k : jsstring -> option jsstring) : option jsstring :=
  match s with
  | c :: s' =>
      if p c
      then match star_class p s' k with
           | Some r => Some r
           | None => k s
           end
      else k s
  | [] => k []
  end.

(** The whitespace at the start of [s] holds a newline. *)
Fixpoint newline_in_run (s : jsstring) : bool :=
  match s with
  | c :: s' => is_space c && (is_newline c || newline_in_run s')
  | [] => false
  end.

(** ** Lines and the split on [/\s*\n\s*/] *)

(** The entries of a list of lines: each line trimmed, the empty ones
    dropped. *)
Definition entries (l : list jsstring) : list jsstring :=
  List.filter Boolean (map trim l).

(** ** Traces *)

(** The events a computation adds to the log of [w], in order. *)
Definition run_events {A} (m : M A) (w : World) : list event :=
  drop (length (log w)) (log (m w).2).

Definition is_restoreCache (e : event) : bool :=
  match e with ERestoreCache _ _ _ => true | _ => false end.

Definition is_saveCache (e : event) : bool :=
  match e with ESaveCache _ _ _ => true | _ => false end.

(** How many events of a kind a trace holds. *)
Definition count (p : event -> bool) (l : list event) : nat :=
  length (List.filter p l).

(** Oracles to run the routines on: every call succeeds, [bio] is on the
    search path or not, no cache is hit, and the cache is saved under the
    identifier 17. *)
Definition oracle_ok (bio_found : bool) : Oracle := {|
  exportVariable_res := fun _ _ _ => Done tt;
  which_res := fun _ _ => Done (if bio_found then js "/usr/bin/bio" else []);
  exec_res := fun _ _ _ _ => {| stdout_chunks := []; status := Done 0%Z |};
  rmRF_res := fun _ _ => Done tt;
  writeFileSync_res := fun _ _ _ => Done tt;
  restoreCache_res := fun _ _ _ => (Done None, ∅);
  saveCache_res := fun _ _ _ => Done 17%Z
|}.

(** The same, but the cache service refuses to save. *)
Definition oracle_save_fails : Oracle := {|
  exportVariable_res := fun _ _ _ => Done tt;
  which_res := fun _ _ => Done (js "/usr/bin/bio");
  exec_res := fun _ _ _ _ => {| stdout_chunks := []; status := Done 0%Z |};
  rmRF_res := fun _ _ => Done tt;
  writeFileSync_res := fun _ _ _ => Done tt;
  restoreCache_res := fun _ _ _ => (Done None, ∅);
  saveCache_res := fun _ _ _ => Failed (js "reserveCache failed")
|}.

(** The same as [oracle_ok], but the runner has no file to export
    variables to. *)
Definition oracle_export_fails : Oracle := {|
  exportVariable_res := fun _ _ _ => Failed (js "Missing file at path");
  which_res := fun _ _ => Done (js "/usr/bin/bio");
  exec_res := fun _ _ _ _ => {| stdout_chunks := []; status := Done 0%Z |};
  rmRF_res := fun _ _ => Done tt;
  writeFileSync_res := fun _ _ _ => Done tt;
  restoreCache_res := fun _ _ _ => (Done None, ∅);
  saveCache_res := fun _ _ _ => Done 17%Z
|}.

(** A runner on which nothing was done yet. *)
Definition fresh : World := {| files := ∅; env := ∅; log := [] |}.

(** ** Invariants of the world

    [inv I m]: the computation [m] keeps [I], however it completes. An
    invariant is given with the events and the changes of the file system
    it tolerates; the rules below then follow the structure of a
    routine. *)

Definition inv (I : World -> Prop) {A} (m : M A) : Prop :=
  forall w, I w -> I (m w).2.

Record closure (I : World -> Prop) (okev : event -> Prop)
    (okfs : (gset jsstring -> gset jsstring) -> Prop) : Prop := {
  cl_emit : forall e w, okev e -> I w -> I (emit e w);
  cl_files : forall f w, okfs f -> I w -> I (set_files f w);
  cl_env : forall f w, I w -> I (set_env f w)
}.

(** ** The save marker and the setup routine *)

(** A change of the file system that keeps the path [p]: one that adds
    paths, or removes another path. *)
Definition keeps (p : jsstring) (f : gset jsstring -> gset jsstring)
    : Prop :=
  forall fs, p ∈ fs -> p ∈ f fs.

(** A runner on which a previous job left the save marker of the teardown
    routine. *)
Definition stale : World :=
  {| files := {[ Post.CACHE_LOCK_PATH ]}; env := ∅; log := [] |}.

(** ** Properties of the events added since a point of the log *)

Definition since (n : nat) (T : list event -> Prop) (w : World) : Prop :=
  (n <= length (log w))%nat /\ T (drop n (log w)).

(** ** The installation is skipped when [bio] is found *)

Definition starts_with (p s : jsstring) : bool :=
  match strip_prefix p s with Some _ => true | None => false end.

(** The commands of the installation: the download and unpacking, the
    move of the binary, the creation of the group and of the user, the
    check of the version (lines 49 to 52, 65, 66 and 78). *)
Definition install_commands : list jsstring :=
  [js "wget https://github.com/biome-sh/biome/releases/download/v1.6.372/bio-1.6.372-x86_64-linux.tar.gz";
   js "tar xf bio-1.6.372-x86_64-linux.tar.gz";
   js "sudo mv bio /usr/bin";
   js "sudo chmod +x /usr/bin/bio";
   js "sudo groupadd hab";
   js "sudo useradd -g hab -G docker hab";
   js "bio --version"].

(** An event of the installation (lines 47 to 95): one of its commands,
    the two commands that link the cache directory under the home of the
    user (lines 88 and 89), one of its removals, one of its log groups, one
    of its failure reports. *)
Definition is_install_event (e : event) : bool :=
  match e with
  | EExec c _ _ _ =>
      existsb (js_eq c) install_commands
      || starts_with (js "mkdir -p " ++ dquote) c
      || starts_with (js "ln -sf /hab/cache ") c
  | ERmRF p _ =>
      js_eq p Index.tarball || js_eq p (js "/tmp/hab-install.sh")
  | EStartGroup n =>
      js_eq n (js "Installing Biome") || js_eq n (js "Creating hab user")
      || js_eq n (js "Linking ~/.hab/cache to /hab/cache")
  | ESetFailed m =>
      starts_with (js "Failed to install Biome: ") m
      || starts_with (js "Failed to create hab user: ") m
      || starts_with (js "Failed to verify bio installation: ") m
      || starts_with (js "Failed to link ~/.hab/cache: ") m
  | _ => false
  end.

(** The lookup of a tool that found it. *)
Definition found_tool (e : event) : bool :=
  match e with
  | EWhich _ (Done p) => Boolean p
  | _ => false
  end.

(** ** The cache operations happen at most once *)

(** Since the point [n] of the log, the operation [p] was called at most
    once, and when it was called the marker exists. *)
Definition at_most_once (p : event -> bool) (marker : jsstring) (n : nat)
    (w : World) : Prop :=
  (n <= length (log w))%nat
  /\ (count p (drop n (log w)) = 0%nat
      \/ (count p (drop n (log w)) = 1%nat /\ marker ∈ files w)).

(** A runner on which the restore phase already ran. *)
Definition restored : World :=
  {| files := {[ Index.RESTORE_LOCK_PATH ]}; env := ∅; log := [] |}.

(** ** What stands around a call in the trace *)

(** Wherever an event of the kind [R] stands in the trace, [P1] holds of
    the events before it and [P2] of the events after it. *)
Definition around (R : event -> bool) (P1 : list event -> Prop)
    (P2 : event -> list event -> Prop) (evs : list event) : Prop :=
  forall pre e post,
    evs = pre ++ e :: post -> R e = true -> P1 pre /\ P2 e post.

(** ** The markers are written before the cache operations *)

(** The events before the call end with the writing of the restore marker
    and the announcement of the call (the trace is read backwards). *)
Definition restore_marker_written (pre : list event) : Prop :=
  exists msg rest,
    rev pre
    = EConsoleInfo msg
      :: EWriteFileSync Index.RESTORE_LOCK_PATH [] (Done tt) :: rest.

(** After a call that completed, two lines are logged and the restore
    marker is written again. *)
Definition restore_marker_rewritten (e : event) (post : list event)
    : Prop :=
  match e with
  | ERestoreCache _ _ (Done _) =>
      exists m1 m2 r post',
        post = EInfo m1 :: EInfo m2
               :: EWriteFileSync Index.RESTORE_LOCK_PATH [] r :: post'
  | _ => True
  end.

(** The events before the call end with the writing of the save marker. *)
Definition save_marker_written (pre : list event) : Prop :=
  exists rest,
    rev pre = EWriteFileSync Post.CACHE_LOCK_PATH [] (Done tt) :: rest.

(** ** The command/output helper *)

(** What [exec] of the toolkit promises: it rejects when the exit code of
    the command is not zero, unless the caller set the option
    [ignoreReturnCode]. *)
Definition exec_contract (o : Oracle) : Prop :=
  forall w commandLine args options code,
    status (exec_res o w commandLine args options) = Done code ->
    code <> 0%Z -> opt_ignoreReturnCode options = true.

(** The claim on exit codes, as it is stated: whenever the command exits
    with a code that is not zero, the helper returns no string. *)
Definition nonzero_exit_fails (o : Oracle)
    (Buffer_toString : list N -> jsstring) (commandLine : jsstring)
    (args : list jsstring) (options : exec_options) (w : World) : Prop :=
  forall code,
    status (exec_res o w commandLine args options) = Done code ->
    code <> 0%Z ->
    forall s w',
      Index.execOutput o Buffer_toString commandLine args options w
      <> (Normal s, w').

(** A command that prints [ok] and a newline, in two chunks, and exits
    with the code 1: [exec] rejects, or resolves with 1 when it is told to
    ignore the code. *)
Definition oracle_exit_1 : Oracle := {|
  exportVariable_res := fun _ _ _ => Done tt;
  which_res := fun _ _ => Done (js "/usr/bin/bio");
  exec_res := fun _ _ _ options =>
    {| stdout_chunks := [[111]; [107; 10]];
       status := if opt_ignoreReturnCode options then Done 1%Z
                 else Failed (js "The process failed with exit code 1") |};
  rmRF_res := fun _ _ => Done tt;
  writeFileSync_res := fun _ _ _ => Done tt;
  restoreCache_res := fun _ _ _ => (Done None, ∅);
  saveCache_res := fun _ _ _ => Done 17%Z
|}.

Definition ignoring_code : exec_options :=
  {| opt_env := None; opt_ignoreReturnCode := true |}.

(** ** Two runs that differ in the cache key

    [erase_key] forgets the key in the events of the restore operation: the
    call of the cache service and the line that announces it. Two worlds
    are alike when they differ in nothing else. *)

Definition erase_key (e : event) : event :=
  match e with
  | ERestoreCache paths _ res => ERestoreCache paths [] res
  | EConsoleInfo msg =>
      if starts_with (js "Calling restoreCache: ") msg
      then EConsoleInfo (js "Calling restoreCache: ")
      else e
  | _ => e
  end.

Definition alike (w1 w2 : World) : Prop :=
  files w1 = files w2 /\ env w1 = env w2
  /\ map erase_key (log w1) = map erase_key (log w2).

(** An oracle whose answers do not depend on the key: it answers the same
    in worlds that are alike, and to the cache service's restore call
    whatever the key is. *)
Record key_blind (o : Oracle) : Prop := {
  kb_exportVariable : forall w1 w2 name val, alike w1 w2 ->
    exportVariable_res o w1 name val = exportVariable_res o w2 name val;
  kb_which : forall w1 w2 tool, alike w1 w2 ->
    which_res o w1 tool = which_res o w2 tool;
  kb_exec : forall w1 w2 c args options, alike w1 w2 ->
    exec_res o w1 c args options = exec_res o w2 c args options;
  kb_rmRF : forall w1 w2 path, alike w1 w2 ->
    rmRF_res o w1 path = rmRF_res o w2 path;
  kb_writeFileSync : forall w1 w2 path data, alike w1 w2 ->
    writeFileSync_res o w1 path data = writeFileSync_res o w2 path data;
  kb_restoreCache : forall w1 w2 paths k1 k2, alike w1 w2 ->
    restoreCache_res o w1 paths k1 = restoreCache_res o w2 paths k2;
  kb_saveCache : forall w1 w2 paths key, alike w1 w2 ->
    saveCache_res o w1 paths key = saveCache_res o w2 paths key
}.

(** [rel m1 m2]: from worlds that are alike, the two computations complete
    the same way in worlds that are alike. *)
Definition rel {A} (m1 m2 : M A) : Prop :=
  forall w1 w2, alike w1 w2 ->
    (m1 w1).1 = (m2 w2).1 /\ alike (m1 w1).2 (m2 w2).2.

(** The events of the cache service: a restore of the artifacts directory
    under the key [key], and no save. *)
Definition setup_cache_event (key : jsstring) (e : event) : Prop :=
  match e with
  | ERestoreCache paths k _ => paths = [js "/hab/cache/artifacts"] /\ k = key
  | ESaveCache _ _ _ => False
  | _ => True
  end.

(** The events of the cache service: a save of the packages directory
    under the fixed key, and no restore. *)
Definition teardown_cache_event (e : event) : Prop :=
  match e with
  | ESaveCache paths k _ => paths = [js "/hab/pkgs"] /\ k = js "hab-pkgs"
  | ERestoreCache _ _ _ => False
  | _ => True
  end.

(** Inputs that are not set, but for the cache key. *)
Definition only_cache_key (key name : jsstring) : jsstring :=
  if js_eq name (js "cache-key") then key else [].

(** ** Failures and their reports *)

(** The error of a call that failed. *)
Definition failure (e : event) : option jsstring :=
  match e with
  | EExportVariable _ _ (Failed err)
  | EWhich _ (Failed err)
  | EWriteFileSync _ _ (Failed err)
  | EExec _ _ _ (Failed err)
  | ERmRF _ (Failed err)
  | ERestoreCache _ _ (Failed err)
  | ESaveCache _ _ (Failed err) => Some err
  | _ => None
  end.

Definition msg_install : jsstring := js "Failed to install Biome: ".
Definition msg_user : jsstring := js "Failed to create hab user: ".
Definition msg_verify : jsstring := js "Failed to verify bio installation: ".
Definition msg_link : jsstring := js "Failed to link ~/.hab/cache: ".
Definition msg_ownership : jsstring :=
  js "Failed to update cache ownership: ".
Definition msg_restore : jsstring := js "Failed to restore package cache: ".
Definition msg_deps : jsstring := js "Failed to install deps: ".
Definition msg_supervisor : jsstring := js "Failed to start supervisor: ".
Definition msg_service : jsstring := js "Failed to load service: ".
Definition msg_sudoless : jsstring :=
  js "Failed to enable sudoless package installation: ".

(** The commands of the setup routine that are fixed strings, each with
    the message of the phase that runs it. *)
Definition command_phases : list (jsstring * jsstring) :=
  [(js "wget https://github.com/biome-sh/biome/releases/download/v1.6.372/bio-1.6.372-x86_64-linux.tar.gz", msg_install);
   (js "tar xf bio-1.6.372-x86_64-linux.tar.gz", msg_install);
   (js "sudo mv bio /usr/bin", msg_install);
   (js "sudo chmod +x /usr/bin/bio", msg_install);
   (js "sudo groupadd hab", msg_user);
   (js "sudo useradd -g hab -G docker hab", msg_user);
   (js "bio --version", msg_verify);
   (js "sudo mkdir -p /hab/cache", msg_ownership);
   (js "sudo chown -R runner:docker /hab/cache", msg_ownership);
   (js "sudo chmod g+s /hab/cache", msg_ownership);
   (js "mkdir -p /hab/cache/artifacts", msg_restore);
   (js "sudo --preserve-env bio pkg install", msg_deps);
   (js "sudo mkdir -p /hab/sup/default", msg_supervisor);
   (js "sudo --preserve-env setsid bash", msg_supervisor);
   (js "bash", msg_supervisor);
   (js "sudo chgrp docker /hab/sup/default/CTL_SECRET", msg_supervisor);
   (js "sudo chmod g+r /hab/sup/default/CTL_SECRET", msg_supervisor);
   (js "sudo chown -R runner:docker /hab/pkgs", msg_sudoless);
   (js "find /hab/pkgs -maxdepth 3 -type d -exec sudo chmod g+ws {} ;",
    msg_sudoless)].

(** The commands that are built from a value, by how they start. *)
Definition command_prefix_phases : list (jsstring * jsstring) :=
  [(js "mkdir -p " ++ dquote, msg_link);
   (js "ln -sf /hab/cache " ++ dquote, msg_link);
   (js "rm -v " ++ dquote, msg_restore);
   (js "bio svc load ", msg_service)].

Definition phase_of_command (c : jsstring) : option jsstring :=
  match List.find (fun kp => js_eq c kp.1) command_phases with
  | Some kp => Some kp.2
  | None =>
      match List.find (fun kp => starts_with kp.1 c) command_prefix_phases
      with
      | Some kp => Some kp.2
      | None => None
      end
  end.

(** The message of the phase a call of the setup routine belongs to: the
    phase whose [try] the call stands in. The exports of the environment
    and the lookup of [bio] stand in no [try]. *)
Definition phase_message (e : event) : option jsstring :=
  match e with
  | EExec c _ _ _ => phase_of_command c
  | ERmRF p _ =>
      if js_eq p Index.tarball then Some msg_install
      else if js_eq p (js "/tmp/hab-install.sh") then Some msg_user
      else None
  | EWriteFileSync _ _ _ | ERestoreCache _ _ _ => Some msg_restore
  | _ => None
  end.

(** A call that stands in no [try]. *)
Definition top_level_call (e : event) : Prop :=
  match e with
  | EExportVariable _ _ _ | EWhich _ _ => True
  | _ => False
  end.

Definition clean (evs : list event) : Prop :=
  Forall (fun e => failure e = None) evs.

(** The trace of a computation that threw: the last call failed with the
    error thrown, and it is a call of the phase [ph]. *)
Definition raised (ph : option jsstring) (err : jsstring)
    (evs : list event) : Prop :=
  exists pre e,
    evs = pre ++ [e] /\ clean pre /\ failure e = Some err
    /\ phase_message e = ph.

(** The trace of a routine that returned early: a call failed, the
    failure was reported with the message of its phase, the log group, if
    any, was closed. *)
Definition reported (evs : list event) : Prop :=
  exists pre e err X tail,
    evs = pre ++ e :: ESetFailed (X ++ err) :: tail /\ clean pre
    /\ failure e = Some err /\ phase_message e = Some X
    /\ (tail = [] \/ tail = [EEndGroup]).

(** A completion without its value. *)
Definition erase_value {A} (c : completion A) : completion unit :=
  match c with
  | Normal _ => Normal tt
  | Throw err => Throw err
  | Return => Return
  end.

(** How a computation may complete, inside the [try] of the phase [ph] or
    outside any [try], and its trace since the point [n] of the log. *)
Definition outcome_ok (ph : option jsstring) (n : nat)
    (c : completion unit) (w : World) : Prop :=
  (n <= length (log w))%nat
  /\ match c with
     | Normal _ => clean (drop n (log w))
     | Throw err => raised ph err (drop n (log w))
     | Return =>
         match ph with
         | None => reported (drop n (log w))
         | Some _ => False
         end
     end.

Definition sat (J : completion unit -> World -> Prop) {A} (m : M A)
    : Prop :=
  forall w, J (Normal tt) w -> J (erase_value (m w).1) (m w).2.

(** The calls of the setup routine are those of the tables above, the
    exports and the lookup. *)
Definition known_call (e : event) : Prop :=
  match e with
  | EExec _ _ _ _ | ERmRF _ _ => phase_message e <> None
  | ESaveCache _ _ _ => False
  | _ => True
  end.

(** The claim on failures, as it is stated: whatever call fails, the failure
    is reported with a message that ends with the error, the log group, if
    any, is closed, nothing else follows and the routine returns. *)
Definition every_failure_reported (c : completion unit)
    (evs : list event) : Prop :=
  forall pre e post err,
    evs = pre ++ e :: post -> failure e = Some err ->
    (exists X, post = [ESetFailed (X ++ err)]
               \/ post = [ESetFailed (X ++ err); EEndGroup])
    /\ c = Return.

(** A failure inside a phase is reported: here the download. *)
Definition oracle_download_fails : Oracle := {|
  exportVariable_res := fun _ _ _ => Done tt;
  which_res := fun _ _ => Done [];
  exec_res := fun _ _ _ _ =>
    {| stdout_chunks := []; status := Failed (js "exit code 8") |};
  rmRF_res := fun _ _ => Done tt;
  writeFileSync_res := fun _ _ _ => Done tt;
  restoreCache_res := fun _ _ _ => (Done None, ∅);
  saveCache_res := fun _ _ _ => Done 17%Z
|}.

(** ** The environment and the arguments of the commands *)

(** The environment of the process once the setup routine has exported its
    three variables (lines 32 to 34). *)
Definition exported_env (e : gmap jsstring jsstring)
    : gmap jsstring jsstring :=
  <[ js "STUDIO_TYPE" := js "default" ]>
    (<[ js "HAB_BLDR_URL" := js "https://bldr.biome.sh" ]>
       (<[ js "HAB_NONINTERACTIVE" := js "true" ]> e)).

(** The commands that are given an environment: the installation of the
    dependencies, the start of the supervisor and the load of a service
    (lines 153, 168 and 190). *)
Definition takes_env (c : jsstring) : bool :=
  js_eq c (js "sudo --preserve-env bio pkg install")
  || js_eq c (js "sudo --preserve-env setsid bash")
  || starts_with (js "bio svc load ") c.

(** The options of a command are the environment [habEnv] or nothing. *)
Definition command_options (habEnv : gmap jsstring jsstring) (e : event)
    : Prop :=
  match e with
  | EExec c _ options _ =>
      options = if takes_env c then with_env habEnv else no_options
  | _ => True
  end.

(** What a command is given as arguments: the dependencies for the
    installation of the packages (line 153), a script for the two shells
    (lines 168, 172 and 181), nothing otherwise. *)
Definition command_args (deps : list jsstring) (e : event) : Prop :=
  match e with
  | EExec c args _ _ =>
      if js_eq c (js "sudo --preserve-env bio pkg install")
      then args = deps /\ deps <> []
      else if js_eq c (js "sudo --preserve-env setsid bash")
              || js_eq c (js "bash")
           then exists script, args = [js "-c"; script]
           else args = []
  | _ => True
  end.

(** ** The supervisor and its services *)

(** An event of the load of a service (lines 188 to 196): its command, its
    log group, its failure report. *)
Definition is_load_event (e : event) : bool :=
  match e with
  | EExec c _ _ _ => starts_with (js "bio svc load ") c
  | EStartGroup n => starts_with (js "Loading service: ") n
  | ESetFailed m => starts_with msg_service m
  | _ => false
  end.

(** The commands of the start of the supervisor (lines 167 to 181). *)
Definition supervisor_commands : list jsstring :=
  [js "sudo mkdir -p /hab/sup/default";
   js "sudo --preserve-env setsid bash";
   js "bash";
   js "sudo chgrp docker /hab/sup/default/CTL_SECRET";
   js "sudo chmod g+r /hab/sup/default/CTL_SECRET"].

(** An event of the supervisor (lines 164 to 199): of its start or of the
    load of a service. *)
Definition is_supervisor_event (e : event) : bool :=
  is_load_event e
  || match e with
     | EExec c _ _ _ => existsb (js_eq c) supervisor_commands
     | EStartGroup n => js_eq n (js "Starting supervisor")
     | ESetFailed m => starts_with msg_supervisor m
     | EInfo m =>
         js_eq m (js "Waiting for supervisor secret...")
         || js_eq m (js "Enabling sudoless access to supervisor API...")
         || js_eq m (js "Waiting for supervisor...")
     | _ => false
     end.

(** The service a command loads, if it loads one. *)
Definition loaded_service (e : event) : option jsstring :=
  match e with
  | EExec c _ _ _ => strip_prefix (js "bio svc load ") c
  | _ => None
  end.

(** What the value of [supervisor] allows in the trace. *)
Definition supervisor_allows (s : supervisor_t) (e : event) : Prop :=
  match s with
  | SupBool false => is_supervisor_event e = false
  | SupBool true => is_load_event e = false
  | SupArray services =>
      forall svc, loaded_service e = Some svc -> In svc services
  end.

(** The events of the load of one service (lines 188 to 196): the log
    group, the command and how it ended, the report when it failed, the end
    of the group. *)
Definition load_group (habEnv : gmap jsstring jsstring) (svc : jsstring)
    (res : outcome Z) : list event :=
  [EStartGroup (js "Loading service: " ++ svc);
   EExec (js "bio svc load " ++ svc) [] (with_env habEnv) res]
  ++ match res with
     | Done _ => []
     | Failed err => [ESetFailed (js "Failed to load service: " ++ err)]
     end
  ++ [EEndGroup].

(** The events of the services that were loaded, with the exit codes of
    their commands. *)
Definition loaded_groups (habEnv : gmap jsstring jsstring)
    (services : list jsstring) (codes : list Z) : list event :=
  concat (zip_with (fun svc code => load_group habEnv svc (Done code))
                   services codes).

(** ** The log groups *)

(** Reading a trace with a log group open or not: a group is opened only
    when none is open, and closed only when one is open. The result is
    whether a group is open at the end, if the trace can be read so. *)
Fixpoint groups (open : bool) (evs : list event) : option bool :=
  match evs with
  | [] => Some open
  | EStartGroup _ :: evs' => if open then None else groups true evs'
  | EEndGroup :: evs' => if open then groups false evs' else None
  | _ :: evs' => groups open evs'
  end.

Definition is_group_mark (e : event) : bool :=
  match e with
  | EStartGroup _ | EEndGroup => true
  | _ => false
  end.

(** ** How often a failure is reported *)

Definition is_setFailed (e : event) : bool :=
  match e with ESetFailed _ => true | _ => false end.

(** How a computation may complete, inside a [try] or outside any, and how
    many failures were reported since the point [n] of the log: one when
    the routine returned early, none otherwise. There is no [return] inside
    a [try]. *)
Definition reports (inside : bool) (n : nat) (c : completion unit)
    (w : World) : Prop :=
  (n <= length (log w))%nat
  /\ match c with
     | Return =>
         inside = false /\ count is_setFailed (drop n (log w)) = 1%nat
     | _ => count is_setFailed (drop n (log w)) = 0%nat
     end.

(** ** The markers after the restore phase *)

(** A runner on which the cache service finds an archive, which holds the
    cache marker of the job that saved it. *)
Definition oracle_cache_hit : Oracle := {|
  exportVariable_res := fun _ _ _ => Done tt;
  which_res := fun _ _ => Done (js "/usr/bin/bio");
  exec_res := fun _ _ _ _ => {| stdout_chunks := []; status := Done 0%Z |};
  rmRF_res := fun _ _ => Done tt;
  writeFileSync_res := fun _ _ _ => Done tt;
  restoreCache_res := fun _ _ key =>
    (Done (Some key), {[ js "/hab/cache/artifacts/.cached" ]});
  saveCache_res := fun _ _ _ => Done 17%Z
|}.

(** ** What the command/output helper trims *)

(** The string does not start with whitespace. *)
Definition no_space_ahead (s : jsstring) : Prop :=
  match s with
  | c :: _ => is_space c = false
  | [] => True
  end.

(** ** What has succeeded before a call *)

(** The event is the command [c], run with the arguments [args], that
    completed. *)
Definition ran (c : jsstring) (args : list jsstring) (e : event) : bool :=
  match e with
  | EExec c' args' _ (Done _) => js_eq c' c && bool_decide (args' = args)
  | _ => false
  end.

(** Every command of the list completed somewhere in the trace. *)
Definition all_succeeded (cs : list (jsstring * list jsstring))
    (evs : list event) : Prop :=
  forallb (fun c => existsb (ran c.1 c.2) evs) cs = true.

(** The commands that make the cache directory and give it to the runner
    (lines 101 to 103). *)
Definition ownership_commands : list (jsstring * list jsstring) :=
  [(js "sudo mkdir -p /hab/cache", []);
   (js "sudo chown -R runner:docker /hab/cache", []);
   (js "sudo chmod g+s /hab/cache", [])].

(** The commands that start the supervisor and wait for it (lines 167 to
    181). *)
Definition supervisor_start_commands : list (jsstring * list jsstring) :=
  [(js "sudo mkdir -p /hab/sup/default", []);
   (js "sudo --preserve-env setsid bash",
    [js "-c"; js "bio sup run > /hab/sup/default/sup.log 2>&1 &"]);
   (js "bash",
    [js "-c";
     js "until test -f /hab/sup/default/CTL_SECRET; do echo -n "
       ++ dquote ++ js "." ++ dquote ++ js "; sleep .1; done; echo"]);
   (js "sudo chgrp docker /hab/sup/default/CTL_SECRET", []);
   (js "sudo chmod g+r /hab/sup/default/CTL_SECRET", []);
   (js "bash",
    [js "-c";
     js "until bio svc status; do echo -n "
       ++ dquote ++ js "." ++ dquote ++ js "; sleep .1; done; echo"])].

(** The command that loads a service. *)
Definition is_load_command (e : event) : bool :=
  match e with
  | EExec c _ _ _ => starts_with (js "bio svc load ") c
  | _ => false
  end.

(** Inputs: the dependencies and the supervisor are set, nothing else. *)
Definition inputs (deps supervisor name : jsstring) : jsstring :=
  if js_eq name (js "deps") then deps
  else if js_eq name (js "supervisor") then supervisor
  else [].

(** A job that asks for two packages and two services. *)
Definition two_services : jsstring -> jsstring :=
  inputs (js "core/git  core/jq")
         (js "core/mysql" ++ [10] ++ js "  core/nginx --bind x").

(** ** The installation runs when [bio] is not found *)

Definition download : jsstring :=
  js "wget https://github.com/biome-sh/biome/releases/download/v1.6.372/bio-1.6.372-x86_64-linux.tar.gz".

(** The log is the log of [w] followed by the first two events of the
    installation, and by anything. *)
Definition installation_started (w w' : World) : Prop :=
  exists res post,
    log w'
    = log w ++ EStartGroup (js "Installing Biome")
        :: EExec download [] no_options res :: post.

Definition is_lookup (e : event) : bool :=
  match e with EWhich _ _ => true | _ => false end.

(** ** Regular expressions: what the two patterns match *)

Lemma star_loop_class (p : N -> bool) (m : matcher) (fuel : nat) :
  (forall s k, m s k = rmatch (RClass p) s k) ->
  forall s k, (length s <= fuel)%nat ->
    star_loop m fuel s k = star_class p s k.
Proof.
  intros Hm.
  induction fuel as [|fuel IH]; intros s k Hlen.
  - destruct s; [reflexivity | simpl in Hlen; lia].
  - destruct s as [|c s']; simpl; rewrite Hm; [reflexivity|].
    simpl in *. destruct (p c); [|reflexivity].
    assert (Hlt : (length s' <? S (length s'))%nat = true)
      by (apply Nat.ltb_lt; lia).
    rewrite Hlt, IH by lia. reflexivity.
Qed.

Ltac star_class p :=
  rewrite (star_loop_class p) by (intros; first [reflexivity | simpl; lia]).

Lemma star_space_Some (s : jsstring) :
  star_class is_space s Some = Some (drop_space s).
Proof.
  induction s as [|c s' IH]; simpl; [reflexivity|].
  destruct (is_space c); [rewrite IH|]; reflexivity.
Qed.

Lemma newline_is_space (c : N) : is_newline c = true -> is_space c = true.
Proof.
  unfold is_newline. intros H%N.eqb_eq. subst c. reflexivity.
Qed.

Lemma SplitMatcher_spaces (s : jsstring) :
  SplitMatcher re_spaces s
  = match s with
    | c :: s' => if is_space c then Some (drop_space s') else None
    | [] => None
    end.
Proof.
  unfold SplitMatcher, re_spaces. destruct s as [|c s']; [reflexivity|].
  simpl. destruct (is_space c); [|reflexivity].
  star_class is_space. apply star_space_Some.
Qed.

Lemma SplitMatcher_newline (s : jsstring) :
  SplitMatcher re_newline s
  = if newline_in_run s then Some (drop_space s) else None.
Proof.
  unfold SplitMatcher, re_newline. simpl.
  star_class is_space.
  induction s as [|c s' IH]; [reflexivity|].
  simpl. destruct (is_space c) eqn:Hsp; simpl.
  - rewrite IH. destruct (newline_in_run s').
    + rewrite orb_true_r. reflexivity.
    + rewrite orb_false_r. destruct (is_newline c); [|reflexivity].
      star_class is_space. apply star_space_Some.
  - destruct (is_newline c) eqn:Hnl; [|reflexivity].
    apply newline_is_space in Hnl. congruence.
Qed.

(** ** [split] with the two patterns *)

Lemma drop_space_length (s : jsstring) :
  (length (drop_space s) <= length s)%nat.
Proof.
  induction s as [|c s' IH]; simpl; [lia|].
  destruct (is_space c); simpl; lia.
Qed.

Lemma split_runs_in_run (s : jsstring) :
  split_runs true [] s = split_runs false [] (drop_space s).
Proof.
  induction s as [|c s' IH]; simpl; [reflexivity|].
  destruct (is_space c) eqn:Hc; [exact IH|].
  simpl. rewrite Hc. reflexivity.
Qed.

Lemma split_loop_spaces (fuel : nat) :
  forall rest acc, (length rest < fuel)%nat ->
    split_loop fuel re_spaces acc rest = split_runs false acc rest.
Proof.
  induction fuel as [|fuel IH]; intros rest acc Hlen; [lia|].
  destruct rest as [|c tl]; [reflexivity|].
  cbn [split_loop]. rewrite SplitMatcher_spaces.
  cbn [split_runs]. simpl in Hlen.
  destruct (is_space c).
  - pose proof (drop_space_length tl) as Hd.
    replace (length (drop_space tl) =? length (c :: tl))%nat with false
      by (symmetry; apply Nat.eqb_neq; simpl; lia).
    cbn [andb]. rewrite IH by lia. rewrite split_runs_in_run. reflexivity.
  - apply IH. lia.
Qed.

Lemma js_split_spaces (s : jsstring) :
  js_split re_spaces s = split_on_whitespace_runs s.
Proof.
  destruct s as [|c s']; [reflexivity|].
  unfold js_split, split_on_whitespace_runs.
  apply split_loop_spaces. simpl. lia.
Qed.

Lemma split_runs_all_space (s : jsstring) :
  forallb is_space s = true ->
  forall b, List.filter Boolean (split_runs b [] s) = [].
Proof.
  induction s as [|c s' IH]; intros Hs b; [reflexivity|].
  simpl in Hs. apply andb_prop in Hs as [Hc Hs'].
  simpl. rewrite Hc. destruct b; simpl; auto.
Qed.

Lemma concat_filter_Boolean (l : list jsstring) :
  concat (List.filter Boolean l) = concat l.
Proof.
  induction l as [|x l IH]; [reflexivity|].
  destruct x; simpl; [exact IH | rewrite IH; reflexivity].
Qed.

Lemma split_runs_concat (s : jsstring) :
  forall b acc, (b = true -> acc = []) ->
    concat (split_runs b acc s)
    = rev acc ++ List.filter (fun c => negb (is_space c)) s.
Proof.
  induction s as [|c s' IH]; intros b acc Hb; simpl.
  - rewrite !app_nil_r. reflexivity.
  - destruct (is_space c); simpl.
    + destruct b.
      * rewrite Hb by reflexivity. apply (IH true []). reflexivity.
      * simpl. rewrite (IH true []) by reflexivity. reflexivity.
    + rewrite IH by discriminate. simpl. rewrite <- app_assoc. reflexivity.
Qed.

Lemma split_runs_no_space (s : jsstring) :
  forall b acc, forallb (fun c => negb (is_space c)) acc = true ->
    Forall (fun t => forallb (fun c => negb (is_space c)) t = true)
           (split_runs b acc s).
Proof.
  assert (Hrev : forall acc,
             forallb (fun c => negb (is_space c)) acc = true ->
             forallb (fun c => negb (is_space c)) (rev acc) = true).
  { intros acc H. apply forallb_forall. intros x Hx%in_rev.
    exact (proj1 (forallb_forall _ _) H x Hx). }
  induction s as [|c s' IH]; intros b acc Hacc; simpl.
  - constructor; auto.
  - destruct (is_space c) eqn:Hc.
    + destruct b; [apply IH; reflexivity|].
      constructor; [auto | apply IH; reflexivity].
    + apply IH. simpl. rewrite Hc. exact Hacc.
Qed.

(** C4. Whatever the value of the [deps] input, the dependency list is that
    value split on runs of whitespace with the empty tokens dropped: the
    tokens hold no whitespace, and together they are the code units of the
    input that are not whitespace, in order. When the input is empty or
    holds only whitespace, the list is empty and the phase that installs
    the dependencies does nothing: it calls no command and leaves the world
    as it is. *)
Theorem deps_split_on_whitespace (getInput : jsstring -> jsstring) :
  let input := getInput (js "deps") in
  Index.deps getInput
  = List.filter Boolean (split_on_whitespace_runs input)
  /\ Forall (fun t => t <> []
                      /\ forallb (fun c => negb (is_space c)) t = true)
            (Index.deps getInput)
  /\ concat (Index.deps getInput)
     = List.filter (fun c => negb (is_space c)) input
  /\ (forallb is_space input = true ->
      Index.deps getInput = []
      /\ forall o habEnv w,
           Index.install_deps getInput o habEnv w = (Normal tt, w)).
Proof.
  intros input.
  assert (Hd : Index.deps getInput
               = List.filter Boolean (split_on_whitespace_runs input)).
  { unfold Index.deps, js_or. fold input.
    destruct (Boolean input) eqn:Hb; [apply f_equal, js_split_spaces|].
    destruct input; [reflexivity | discriminate]. }
  split; [exact Hd|]. rewrite Hd.
  split; [|split].
  - apply List.Forall_forall. intros t [Ht Hb]%filter_In. split.
    + destruct t; [discriminate | congruence].
    + pose proof (split_runs_no_space input false [] eq_refl) as Hall.
      rewrite List.Forall_forall in Hall. exact (Hall t Ht).
  - rewrite concat_filter_Boolean.
    unfold split_on_whitespace_runs.
    rewrite split_runs_concat by discriminate. reflexivity.
  - intros Hws.
    assert (He : List.filter Boolean (split_on_whitespace_runs input) = [])
      by (apply split_runs_all_space; exact Hws).
    split; [exact He|].
    intros o habEnv w. unfold Index.install_deps. rewrite Hd, He.
    reflexivity.
Qed.

Lemma deps_split_on_whitespace_witness :
  Index.deps (fun _ => js "  ") = []
  /\ forall o habEnv w,
       Index.install_deps (fun _ => js "  ") o habEnv w = (Normal tt, w).
Proof.
  apply (deps_split_on_whitespace (fun _ => js "  ")). reflexivity.
Defined.

Example deps_readme :
  Index.deps (fun _ => js "core/git" ++ [10] ++ js "core/bio-studio")
  = [js "core/git"; js "core/bio-studio"].
Proof. vm_compute. reflexivity. Qed.

(** ** Whitespace at the ends of a string *)

Lemma forallb_rev {A} (f : A -> bool) (l : list A) :
  forallb f l = true -> forallb f (rev l) = true.
Proof.
  intros H. apply forallb_forall. intros x Hx%in_rev.
  exact (proj1 (forallb_forall _ _) H x Hx).
Qed.

Lemma drop_space_app (x y : jsstring) :
  drop_space (x ++ y)
  = match drop_space x with
    | [] => drop_space y
    | _ :: _ => drop_space x ++ y
    end.
Proof.
  induction x as [|c x IH]; simpl; [reflexivity|].
  destruct (is_space c); [exact IH | reflexivity].
Qed.

Lemma drop_space_all (l : jsstring) :
  forallb is_space l = true -> drop_space l = [].
Proof.
  induction l as [|c l IH]; simpl; [reflexivity|].
  intros [Hc Hl]%andb_prop. rewrite Hc. auto.
Qed.

Lemma drop_space_idem (s : jsstring) :
  drop_space (drop_space s) = drop_space s.
Proof.
  induction s as [|c s IH]; simpl; [reflexivity|].
  destruct (is_space c) eqn:Hc; [exact IH|]. simpl. rewrite Hc. reflexivity.
Qed.

Lemma drop_space_fix_cons (c : N) (x : jsstring) :
  drop_space (c :: x) = c :: x <-> is_space c = false.
Proof.
  simpl. destruct (is_space c); split; try congruence; try reflexivity.
  intros H. pose proof (drop_space_length x) as Hl.
  rewrite H in Hl. simpl in Hl. lia.
Qed.

Lemma drop_space_fix_app_l (x y : jsstring) :
  drop_space (x ++ y) = x ++ y -> drop_space x = x.
Proof.
  destruct x as [|c x]; [reflexivity|].
  rewrite <- app_comm_cons, !drop_space_fix_cons. auto.
Qed.

Lemma drop_space_fix_app_r (x y : jsstring) :
  drop_space x = x -> x <> [] -> drop_space (x ++ y) = x ++ y.
Proof.
  destruct x as [|c x]; [congruence|]. intros H _.
  rewrite <- app_comm_cons. apply drop_space_fix_cons.
  apply drop_space_fix_cons in H. exact H.
Qed.

Lemma drop_space_split (v : jsstring) :
  exists lead, forallb is_space lead = true /\ v = lead ++ drop_space v.
Proof.
  induction v as [|c v [lead [Hl Hv]]]; [exists []; auto|].
  simpl. destruct (is_space c) eqn:Hc.
  - exists (c :: lead). simpl. rewrite Hc, Hl. split; [reflexivity|].
    congruence.
  - exists []. auto.
Qed.

Lemma trim_lead (lead x : jsstring) :
  forallb is_space lead = true -> trim (lead ++ x) = trim x.
Proof.
  intros H. unfold trim. rewrite drop_space_app.
  rewrite (drop_space_all lead) by exact H. reflexivity.
Qed.

Lemma trim_trail (x trail : jsstring) :
  forallb is_space trail = true -> trim (x ++ trail) = trim x.
Proof.
  intros H. unfold trim. rewrite drop_space_app.
  destruct (drop_space x) as [|c d] eqn:Hd.
  - rewrite (drop_space_all trail) by exact H. reflexivity.
  - rewrite rev_app_distr, drop_space_app.
    rewrite (drop_space_all (rev trail)) by (apply forallb_rev; exact H).
    reflexivity.
Qed.

Lemma trim_all_space (x : jsstring) :
  forallb is_space x = true -> trim x = [].
Proof.
  intros H. unfold trim. rewrite (drop_space_all x) by exact H. reflexivity.
Qed.

Lemma trim_fix (x : jsstring) :
  drop_space x = x -> drop_space (rev x) = rev x -> trim x = x.
Proof.
  intros H1 H2. unfold trim. rewrite H1, H2. apply rev_involutive.
Qed.

Lemma trim_ends (s : jsstring) :
  drop_space (trim s) = trim s /\ drop_space (rev (trim s)) = rev (trim s).
Proof.
  split.
  - destruct (drop_space_split (rev (drop_space s))) as [lead [Hl Hv]].
    assert (Hs : drop_space s = trim s ++ rev lead).
    { unfold trim. rewrite <- rev_app_distr, <- Hv.
      symmetry. apply rev_involutive. }
    apply (drop_space_fix_app_l _ (rev lead)). rewrite <- Hs.
    apply drop_space_idem.
  - unfold trim. rewrite rev_involutive. apply drop_space_idem.
Qed.

Lemma trim_split (s : jsstring) :
  exists lead trail,
    forallb is_space lead = true /\ forallb is_space trail = true
    /\ s = lead ++ trim s ++ trail.
Proof.
  destruct (drop_space_split s) as [lead [Hl Hs]].
  destruct (drop_space_split (rev (drop_space s))) as [tr [Ht Hv]].
  exists lead, (rev tr). split; [exact Hl|].
  split; [apply forallb_rev; exact Ht|].
  unfold trim. rewrite <- rev_app_distr, <- Hv, rev_involutive. exact Hs.
Qed.

(** ** Lines and the split on [/\s*\n\s*/] *)

Lemma entries_cons (x : jsstring) (l : list jsstring) :
  entries (x :: l) = entries [x] ++ entries l.
Proof.
  unfold entries. simpl. destruct (Boolean (trim x)); reflexivity.
Qed.

Lemma not_newline_run (c : N) (tl : jsstring) :
  newline_in_run (c :: tl) = false -> is_newline c = false.
Proof.
  simpl. destruct (is_newline c) eqn:Hn; [|reflexivity].
  rewrite (newline_is_space c Hn). simpl. congruence.
Qed.

Lemma lead_irrelevant (s : jsstring) :
  forall x lead, forallb is_space lead = true ->
    entries (lines_from (x ++ lead) s) = entries (lines_from x s).
Proof.
  induction s as [|c s IH]; intros x lead Hl; simpl.
  - unfold entries. simpl. rewrite rev_app_distr.
    rewrite trim_lead by (apply forallb_rev; exact Hl). reflexivity.
  - destruct (is_newline c).
    + rewrite entries_cons, (entries_cons (rev x)). f_equal.
      unfold entries. simpl. rewrite rev_app_distr.
      rewrite trim_lead by (apply forallb_rev; exact Hl). reflexivity.
    + rewrite app_comm_cons. apply IH. exact Hl.
Qed.

Lemma skip_lines (s : jsstring) :
  forall acc, forallb is_space acc = true ->
    entries (lines_from acc s) = entries (lines_from [] (drop_space s)).
Proof.
  induction s as [|c s IH]; intros acc Ha.
  - apply (lead_irrelevant [] [] acc Ha).
  - simpl. destruct (is_space c) eqn:Hc.
    + destruct (is_newline c).
      * rewrite entries_cons. unfold entries at 1. simpl.
        rewrite trim_all_space by (apply forallb_rev; exact Ha).
        simpl. apply (IH []). reflexivity.
      * apply IH. simpl. rewrite Hc. exact Ha.
    + apply (lead_irrelevant (c :: s) [] acc Ha).
Qed.

Lemma run_lines (rest : jsstring) :
  forall acc, newline_in_run rest = true ->
    entries (lines_from acc rest)
    = entries [rev acc] ++ entries (lines_from [] (drop_space rest)).
Proof.
  induction rest as [|c tl IH]; intros acc Hrun; [discriminate|].
  simpl in Hrun. apply andb_prop in Hrun as [Hc Hrun].
  simpl. rewrite Hc. destruct (is_newline c) eqn:Hn.
  - rewrite entries_cons. f_equal. apply skip_lines. reflexivity.
  - simpl in Hrun. rewrite IH by exact Hrun. f_equal.
    unfold entries. simpl. rewrite trim_trail; [reflexivity|].
    simpl. rewrite Hc. reflexivity.
Qed.

Lemma trail_lines (t : jsstring) :
  forall acc trail, forallb is_space trail = true ->
    entries (lines_from acc (t ++ trail)) = entries (lines_from acc t).
Proof.
  induction t as [|c t IH]; intros acc trail Ht.
  - simpl. revert acc. induction trail as [|c trail IHt]; intros acc;
      [reflexivity|].
    simpl in Ht. apply andb_prop in Ht as [Hc Ht]. simpl.
    destruct (is_newline c).
    + rewrite entries_cons, (IHt Ht []). unfold entries at 2. simpl.
      apply app_nil_r.
    + rewrite (IHt Ht). unfold entries. simpl.
      rewrite trim_trail; [reflexivity|]. simpl. rewrite Hc. reflexivity.
  - simpl. destruct (is_newline c).
    + rewrite (entries_cons _ (lines_from [] (t ++ trail))).
      rewrite (entries_cons _ (lines_from [] t)). f_equal.
      apply IH. exact Ht.
    + apply IH. exact Ht.
Qed.

Lemma entries_trim (s : jsstring) :
  entries (lines (trim s)) = entries (lines s).
Proof.
  destruct (trim_split s) as [lead [trail [Hl [Ht Hs]]]].
  rewrite Hs at 2. unfold lines.
  rewrite (skip_lines (lead ++ trim s ++ trail) []) by reflexivity.
  rewrite drop_space_app, (drop_space_all lead) by exact Hl.
  destruct (trim s) as [|c t] eqn:Htrim.
  - simpl. rewrite (drop_space_all trail) by exact Ht. reflexivity.
  - rewrite drop_space_fix_app_r.
    + symmetry. apply trail_lines. exact Ht.
    + rewrite <- Htrim. apply trim_ends.
    + discriminate.
Qed.

Lemma split_loop_newline (fuel : nat) :
  forall rest acc,
    (length rest < fuel)%nat ->
    drop_space (rev acc) = rev acc ->
    (acc = [] -> drop_space rest = rest) ->
    drop_space (rev rest ++ acc) = rev rest ++ acc ->
    (drop_space acc = acc \/ newline_in_run rest = false) ->
    List.filter Boolean (split_loop fuel re_newline acc rest)
    = entries (lines_from acc rest).
Proof.
  induction fuel as [|fuel IH]; intros rest acc Hlen I1 I2 I3 I4; [lia|].
  destruct rest as [|c tl].
  - simpl in I3. unfold entries. simpl.
    rewrite trim_fix; [reflexivity | exact I1 |].
    rewrite rev_involutive. exact I3.
  - cbn [split_loop]. rewrite SplitMatcher_newline.
    destruct (newline_in_run (c :: tl)) eqn:Hrun.
    + destruct I4 as [I4|I4]; [|congruence].
      assert (Hc : is_space c = true)
        by (simpl in Hrun; apply andb_prop in Hrun as [Hc _]; exact Hc).
      pose proof (drop_space_length tl) as Hd.
      assert (Hdrop : drop_space (c :: tl) = drop_space tl)
        by (simpl; rewrite Hc; reflexivity).
      rewrite Hdrop in *.
      replace (length (drop_space tl) =? length (c :: tl))%nat with false
        by (symmetry; apply Nat.eqb_neq; simpl; lia).
      cbn [andb]. rewrite run_lines by exact Hrun. rewrite Hdrop.
      change (rev acc :: split_loop fuel re_newline [] (drop_space tl))
        with ([rev acc] ++ split_loop fuel re_newline [] (drop_space tl)).
      rewrite List.filter_app. f_equal.
      * unfold entries. simpl. rewrite trim_fix; [reflexivity | exact I1 |].
        rewrite rev_involutive. exact I4.
      * simpl in Hlen. apply IH; [lia | reflexivity | | | left; reflexivity].
        -- intros _. apply drop_space_idem.
        -- rewrite app_nil_r.
           destruct (drop_space_split (c :: tl)) as [lead [_ Hsplit]].
           rewrite Hdrop in Hsplit. rewrite Hsplit in I3.
           rewrite rev_app_distr, <- app_assoc in I3.
           exact (drop_space_fix_app_l _ _ I3).
    + pose proof (not_newline_run c tl Hrun) as Hn.
      cbn [lines_from]. rewrite Hn. simpl in Hlen.
      apply IH; [lia | | discriminate | |].
      * simpl. destruct acc as [|a acc'].
        -- apply drop_space_fix_cons.
           apply (proj1 (drop_space_fix_cons c tl)). auto.
        -- apply drop_space_fix_app_r; [exact I1|].
           simpl. destruct (rev acc'); discriminate.
      * simpl in I3. rewrite <- app_assoc in I3. exact I3.
      * destruct (is_space c) eqn:Hc.
        -- right. simpl in Hrun. rewrite Hc, Hn in Hrun. exact Hrun.
        -- left. apply drop_space_fix_cons. exact Hc.
Qed.

Lemma js_split_newline (s : jsstring) :
  List.filter Boolean (js_split re_newline (trim s)) = services_of s.
Proof.
  unfold services_of. fold (entries (lines s)). rewrite <- entries_trim.
  destruct (trim_ends s) as [H1 H2].
  destruct (trim s) as [|c t] eqn:Ht; [reflexivity|].
  unfold js_split, lines.
  apply split_loop_newline;
    [simpl; lia | reflexivity | auto | | left; reflexivity].
  rewrite app_nil_r. exact H2.
Qed.

(** C5. The literal string [true] gives [true] (enabled, no services); the
    empty string (an input that is not set) gives [false] (disabled); any
    other value gives an array, which is truthy (enabled), holding the
    lines of the value, each without the whitespace around it, the empty
    ones dropped. *)
Theorem supervisor_parsing (getInput : jsstring -> jsstring) :
  let input := getInput (js "supervisor") in
  (input = js "true" -> Index.supervisor getInput = SupBool true)
  /\ (input = [] -> Index.supervisor getInput = SupBool false)
  /\ (input <> js "true" -> input <> [] ->
      Index.supervisor getInput = SupArray (services_of input)).
Proof.
  intros input. unfold Index.supervisor, js_eq. fold input.
  split; [|split].
  - intros ->. reflexivity.
  - intros ->. reflexivity.
  - intros Ht He. rewrite bool_decide_eq_false_2 by exact Ht.
    destruct input as [|c i] eqn:Hi; [congruence|].
    cbn [Boolean negb]. f_equal. apply js_split_newline.
Qed.

Lemma supervisor_parsing_witness :
  Index.supervisor (fun _ => js "true") = SupBool true
  /\ Index.supervisor (fun _ => []) = SupBool false
  /\ Index.supervisor
       (fun _ => js "core/mysql " ++ [10; 10] ++ js "  emergence/nginx --bind=x")
     = SupArray [js "core/mysql"; js "emergence/nginx --bind=x"].
Proof.
  split; [|split].
  - apply (supervisor_parsing (fun _ => js "true")). reflexivity.
  - apply (supervisor_parsing (fun _ => [])). reflexivity.
  - apply (supervisor_parsing
             (fun _ => js "core/mysql " ++ [10; 10]
                         ++ js "  emergence/nginx --bind=x"));
      vm_compute; discriminate.
Defined.

(** ** Traces *)

Arguments js : simpl never.
Arguments dquote : simpl never.

(** ** Symbolic execution of a phase *)

Lemma strip_prefix_app (p s : jsstring) : strip_prefix p (p ++ s) = Some s.
Proof.
  induction p as [|a p IH]; [reflexivity|].
  simpl. rewrite N.eqb_refl. exact IH.
Qed.

Lemma rm_target_rm (p : jsstring) :
  rm_target (js "rm -v " ++ dquote ++ p ++ dquote) = Some p.
Proof.
  unfold rm_target. rewrite app_assoc, strip_prefix_app.
  rewrite rev_app_distr. simpl. rewrite rev_involutive. reflexivity.
Qed.

Lemma command_effect_rm (p : jsstring) (w : World) :
  command_effect (js "rm -v " ++ dquote ++ p ++ dquote) w
  = set_files (fun fs => fs ∖ {[ p ]}) w.
Proof. unfold command_effect. rewrite rm_target_rm. reflexivity. Qed.

Lemma command_effect_other (c : jsstring) (w : World) :
  rm_target c = None -> command_effect c w = w.
Proof. unfold command_effect. intros ->. reflexivity. Qed.

Ltac unfold_toolkit :=
  unfold try_catch, try_catch_finally, bind, ret, return_, existsSync,
    startGroup, endGroup, info, console_info, setFailed, writeFileSync,
    exec, rmRF, restoreCache, saveCache, exportVariable, which,
    process_env, say, call.

Ltac sym_step :=
  match goal with
  | |- context [command_effect (js "rm -v " ++ dquote ++ ?p ++ dquote) ?w] =>
      rewrite (command_effect_rm p w)
  | |- context [command_effect ?c ?w] =>
      rewrite (command_effect_other c w) by (vm_compute; reflexivity)
  | |- context [match ?r with Done _ => _ | Failed _ => _ end] =>
      lazymatch r with
      | Done _ => fail
      | Failed _ => fail
      | _ => destruct r eqn:?
      end
  | |- context [if bool_decide ?P then _ else _] =>
      destruct (bool_decide P) eqn:?
  end.

Ltac symex := unfold_toolkit; cbn; repeat (sym_step; cbn).

(** After [symex]: the log is the old log followed by the new events. *)
Ltac new_events := rewrite <- ?app_assoc; cbn; rewrite ?drop_app_length.

(** ** The teardown routine *)

(** C7. When the platform's cache-save call of the teardown routine fails,
    the routine did exactly this: it found no save marker, opened the log
    group, wrote the marker, called the cache service once (no second
    attempt), reported [Failed to save package cache: ] followed by the
    error, closed the group and returned. Nothing removes the marker: it
    exists when the routine is over. *)
Theorem save_failure_reported (o : Oracle) (w : World)
    (paths : list jsstring) (key err : jsstring) :
  In (ESaveCache paths key (Failed err)) (run_events (Post.run o) w) ->
  run_events (Post.run o) w
  = [EExistsSync Post.CACHE_LOCK_PATH false;
     EStartGroup (js "Saving package cache");
     EWriteFileSync Post.CACHE_LOCK_PATH [] (Done tt);
     ESaveCache [js "/hab/pkgs"] (js "hab-pkgs") (Failed err);
     ESetFailed (js "Failed to save package cache: " ++ err);
     EEndGroup]
  /\ (Post.run o w).1 = Return
  /\ Post.CACHE_LOCK_PATH ∈ files (Post.run o w).2
  /\ count is_saveCache (run_events (Post.run o) w) = 1%nat.
Proof.
  unfold run_events, Post.run. symex; new_events; cbn; intros Hin.
  all: repeat (destruct Hin as [Hin|Hin]; try discriminate Hin);
    try contradiction.
  injection Hin as <- <- <-. destruct a.
  repeat split; try reflexivity. set_solver.
Qed.

Lemma save_failure_reported_witness :
  (Post.run oracle_save_fails fresh).1 = Return
  /\ Post.CACHE_LOCK_PATH ∈ files (Post.run oracle_save_fails fresh).2.
Proof.
  refine (let H := save_failure_reported oracle_save_fails fresh
                     [js "/hab/pkgs"] (js "hab-pkgs")
                     (js "reserveCache failed") _ in
          conj (proj1 (proj2 H)) (proj1 (proj2 (proj2 H)))).
  vm_compute. right. right. right. left. reflexivity.
Defined.

(** ** Invariants of the world

    [inv I m]: the computation [m] keeps [I], however it completes. An
    invariant is given with the events and the changes of the file system
    it tolerates; the rules below then follow the structure of a
    routine. *)

Section Invariant.

Variable I : World -> Prop.
Variable okev : event -> Prop.
Variable okfs : (gset jsstring -> gset jsstring) -> Prop.
Hypothesis cl : closure I okev okfs.

Lemma inv_ret {A} (a : A) : inv I (ret a).
Proof. intros w Hw. exact Hw. Qed.

Lemma inv_return {A} : inv I (@return_ A).
Proof. intros w Hw. exact Hw. Qed.

Lemma inv_bind {A B} (m : M A) (k : A -> M B) :
  inv I m -> (forall a, inv I (k a)) -> inv I (bind m k).
Proof.
  intros Hm Hk w Hw. unfold bind. specialize (Hm w Hw).
  destruct (m w) as [[a|err|] w1]; simpl in *; auto. apply Hk, Hm.
Qed.

Lemma inv_try_catch_finally {A} (body : M A) (handler : jsstring -> M A)
    (fin : M unit) :
  inv I body -> (forall err, inv I (handler err)) -> inv I fin ->
  inv I (try_catch_finally body handler fin).
Proof.
  intros Hb Hh Hf w Hw. unfold try_catch_finally. specialize (Hb w Hw).
  destruct (body w) as [[a|err|] w1]; simpl in Hb.
  - specialize (Hf w1 Hb). destruct (fin w1) as [[?|?|] w3]; exact Hf.
  - specialize (Hh err w1 Hb). destruct (handler err w1) as [c1 w2].
    specialize (Hf w2 Hh). destruct (fin w2) as [[?|?|] w3]; exact Hf.
  - specialize (Hf w1 Hb). destruct (fin w1) as [[?|?|] w3]; exact Hf.
Qed.

Lemma inv_try_catch {A} (body : M A) (handler : jsstring -> M A) :
  inv I body -> (forall err, inv I (handler err)) ->
  inv I (try_catch body handler).
Proof.
  intros Hb Hh. apply inv_try_catch_finally; auto. apply inv_ret.
Qed.

Lemma inv_call_async {A} (body : M A) : inv I body -> inv I (call_async body).
Proof.
  intros Hb w Hw. unfold call_async. specialize (Hb w Hw).
  destruct (body w) as [[a|err|] w1]; exact Hb.
Qed.

Lemma inv_say (e : event) : okev e -> inv I (say e).
Proof. intros He w Hw. apply (cl_emit _ _ _ cl); assumption. Qed.

Lemma inv_call {A} (ask : World -> outcome A) (ev : outcome A -> event)
    (effect : A -> World -> World) :
  (forall r, okev (ev r)) -> (forall a, inv I (fun w => (Normal a, effect a w))) ->
  inv I (call ask ev effect).
Proof.
  intros He Hf w Hw. unfold call.
  pose proof (cl_emit _ _ _ cl (ev (ask w)) w (He _) Hw) as H1.
  destruct (ask w) as [a|err]; [apply (Hf a _ H1) | exact H1].
Qed.

Lemma inv_process_env : inv I process_env.
Proof. intros w Hw. exact Hw. Qed.

Lemma inv_info (msg : jsstring) : okev (EInfo msg) -> inv I (info msg).
Proof. apply inv_say. Qed.

Lemma inv_console_info (msg : jsstring) :
  okev (EConsoleInfo msg) -> inv I (console_info msg).
Proof. apply inv_say. Qed.

Lemma inv_startGroup (name : jsstring) :
  okev (EStartGroup name) -> inv I (startGroup name).
Proof. apply inv_say. Qed.

Lemma inv_endGroup : okev EEndGroup -> inv I endGroup.
Proof. apply inv_say. Qed.

Lemma inv_setFailed (msg : jsstring) :
  okev (ESetFailed msg) -> inv I (setFailed msg).
Proof. apply inv_say. Qed.

Lemma inv_existsSync (path : jsstring) :
  (forall b, okev (EExistsSync path b)) -> inv I (existsSync path).
Proof. intros He w Hw. apply (cl_emit _ _ _ cl); auto. Qed.

Lemma inv_exportVariable (o : Oracle) (name val : jsstring) :
  (forall r, okev (EExportVariable name val r)) ->
  inv I (exportVariable o name val).
Proof.
  intros He w Hw. unfold exportVariable.
  apply (inv_call (fun _ => exportVariable_res o w name val)
                  (EExportVariable name val) (fun _ w' => w') He).
  - intros a w' Hw'. exact Hw'.
  - apply (cl_env _ _ _ cl). exact Hw.
Qed.

Lemma inv_which (o : Oracle) (tool : jsstring) :
  (forall r, okev (EWhich tool r)) -> inv I (which o tool).
Proof. intros He. apply inv_call; [exact He|]. intros a w Hw. exact Hw. Qed.

Lemma inv_writeFileSync (o : Oracle) (path data : jsstring) :
  (forall r, okev (EWriteFileSync path data r)) ->
  okfs (fun fs => fs ∪ {[ path ]}) ->
  inv I (writeFileSync o path data).
Proof.
  intros He Hf. apply inv_call; [exact He|].
  intros a w Hw. apply (cl_files _ _ _ cl); assumption.
Qed.

Lemma inv_exec (o : Oracle) (commandLine : jsstring) (args : list jsstring)
    (options : exec_options) :
  (forall r, okev (EExec commandLine args options r)) ->
  match rm_target commandLine with
  | Some p => okfs (fun fs => fs ∖ {[ p ]})
  | None => True
  end ->
  inv I (exec o commandLine args options).
Proof.
  intros He Hf. apply inv_call; [exact He|].
  intros a w Hw. unfold command_effect.
  destruct (rm_target commandLine); [|exact Hw].
  apply (cl_files _ _ _ cl); assumption.
Qed.

Lemma inv_rmRF (o : Oracle) (path : jsstring) :
  (forall r, okev (ERmRF path r)) ->
  okfs (fun fs => fs ∖ {[ path ]}) ->
  inv I (rmRF o path).
Proof.
  intros He Hf. apply inv_call; [exact He|].
  intros a w Hw. apply (cl_files _ _ _ cl); assumption.
Qed.

Lemma inv_restoreCache (o : Oracle) (paths : list jsstring)
    (key : jsstring) :
  (forall r, okev (ERestoreCache paths key r)) ->
  (forall unpacked, okfs (fun fs => fs ∪ unpacked)) ->
  inv I (restoreCache o paths key).
Proof.
  intros He Hf w Hw. unfold restoreCache.
  apply (inv_call (fun _ => (restoreCache_res o w paths key).1)
                  (ERestoreCache paths key) (fun _ w' => w') He).
  - intros a w' Hw'. exact Hw'.
  - apply (cl_files _ _ _ cl); [apply Hf | exact Hw].
Qed.

Lemma inv_saveCache (o : Oracle) (paths : list jsstring) (key : jsstring) :
  (forall r, okev (ESaveCache paths key r)) ->
  inv I (saveCache o paths key).
Proof. intros He. apply inv_call; [exact He|]. intros a w Hw. exact Hw. Qed.

Lemma inv_load_services (o : Oracle)
    (habEnv : gmap jsstring jsstring) (services : list jsstring) :
  (forall svc, inv I (Index.load_service o habEnv svc)) ->
  inv I (Index.load_services o habEnv services).
Proof.
  intros Hs. induction services as [|svc rest IH]; simpl.
  - apply inv_ret.
  - apply inv_bind; [apply Hs | intros _; exact IH].
Qed.

End Invariant.

(** The rules, applied along the structure of a routine; what is left are
    the events and the changes of the file system to be tolerated. *)
Ltac unfold_phases :=
  unfold Index.main, Post.main, Index.run, Post.run, Index.install,
    Index.after_install, Index.install_bio, Index.create_hab_user,
    Index.verify_installation, Index.link_cache,
    Index.update_cache_ownership, Index.install_deps,
    Index.setup_supervisor, Index.start_supervisor, Index.load_service,
    Index.enable_sudoless.

Ltac inv_step cl :=
  match goal with
  | |- inv _ (bind _ _) => apply inv_bind; [|intros ?]
  | |- inv _ (try_catch_finally _ _ _) =>
      apply inv_try_catch_finally; [|intros ?|]
  | |- inv _ (try_catch _ _) => apply inv_try_catch; [|intros ?]
  | |- inv _ (call_async _) => apply inv_call_async
  | |- inv _ (ret _) => apply inv_ret
  | |- inv _ return_ => apply inv_return
  | |- inv _ process_env => apply inv_process_env
  | |- inv _ (info _) => apply (inv_info _ _ _ cl)
  | |- inv _ (console_info _) => apply (inv_console_info _ _ _ cl)
  | |- inv _ (startGroup _) => apply (inv_startGroup _ _ _ cl)
  | |- inv _ endGroup => apply (inv_endGroup _ _ _ cl)
  | |- inv _ (setFailed _) => apply (inv_setFailed _ _ _ cl)
  | |- inv _ (existsSync _) => apply (inv_existsSync _ _ _ cl); intros ?
  | |- inv _ (exportVariable _ _ _) =>
      apply (inv_exportVariable _ _ _ cl); intros ?
  | |- inv _ (which _ _) => apply (inv_which _ _ _ cl); intros ?
  | |- inv _ (writeFileSync _ _ _) =>
      apply (inv_writeFileSync _ _ _ cl); [intros ?|]
  | |- inv _ (exec _ _ _ _) => apply (inv_exec _ _ _ cl); [intros ?|]
  | |- inv _ (rmRF _ _) => apply (inv_rmRF _ _ _ cl); [intros ?|]
  | |- inv _ (restoreCache _ _ _) =>
      apply (inv_restoreCache _ _ _ cl); [intros ?|intros ?]
  | |- inv _ (saveCache _ _ _) => apply (inv_saveCache _ _ _ cl); intros ?
  | |- inv _ (Index.restore_cache _ _ _) => unfold Index.restore_cache
  | |- inv _ (Index.load_services _ _ _) =>
      apply inv_load_services; intros ?; unfold Index.load_service
  | |- inv _ (if ?b then _ else _) => destruct b
  | |- inv _ (match ?x with SupBool _ => _ | SupArray _ => _ end) =>
      destruct x as [[|]|?]
  end.

Ltac inv_structure cl := unfold_phases; repeat (inv_step cl).

(** The same, with a phase that is dealt with as a whole by [leaf]. *)
Ltac inv_structure_but leaf cl :=
  unfold_phases; repeat (first [leaf | inv_step cl]).

(** ** The save marker and the setup routine *)

Lemma keeps_union (p : jsstring) (u : gset jsstring) :
  keeps p (fun fs => fs ∪ u).
Proof. intros fs H. set_solver. Qed.

Lemma keeps_remove (p q : jsstring) :
  q <> p -> keeps p (fun fs => fs ∖ {[ q ]}).
Proof. intros Hp fs H. set_solver. Qed.

Ltac keeps_leaf :=
  first
    [ exact Logic.I
    | reflexivity
    | apply keeps_union
    | apply keeps_remove; vm_compute; discriminate
    | rewrite rm_target_rm; apply keeps_remove; vm_compute; discriminate
    | vm_compute; exact Logic.I ].

(** Whether the save marker of the teardown routine exists is kept by
    every event, and by every change of the file system that keeps it. *)
Lemma save_marker_closure :
  closure (fun w => Post.CACHE_LOCK_PATH ∈ files w) (fun _ => True)
          (keeps Post.CACHE_LOCK_PATH).
Proof.
  split; [intros e w _ H | intros f w Hf H | intros f w H];
    [exact H | exact (Hf _ H) | exact H].
Qed.

Lemma setup_keeps_save_marker (getInput : jsstring -> jsstring)
    (env0 : gmap jsstring jsstring) (o : Oracle) :
  inv (fun w => Post.CACHE_LOCK_PATH ∈ files w) (Index.run getInput env0 o).
Proof. inv_structure save_marker_closure; keeps_leaf. Qed.

Lemma run_events_emit2 {A} (m : M A) (w : World) (e1 e2 : event) :
  (m w).2 = emit e2 (emit e1 w) -> run_events m w = [e1; e2].
Proof.
  intros H. unfold run_events. rewrite H. cbn.
  rewrite <- app_assoc. apply drop_app_length.
Qed.

Lemma post_run_skips (o : Oracle) (w : World) :
  Post.CACHE_LOCK_PATH ∈ files w ->
  Post.run o w
  = (Normal tt,
     emit (EInfo (js "Skipping caching, " ++ Post.CACHE_LOCK_PATH
                    ++ js " already exists"))
          (emit (EExistsSync Post.CACHE_LOCK_PATH true) w)).
Proof.
  intros H. unfold Post.run, bind, existsSync, info, say.
  rewrite (bool_decide_eq_true_2 _ H). reflexivity.
Qed.

(** C1 (the code does otherwise). The marker the restore phase looks for
    and removes is [/hab/cache/artifacts/.cached]; the marker the teardown
    routine tests and writes is [/hab/pkgs/.cached]. So a save marker left
    over when the setup routine starts is still there when it is over,
    whatever the calls answer, and the teardown routine that follows skips
    the save: it tests the marker, logs that it skips, and calls nothing
    else. *)
Theorem stale_save_marker_survives_setup (getInput : jsstring -> jsstring)
    (env0 : gmap jsstring jsstring) (o o' : Oracle) (w : World) :
  Post.CACHE_LOCK_PATH ∈ files w ->
  let w' := (Index.run getInput env0 o w).2 in
  Index.CACHE_LOCK_PATH <> Post.CACHE_LOCK_PATH
  /\ Post.CACHE_LOCK_PATH ∈ files w'
  /\ run_events (Post.run o') w'
     = [EExistsSync Post.CACHE_LOCK_PATH true;
        EInfo (js "Skipping caching, " ++ Post.CACHE_LOCK_PATH
                 ++ js " already exists")]
  /\ count is_saveCache (run_events (Post.run o') w') = 0%nat.
Proof.
  intros Hw w'.
  assert (Hw' : Post.CACHE_LOCK_PATH ∈ files w')
    by exact (setup_keeps_save_marker getInput env0 o w Hw).
  assert (Hev : run_events (Post.run o') w'
                = [EExistsSync Post.CACHE_LOCK_PATH true;
                   EInfo (js "Skipping caching, " ++ Post.CACHE_LOCK_PATH
                            ++ js " already exists")]).
  { apply run_events_emit2. rewrite post_run_skips by exact Hw'.
    reflexivity. }
  split; [vm_compute; discriminate|].
  split; [exact Hw'|]. split; [exact Hev|]. rewrite Hev. reflexivity.
Qed.

Lemma stale_save_marker_survives_setup_witness :
  Post.CACHE_LOCK_PATH
    ∈ files (Index.run (fun _ => []) ∅ (oracle_ok true) stale).2
  /\ count is_saveCache
       (run_events (Post.run (oracle_ok true))
          (Index.run (fun _ => []) ∅ (oracle_ok true) stale).2) = 0%nat.
Proof.
  refine (let H := stale_save_marker_survives_setup
                     (fun _ => []) ∅ (oracle_ok true) (oracle_ok true)
                     stale _ in
          conj (proj1 (proj2 H)) (proj2 (proj2 (proj2 H)))).
  vm_compute. reflexivity.
Defined.

(** The restore phase did run on that runner, and found nothing to
    erase: the marker it tests is not the one that is there. *)
Example stale_setup_trace :
  List.filter
    (fun e => match e with
              | EExistsSync _ _ | ERestoreCache _ _ _ => true
              | _ => false
              end)
    (run_events (Index.run (fun _ => []) ∅ (oracle_ok true)) stale)
  = [EExistsSync Index.RESTORE_LOCK_PATH false;
     ERestoreCache [js "/hab/cache/artifacts"]
                   (js "hab-artifacts-cache:undefined") (Done None);
     EExistsSync Index.CACHE_LOCK_PATH false].
Proof. vm_compute. reflexivity. Qed.

(** ** Properties of the events added since a point of the log *)

Lemma since_forall_closure (n : nat) (P : event -> Prop) :
  closure (since n (Forall P)) P (fun _ => True).
Proof.
  split; [intros e w He [Hn HT] | intros f w _ H | intros f w H];
    [|exact H | exact H].
  split; cbn; [rewrite length_app; lia|].
  rewrite drop_app_le by exact Hn. apply Forall_app. split; [exact HT|].
  constructor; [exact He | constructor].
Qed.

Lemma since_start (w w' : World) (T : list event -> Prop)
    (evs : list event) :
  log w' = log w ++ evs -> T evs -> since (length (log w)) T w'.
Proof.
  intros Hlog HT. split; rewrite Hlog.
  - rewrite length_app. lia.
  - rewrite drop_app_length. exact HT.
Qed.

(** ** The installation is skipped when [bio] is found *)

Arguments Index.install : simpl never.
Arguments Index.after_install : simpl never.

Lemma after_install_no_install_event (getInput : jsstring -> jsstring)
    (env0 : gmap jsstring jsstring) (o : Oracle)
    (habEnv : gmap jsstring jsstring) (n : nat) :
  inv (since n (Forall (fun e => is_install_event e = false)))
      (Index.after_install getInput env0 o habEnv).
Proof.
  inv_structure
    (since_forall_closure n (fun e => is_install_event e = false));
    first [exact Logic.I | vm_compute; reflexivity
          | rewrite rm_target_rm; exact Logic.I].
Qed.

Lemma setup_finds_no_tool_later (getInput : jsstring -> jsstring)
    (env0 : gmap jsstring jsstring) (o : Oracle)
    (habEnv : gmap jsstring jsstring) (n : nat) :
  inv (since n (Forall (fun e => found_tool e = false)))
      (bind (Index.install o) (fun _ =>
             Index.after_install getInput env0 o habEnv)).
Proof.
  inv_structure (since_forall_closure n (fun e => found_tool e = false));
    first [exact Logic.I | reflexivity | vm_compute; exact Logic.I
          | rewrite rm_target_rm; exact Logic.I].
Qed.

(** ** One step of a routine *)

Lemma bind_exportVariable {B} (o : Oracle) (name val : jsstring) (k : unit -> M B) (w : World) :
  bind (exportVariable o name val) k w
  = let w0 := set_env (fun e => <[ name := val ]> e) w in
    match exportVariable_res o w name val with
    | Done a => k a (emit (EExportVariable name val (Done a)) w0)
    | Failed err => (Throw err, emit (EExportVariable name val (Failed err)) w0)
    end.
Proof.
  unfold bind, exportVariable, call. cbn.
  destruct (exportVariable_res o w name val); reflexivity.
Qed.

Lemma bind_which {B} (o : Oracle) (tool : jsstring) (k : jsstring -> M B) (w : World) :
  bind (which o tool) k w
  = match which_res o w tool with
    | Done a => k a (emit (EWhich tool (Done a)) w)
    | Failed err => (Throw err, emit (EWhich tool (Failed err)) w)
    end.
Proof.
  unfold bind, which, call. cbn. destruct (which_res o w tool); reflexivity.
Qed.

Lemma bind_say {B} (e : event) (k : unit -> M B) (w : World) :
  bind (say e) k w = k tt (emit e w).
Proof. reflexivity. Qed.

Lemma bind_process_env {B} (k : gmap jsstring jsstring -> M B) (w : World) :
  bind process_env k w = k (env w) w.
Proof. reflexivity. Qed.

(** C8. When the lookup of [bio] on the search path, at the start of the
    setup routine, finds it, the routine adds no event of the installation
    to the log: it runs none of the commands that download, unpack and move
    the binary, create the group and the user, check the version and link
    the cache directory, removes none of the files of the installation,
    opens none of its log groups and reports none of its failures. *)
Theorem bio_found_skips_installation (getInput : jsstring -> jsstring)
    (env0 : gmap jsstring jsstring) (o : Oracle) (w : World)
    (p : jsstring) :
  In (EWhich (js "bio") (Done p))
     (run_events (Index.run getInput env0 o) w) ->
  Boolean p = true ->
  Forall (fun e => is_install_event e = false)
         (run_events (Index.run getInput env0 o) w).
Proof.
  unfold run_events, Index.run.
  rewrite bind_exportVariable. cbv zeta.
  destruct (exportVariable_res _ _ _ _) as [[]|err1].
  2:{ cbn. rewrite drop_app_length. intros [H|[]]. discriminate. }
  rewrite bind_exportVariable. cbv zeta.
  destruct (exportVariable_res _ _ _ _) as [[]|err2].
  2:{ cbn. rewrite <- app_assoc, drop_app_length. cbn. intros [H|[H|[]]]; discriminate. }
  rewrite bind_exportVariable. cbv zeta.
  destruct (exportVariable_res _ _ _ _) as [[]|err3].
  2:{ cbn. rewrite <- !app_assoc, drop_app_length. cbn. intros [H|[H|[H|[]]]]; discriminate. }
  rewrite bind_process_env. cbv zeta. rewrite bind_which.
  destruct (which_res _ _ _) as [bio|err4].
  2:{ cbn. rewrite <- !app_assoc, drop_app_length. cbn. intros [H|[H|[H|[H|[]]]]]; discriminate. }
  match goal with |- context [emit (EWhich ?t ?r) ?w0] => set (w4 := emit (EWhich t r) w0) end.
  assert (Hlog : log w4 = log w ++ [EExportVariable (js "HAB_NONINTERACTIVE") (js "true") (Done tt);
     EExportVariable (js "HAB_BLDR_URL") (js "https://bldr.biome.sh") (Done tt);
     EExportVariable (js "STUDIO_TYPE") (js "default") (Done tt);
     EWhich (js "bio") (Done bio)]).
  { subst w4. cbn. rewrite <- !app_assoc. reflexivity. }
  clearbody w4.
  destruct (Boolean bio) eqn:Hbio.
  - intros _ _. unfold info. rewrite bind_say.
    apply after_install_no_install_event.
    eapply since_start; [cbn; rewrite Hlog, <- app_assoc; reflexivity|].
    repeat constructor.
  - intros Hin Hp.
    match type of Hin with context [Index.after_install _ _ _ ?h] =>
      pose proof (setup_finds_no_tool_later getInput env0 o h
                    (length (log w)) w4) as Hinv
    end.
    destruct Hinv as [_ Hall].
    { eapply since_start; [exact Hlog|]. repeat constructor. exact Hbio. }
    rewrite List.Forall_forall in Hall. specialize (Hall _ Hin). cbn in Hall. congruence.
Qed.

Lemma bio_found_skips_installation_witness :
  Forall (fun e => is_install_event e = false)
         (run_events (Index.run (fun _ => []) ∅ (oracle_ok true)) fresh).
Proof.
  apply (bio_found_skips_installation (fun _ => []) ∅ (oracle_ok true)
           fresh (js "/usr/bin/bio")).
  - vm_compute. right. right. right. left. reflexivity.
  - reflexivity.
Defined.

(** When [bio] is not found, the installation does run. *)
Example bio_missing_installs :
  existsb is_install_event
    (run_events (Index.run (fun _ => []) ∅ (oracle_ok false)) fresh) = true.
Proof. vm_compute. reflexivity. Qed.

(** ** The cache operations happen at most once *)

Lemma count_app (p : event -> bool) (l1 l2 : list event) :
  count p (l1 ++ l2) = (count p l1 + count p l2)%nat.
Proof. unfold count. rewrite List.filter_app, length_app. reflexivity. Qed.

Lemma at_most_once_closure (p : event -> bool) (marker : jsstring)
    (n : nat) :
  closure (at_most_once p marker n) (fun e => p e = false) (keeps marker).
Proof.
  split.
  - intros e w He [Hn H]. split; cbn; [rewrite length_app; lia|].
    rewrite drop_app_le by exact Hn. rewrite count_app.
    unfold count at 2 4. cbn. rewrite He. cbn. rewrite !Nat.add_0_r.
    exact H.
  - intros f w Hf [Hn H]. split; [exact Hn|].
    destruct H as [H|[H Hm]]; [left; exact H | right; split; [exact H|]].
    apply Hf, Hm.
  - intros f w H. exact H.
Qed.

Lemma at_most_once_events (p : event -> bool) (marker : jsstring) (n : nat)
    (w w' : World) (evs : list event) :
  log w' = log w ++ evs ->
  at_most_once p marker n w ->
  (count p evs = 0%nat /\ (marker ∈ files w -> marker ∈ files w'))
  \/ ((marker ∉ files w) /\ count p evs = 1%nat /\ marker ∈ files w') ->
  at_most_once p marker n w'.
Proof.
  intros Hlog [Hn H] Hevs. split; rewrite Hlog; [rewrite length_app; lia|].
  rewrite drop_app_le by exact Hn. rewrite count_app.
  destruct Hevs as [[H0 Hm]|[Hm [H1 Hm']]].
  - rewrite H0, Nat.add_0_r.
    destruct H as [H|[H Hmw]]; [left; exact H | right; auto].
  - destruct H as [H|[H Hmw]]; [|contradiction].
    right. rewrite H, H1. auto.
Qed.

Ltac at_most_once_cases H Hb :=
  (eapply at_most_once_events;
   [cbn; rewrite <- ?app_assoc; cbn; reflexivity | exact H | ]);
  try apply bool_decide_eq_false in Hb;
  first [ left; split; [reflexivity | cbn; set_solver]
        | right; split;
          [exact Hb | split; [reflexivity | cbn; set_solver]] ].

Lemma restore_at_most_once (getInput : jsstring -> jsstring)
    (env0 : gmap jsstring jsstring) (o : Oracle) (n : nat) :
  inv (at_most_once is_restoreCache Index.RESTORE_LOCK_PATH n)
      (Index.restore_cache getInput env0 o).
Proof.
  intros w H. unfold Index.restore_cache. symex;
    match goal with Hb : bool_decide (Index.RESTORE_LOCK_PATH ∈ _) = _ |- _ =>
      at_most_once_cases H Hb
    end.
Qed.

Lemma save_at_most_once (o : Oracle) (n : nat) :
  inv (at_most_once is_saveCache Post.CACHE_LOCK_PATH n) (Post.run o).
Proof.
  intros w H. unfold Post.run. symex;
    match goal with Hb : bool_decide (Post.CACHE_LOCK_PATH ∈ _) = _ |- _ =>
      at_most_once_cases H Hb
    end.
Qed.

Lemma setup_restores_at_most_once (getInput : jsstring -> jsstring)
    (env0 : gmap jsstring jsstring) (o : Oracle) (n : nat) :
  inv (at_most_once is_restoreCache Index.RESTORE_LOCK_PATH n)
      (Index.run getInput env0 o).
Proof.
  inv_structure_but
    ltac:(apply restore_at_most_once)
    (at_most_once_closure is_restoreCache Index.RESTORE_LOCK_PATH n);
    keeps_leaf.
Qed.

Lemma at_most_once_start (p : event -> bool) (marker : jsstring)
    (w : World) :
  at_most_once p marker (length (log w)) w.
Proof.
  split; [lia|]. left. rewrite drop_all. reflexivity.
Qed.

Lemma restore_cache_skips (getInput : jsstring -> jsstring)
    (env0 : gmap jsstring jsstring) (o : Oracle) (w : World) :
  Index.RESTORE_LOCK_PATH ∈ files w ->
  Index.restore_cache getInput env0 o w
  = (Normal tt,
     emit (EInfo (js "Skipping restoring, " ++ Index.RESTORE_LOCK_PATH
                    ++ js " already exists"))
          (emit (EExistsSync Index.RESTORE_LOCK_PATH true) w)).
Proof.
  intros H. unfold Index.restore_cache, bind, existsSync, info, say.
  rewrite (bool_decide_eq_true_2 _ H). reflexivity.
Qed.

(** C2. Run twice in a row, whatever the calls answer each time, the
    setup routine calls the platform's cache-restore operation at most
    once, and so does its restore phase alone; the teardown routine calls
    the cache-save operation at most once. A restore phase that finds the
    restore marker only tests it and logs that it skips, and the restore
    marker exists after a phase that called the operation; the same holds
    of the teardown routine and the save marker. *)
Theorem cache_operations_at_most_once (getInput : jsstring -> jsstring)
    (env0 : gmap jsstring jsstring) (o1 o2 : Oracle) (w : World) :
  let setup o := Index.run getInput env0 o in
  let restore o := Index.restore_cache getInput env0 o in
  (count is_restoreCache
     (drop (length (log w)) (log (setup o2 (setup o1 w).2).2)) <= 1)%nat
  /\ (count is_restoreCache
        (drop (length (log w)) (log (restore o2 (restore o1 w).2).2))
      <= 1)%nat
  /\ (count is_saveCache
        (drop (length (log w)) (log (Post.run o2 (Post.run o1 w).2).2))
      <= 1)%nat
  /\ (count is_restoreCache (run_events (restore o1) w) = 1%nat ->
      Index.RESTORE_LOCK_PATH ∈ files (restore o1 w).2)
  /\ (Index.RESTORE_LOCK_PATH ∈ files w ->
      run_events (restore o2) w
      = [EExistsSync Index.RESTORE_LOCK_PATH true;
         EInfo (js "Skipping restoring, " ++ Index.RESTORE_LOCK_PATH
                  ++ js " already exists")])
  /\ (count is_saveCache (run_events (Post.run o1) w) = 1%nat ->
      Post.CACHE_LOCK_PATH ∈ files (Post.run o1 w).2)
  /\ (Post.CACHE_LOCK_PATH ∈ files w ->
      run_events (Post.run o2) w
      = [EExistsSync Post.CACHE_LOCK_PATH true;
         EInfo (js "Skipping caching, " ++ Post.CACHE_LOCK_PATH
                  ++ js " already exists")]).
Proof.
  intros setup restore.
  assert (Hle : forall p marker v,
             at_most_once p marker (length (log w)) v ->
             (count p (drop (length (log w)) (log v)) <= 1)%nat).
  { intros p marker v [_ [H|[H _]]]; rewrite H; lia. }
  assert (Hin : forall p marker v,
             at_most_once p marker (length (log w)) v ->
             count p (drop (length (log w)) (log v)) = 1%nat ->
             marker ∈ files v).
  { intros p marker v [_ [H|[_ H]]] H1; [rewrite H in H1; lia | exact H]. }
  pose proof (at_most_once_start is_restoreCache Index.RESTORE_LOCK_PATH w)
    as Hr.
  pose proof (at_most_once_start is_saveCache Post.CACHE_LOCK_PATH w) as Hs.
  repeat split.
  - apply (Hle _ Index.RESTORE_LOCK_PATH).
    repeat apply setup_restores_at_most_once. exact Hr.
  - apply (Hle _ Index.RESTORE_LOCK_PATH).
    repeat apply restore_at_most_once. exact Hr.
  - apply (Hle _ Post.CACHE_LOCK_PATH).
    repeat apply save_at_most_once. exact Hs.
  - apply (Hin is_restoreCache). apply restore_at_most_once. exact Hr.
  - intros H. apply run_events_emit2. unfold restore.
    rewrite restore_cache_skips by exact H. reflexivity.
  - apply (Hin is_saveCache). apply save_at_most_once. exact Hs.
  - intros H. apply run_events_emit2.
    rewrite post_run_skips by exact H. reflexivity.
Qed.

Lemma cache_operations_at_most_once_witness :
  Index.RESTORE_LOCK_PATH
    ∈ files (Index.restore_cache (fun _ => []) ∅ (oracle_ok true) fresh).2
  /\ run_events (Index.restore_cache (fun _ => []) ∅ (oracle_ok true))
                restored
     = [EExistsSync Index.RESTORE_LOCK_PATH true;
        EInfo (js "Skipping restoring, " ++ Index.RESTORE_LOCK_PATH
                 ++ js " already exists")]
  /\ Post.CACHE_LOCK_PATH ∈ files (Post.run (oracle_ok true) fresh).2
  /\ run_events (Post.run (oracle_ok true)) stale
     = [EExistsSync Post.CACHE_LOCK_PATH true;
        EInfo (js "Skipping caching, " ++ Post.CACHE_LOCK_PATH
                 ++ js " already exists")].
Proof.
  pose proof (cache_operations_at_most_once (fun _ => []) ∅ (oracle_ok true)
                (oracle_ok true) fresh) as Hf.
  pose proof (cache_operations_at_most_once (fun _ => []) ∅ (oracle_ok true)
                (oracle_ok true) restored) as Hr.
  pose proof (cache_operations_at_most_once (fun _ => []) ∅ (oracle_ok true)
                (oracle_ok true) stale) as Hs.
  cbv zeta in Hf, Hr, Hs.
  destruct Hf as (_ & _ & _ & Hf4 & _ & Hf6 & _).
  destruct Hr as (_ & _ & _ & _ & Hr5 & _).
  destruct Hs as (_ & _ & _ & _ & _ & _ & Hs7).
  split; [apply Hf4; vm_compute; reflexivity|].
  split; [apply Hr5; vm_compute; reflexivity|].
  split; [apply Hf6; vm_compute; reflexivity|].
  apply Hs7. vm_compute. reflexivity.
Defined.

(** ** What stands around a call in the trace *)

Lemma around_nil R P1 P2 : around R P1 P2 [].
Proof. intros pre e post H. destruct pre; discriminate H. Qed.

Lemma around_cons R P1 P2 (x : event) (l : list event) :
  (R x = true -> P1 [] /\ P2 x l) ->
  around R (fun pre => P1 (x :: pre)) P2 l ->
  around R P1 P2 (x :: l).
Proof.
  intros Hx Hl [|y pre] e post Heq HR; simpl in Heq.
  - injection Heq as <- <-. auto.
  - injection Heq as <- ->. exact (Hl pre e post eq_refl HR).
Qed.

Section Around.

Variable R : event -> bool.
Variable P1 : list event -> Prop.
Variable P2 : event -> list event -> Prop.
Hypothesis P1_mono : forall a pre, P1 pre -> P1 (a ++ pre).
Hypothesis P2_mono : forall e post b, P2 e post -> P2 e (post ++ b).

Lemma around_app (a b : list event) :
  around R P1 P2 a -> around R P1 P2 b -> around R P1 P2 (a ++ b).
Proof.
  intros Ha Hb pre e post Heq HR.
  apply app_eq_app in Heq as [l [[-> Hl]|[-> Hl]]].
  - destruct l as [|x l]; simpl in Hl.
    + destruct (Hb [] e post (eq_sym Hl) HR) as [H1 H2].
      split; [|exact H2].
      rewrite <- (app_nil_r pre). apply P1_mono. exact H1.
    + injection Hl as <- ->.
      destruct (Ha pre e l eq_refl HR) as [H1 H2].
      split; [exact H1 | apply P2_mono; exact H2].
  - destruct (Hb l e post Hl HR) as [H1 H2].
    split; [apply P1_mono; exact H1 | exact H2].
Qed.

Lemma around_closure (n : nat) :
  closure (since n (around R P1 P2)) (fun e => R e = false)
          (fun _ => True).
Proof.
  split; [intros e w He [Hn HT] | intros f w _ H | intros f w H];
    [|exact H | exact H].
  split; cbn; [rewrite length_app; lia|].
  rewrite drop_app_le by exact Hn. apply around_app; [exact HT|].
  apply around_cons; [congruence | apply around_nil].
Qed.

Lemma around_phase {A} (m : M A) (n : nat) :
  (forall w, exists evs,
      log (m w).2 = log w ++ evs /\ around R P1 P2 evs) ->
  inv (since n (around R P1 P2)) m.
Proof.
  intros Hm w [Hn HT]. destruct (Hm w) as [evs [Hlog Hevs]].
  split; rewrite Hlog; [rewrite length_app; lia|].
  rewrite drop_app_le by exact Hn. apply around_app; assumption.
Qed.

End Around.

(** ** The markers are written before the cache operations *)

Lemma restore_marker_written_mono (a pre : list event) :
  restore_marker_written pre -> restore_marker_written (a ++ pre).
Proof.
  intros (msg & rest & H). exists msg, (rest ++ rev a).
  rewrite rev_app_distr, H. reflexivity.
Qed.

Lemma restore_marker_rewritten_mono (e : event) (post b : list event) :
  restore_marker_rewritten e post -> restore_marker_rewritten e (post ++ b).
Proof.
  destruct e; try exact (fun H => H). destruct res; [|exact (fun H => H)].
  intros (m1 & m2 & r & post' & ->). exists m1, m2, r, (post' ++ b).
  reflexivity.
Qed.

Ltac around_concrete :=
  repeat (apply around_cons;
          [ let HR := fresh in
            intros HR; try discriminate HR; split;
            unfold restore_marker_written, restore_marker_rewritten,
              save_marker_written; cbn;
            repeat match goal with u : unit |- _ => destruct u end;
            eauto 8
          |]);
  apply around_nil.

Lemma restore_phase_order (getInput : jsstring -> jsstring)
    (env0 : gmap jsstring jsstring) (o : Oracle) (w : World) :
  exists evs,
    log (Index.restore_cache getInput env0 o w).2 = log w ++ evs
    /\ around is_restoreCache restore_marker_written
              restore_marker_rewritten evs.
Proof.
  unfold Index.restore_cache. symex;
    (eexists; split;
     [cbn; rewrite <- ?app_assoc; cbn; reflexivity | around_concrete]).
Qed.

Lemma setup_restore_order (getInput : jsstring -> jsstring)
    (env0 : gmap jsstring jsstring) (o : Oracle) (n : nat) :
  inv (since n (around is_restoreCache restore_marker_written
                       restore_marker_rewritten))
      (Index.run getInput env0 o).
Proof.
  inv_structure_but
    ltac:(apply (around_phase _ _ _ restore_marker_written_mono
                   restore_marker_rewritten_mono);
          apply restore_phase_order)
    (around_closure is_restoreCache _ _ restore_marker_written_mono
       restore_marker_rewritten_mono n);
    keeps_leaf.
Qed.

Lemma teardown_save_order (o : Oracle) (w : World) :
  around is_saveCache save_marker_written (fun _ _ => True)
         (run_events (Post.run o) w).
Proof.
  unfold run_events, Post.run. symex; new_events; around_concrete.
Qed.

Lemma rev_eq_cons {A} (l rest : list A) (x : A) :
  rev l = x :: rest -> l = rev rest ++ [x].
Proof.
  intros H. rewrite <- (rev_involutive l), H. reflexivity.
Qed.

(** C6. Wherever the setup routine calls the platform's cache-restore
    operation, the two events before the call are the writing of the
    restore marker, which succeeded, and the line that announces the call;
    and when the call completes, the events after it are two log lines and
    the writing of the restore marker again. Wherever the teardown routine
    calls the cache-save operation, the event before the call is the
    writing of the save marker, which succeeded. *)
Theorem markers_written_before_cache_calls
    (getInput : jsstring -> jsstring) (env0 : gmap jsstring jsstring)
    (o : Oracle) (w : World) :
  (forall pre paths key res post,
      run_events (Index.run getInput env0 o) w
      = pre ++ ERestoreCache paths key res :: post ->
      (exists pre' msg,
          pre = pre' ++ [EWriteFileSync Index.RESTORE_LOCK_PATH [] (Done tt);
                         EConsoleInfo msg])
      /\ (forall hit, res = Done hit ->
          exists m1 m2 r post',
            post = EInfo m1 :: EInfo m2
                   :: EWriteFileSync Index.RESTORE_LOCK_PATH [] r :: post'))
  /\ (forall pre paths key res post,
      run_events (Post.run o) w = pre ++ ESaveCache paths key res :: post ->
      exists pre',
        pre = pre' ++ [EWriteFileSync Post.CACHE_LOCK_PATH [] (Done tt)]).
Proof.
  split.
  - intros pre paths key res post Heq.
    assert (Hstart : since (length (log w))
                       (around is_restoreCache restore_marker_written
                               restore_marker_rewritten) w).
    { split; [lia|]. rewrite drop_all. apply around_nil. }
    destruct (setup_restore_order getInput env0 o _ w Hstart) as [_ Har].
    destruct (Har pre _ post Heq eq_refl) as [(msg & rest & H1) H2].
    split.
    + exists (rev rest), msg. apply rev_eq_cons in H1. rewrite H1.
      cbn. rewrite <- app_assoc. reflexivity.
    + intros hit ->. exact H2.
  - intros pre paths key res post Heq.
    destruct (teardown_save_order o w pre _ post Heq eq_refl)
      as [[rest H1] _].
    exists (rev rest). apply rev_eq_cons. exact H1.
Qed.

Lemma markers_written_before_cache_calls_witness :
  let setup := run_events (Index.run (fun _ => []) ∅ (oracle_ok true)) fresh in
  let teardown := run_events (Post.run (oracle_ok true)) fresh in
  (exists pre' msg,
      take 17 setup
      = pre' ++ [EWriteFileSync Index.RESTORE_LOCK_PATH [] (Done tt);
                 EConsoleInfo msg])
  /\ (exists pre',
      take 3 teardown
      = pre' ++ [EWriteFileSync Post.CACHE_LOCK_PATH [] (Done tt)]).
Proof.
  intros setup teardown.
  pose proof (markers_written_before_cache_calls (fun _ => []) ∅
                (oracle_ok true) fresh) as [Hs Ht].
  split.
  - refine (proj1 (Hs (take 17 setup) [js "/hab/cache/artifacts"]
                      (js "hab-artifacts-cache:undefined") (Done None)
                      (drop 18 setup) _)).
    vm_compute. reflexivity.
  - refine (Ht (take 3 teardown) [js "/hab/pkgs"] (js "hab-pkgs")
               (Done 17%Z) (drop 4 teardown) _).
    vm_compute. reflexivity.
Defined.

(** ** The command/output helper *)

Lemma fold_chunks (f : list N -> jsstring) (chunks : list (list N))
    (acc : jsstring) :
  fold_left (fun s buffer => s ++ f buffer) chunks acc
  = acc ++ concat (map f chunks).
Proof.
  revert acc. induction chunks as [|b chunks IH]; intros acc; simpl.
  - rewrite app_nil_r. reflexivity.
  - rewrite IH, <- app_assoc. reflexivity.
Qed.

Lemma execOutput_eq (o : Oracle) (Buffer_toString : list N -> jsstring)
    (commandLine : jsstring) (args : list jsstring) (options : exec_options)
    (w : World) :
  Index.execOutput o Buffer_toString commandLine args options w
  = let p := exec_res o w commandLine args options in
    let w' := emit (EExec commandLine args options (status p)) w in
    match status p with
    | Done _ =>
        (Normal (trim (concat (map Buffer_toString (stdout_chunks p)))),
         command_effect commandLine w')
    | Failed err => (Throw err, w')
    end.
Proof.
  unfold Index.execOutput, exec_listening, bind, call, ret. cbn.
  rewrite fold_chunks.
  destruct (status (exec_res o w commandLine args options)); reflexivity.
Qed.

(** C10, as the code has it. The helper runs the command once. When [exec]
    resolves, it returns the chunks of the standard output, each turned
    into a string, concatenated in order and trimmed; when [exec] rejects,
    the helper fails with the same error and returns no string. With the
    toolkit's [exec], which rejects on an exit code that is not zero unless
    [ignoreReturnCode] is set, a helper called without that option returns
    a string only when the command exited with the code 0. *)
Theorem execOutput_result (o : Oracle)
    (Buffer_toString : list N -> jsstring) (commandLine : jsstring)
    (args : list jsstring) (options : exec_options) (w : World) :
  let p := exec_res o w commandLine args options in
  let result :=
    Index.execOutput o Buffer_toString commandLine args options w in
  (forall code, status p = Done code ->
     result
     = (Normal (trim (concat (map Buffer_toString (stdout_chunks p)))),
        command_effect commandLine
          (emit (EExec commandLine args options (Done code)) w)))
  /\ (forall err, status p = Failed err ->
      result
      = (Throw err, emit (EExec commandLine args options (Failed err)) w))
  /\ (exec_contract o -> opt_ignoreReturnCode options = false ->
      forall s w', result = (Normal s, w') -> status p = Done 0%Z).
Proof.
  intros p result. subst result. rewrite execOutput_eq. fold p.
  cbv zeta. split; [|split].
  - intros code ->. reflexivity.
  - intros err ->. reflexivity.
  - intros Hc Hopt s w' Hres.
    destruct (status p) as [code|err] eqn:Hst; [|discriminate Hres].
    destruct (Z.eq_dec code 0%Z) as [->|Hne]; [reflexivity|].
    pose proof (Hc w commandLine args options code Hst Hne). congruence.
Qed.

Lemma execOutput_result_witness :
  status (exec_res (oracle_ok true) fresh (js "bio --version") [] no_options)
  = Done 0%Z.
Proof.
  refine (proj2 (proj2 (execOutput_result (oracle_ok true) (fun b => b)
                          (js "bio --version") [] no_options fresh))
                _ _ [] _ _).
  - intros w c a op code H Hne. vm_compute in H. congruence.
  - reflexivity.
  - vm_compute. reflexivity.
Defined.

(** C10, as it is stated, fails when the caller passes [ignoreReturnCode]:
    the command exits with the code 1 and the helper returns [ok]. *)
Lemma execOutput_ignoring_exit_code :
  exec_contract oracle_exit_1
  /\ Index.execOutput oracle_exit_1 (fun b => b) (js "false") []
                      ignoring_code fresh
     = (Normal (js "ok"),
        emit (EExec (js "false") [] ignoring_code (Done 1%Z)) fresh)
  /\ ~ nonzero_exit_fails oracle_exit_1 (fun b => b) (js "false") []
         ignoring_code fresh.
Proof.
  assert (Hrun : Index.execOutput oracle_exit_1 (fun b => b) (js "false") []
                   ignoring_code fresh
                 = (Normal (js "ok"),
                    emit (EExec (js "false") [] ignoring_code (Done 1%Z))
                         fresh)).
  { rewrite execOutput_eq. vm_compute. reflexivity. }
  split; [|split; [exact Hrun|]].
  - intros w c a op code H Hne. cbn in H.
    destruct (opt_ignoreReturnCode op); [reflexivity | discriminate H].
  - intros Hclaim.
    exact (Hclaim 1%Z eq_refl ltac:(discriminate) _ _ Hrun).
Qed.

(** ** Two runs that differ in the cache key

    [erase_key] forgets the key in the events of the restore operation: the
    call of the cache service and the line that announces it. Two worlds
    are alike when they differ in nothing else. *)

Lemma alike_emit (e1 e2 : event) (w1 w2 : World) :
  erase_key e1 = erase_key e2 -> alike w1 w2 ->
  alike (emit e1 w1) (emit e2 w2).
Proof.
  intros He (Hf & Hv & Hl). repeat split; cbn; try assumption.
  rewrite !map_app, Hl. cbn. rewrite He. reflexivity.
Qed.

Lemma alike_set_files (f : gset jsstring -> gset jsstring) (w1 w2 : World) :
  alike w1 w2 -> alike (set_files f w1) (set_files f w2).
Proof.
  intros (Hf & Hv & Hl). repeat split; cbn; try assumption. rewrite Hf.
  reflexivity.
Qed.

Lemma alike_set_env (f : gmap jsstring jsstring -> gmap jsstring jsstring)
    (w1 w2 : World) :
  alike w1 w2 -> alike (set_env f w1) (set_env f w2).
Proof.
  intros (Hf & Hv & Hl). repeat split; cbn; try assumption. rewrite Hv.
  reflexivity.
Qed.

Lemma alike_command_effect (c : jsstring) (w1 w2 : World) :
  alike w1 w2 -> alike (command_effect c w1) (command_effect c w2).
Proof.
  intros H. unfold command_effect.
  destruct (rm_target c); [apply alike_set_files|]; exact H.
Qed.

Lemma rel_ret {A} (a : A) : rel (ret a) (ret a).
Proof. intros w1 w2 H. split; [reflexivity | exact H]. Qed.

Lemma rel_return {A} : rel (@return_ A) (@return_ A).
Proof. intros w1 w2 H. split; [reflexivity | exact H]. Qed.

Lemma rel_bind {A B} (m1 m2 : M A) (k1 k2 : A -> M B) :
  rel m1 m2 -> (forall a, rel (k1 a) (k2 a)) ->
  rel (bind m1 k1) (bind m2 k2).
Proof.
  intros Hm Hk w1 w2 H. unfold bind. destruct (Hm w1 w2 H) as [Hc Hw].
  destruct (m1 w1) as [c1 v1], (m2 w2) as [c2 v2]. cbn in Hc, Hw.
  subst c2. destruct c1 as [a|err|]; [apply Hk; exact Hw | |];
    (split; [reflexivity | exact Hw]).
Qed.

Lemma rel_try_catch_finally {A} (b1 b2 : M A) (h1 h2 : jsstring -> M A)
    (f1 f2 : M unit) :
  rel b1 b2 -> (forall err, rel (h1 err) (h2 err)) -> rel f1 f2 ->
  rel (try_catch_finally b1 h1 f1) (try_catch_finally b2 h2 f2).
Proof.
  intros Hb Hh Hf w1 w2 H. unfold try_catch_finally.
  destruct (Hb w1 w2 H) as [Hc Hw].
  destruct (b1 w1) as [c1 v1], (b2 w2) as [c2 v2]. cbn in Hc, Hw. subst c2.
  assert (Hstep : forall (c : completion A) u1 u2, alike u1 u2 ->
            (match f1 u1 with
             | (Normal _, w3) => (c, w3)
             | (Throw err, w3) => (Throw err, w3)
             | (Return, w3) => (Return, w3)
             end).1
            = (match f2 u2 with
               | (Normal _, w3) => (c, w3)
               | (Throw err, w3) => (Throw err, w3)
               | (Return, w3) => (Return, w3)
               end).1
            /\ alike
                 (match f1 u1 with
                  | (Normal _, w3) => (c, w3)
                  | (Throw err, w3) => (Throw err, w3)
                  | (Return, w3) => (Return, w3)
                  end).2
                 (match f2 u2 with
                  | (Normal _, w3) => (c, w3)
                  | (Throw err, w3) => (Throw err, w3)
                  | (Return, w3) => (Return, w3)
                  end).2).
  { intros c u1 u2 Hu. destruct (Hf u1 u2 Hu) as [Hfc Hfw].
    destruct (f1 u1) as [d1 x1], (f2 u2) as [d2 x2]. cbn in Hfc, Hfw.
    subst d2. destruct d1; (split; [reflexivity | exact Hfw]). }
  destruct c1 as [a|err|]; [apply Hstep; exact Hw | | apply Hstep; exact Hw].
  destruct (Hh err v1 v2 Hw) as [Hhc Hhw].
  destruct (h1 err v1) as [c1 x1], (h2 err v2) as [c2 x2].
  cbn in Hhc, Hhw. subst c2. apply Hstep. exact Hhw.
Qed.

Lemma rel_try_catch {A} (b1 b2 : M A) (h1 h2 : jsstring -> M A) :
  rel b1 b2 -> (forall err, rel (h1 err) (h2 err)) ->
  rel (try_catch b1 h1) (try_catch b2 h2).
Proof.
  intros Hb Hh. apply rel_try_catch_finally; auto. apply rel_ret.
Qed.

Lemma rel_say (e1 e2 : event) :
  erase_key e1 = erase_key e2 -> rel (say e1) (say e2).
Proof.
  intros He w1 w2 H. split; [reflexivity | apply alike_emit; assumption].
Qed.

Lemma rel_process_env : rel process_env process_env.
Proof.
  intros w1 w2 H. split; [|exact H]. cbn. f_equal. apply H.
Qed.

Lemma rel_existsSync (path : jsstring) :
  rel (existsSync path) (existsSync path).
Proof.
  intros w1 w2 H. unfold existsSync. cbn.
  destruct H as (Hf & Hv & Hl). rewrite Hf. split; [reflexivity|].
  apply alike_emit; [reflexivity|]. repeat split; assumption.
Qed.

Lemma rel_call {A} (ask1 ask2 : World -> outcome A)
    (ev1 ev2 : outcome A -> event) (effect : A -> World -> World) :
  (forall w1 w2, alike w1 w2 -> ask1 w1 = ask2 w2) ->
  (forall r, erase_key (ev1 r) = erase_key (ev2 r)) ->
  (forall a w1 w2, alike w1 w2 -> alike (effect a w1) (effect a w2)) ->
  rel (call ask1 ev1 effect) (call ask2 ev2 effect).
Proof.
  intros Hask Hev Heff w1 w2 H. unfold call. rewrite (Hask w1 w2 H).
  pose proof (alike_emit _ _ _ _ (Hev (ask2 w2)) H) as He.
  destruct (ask2 w2) as [a|err]; cbn; (split; [reflexivity|]);
    [apply Heff|]; exact He.
Qed.

Section KeyBlind.

Variable o : Oracle.
Hypothesis blind : key_blind o.

Lemma rel_exportVariable (name val : jsstring) :
  rel (exportVariable o name val) (exportVariable o name val).
Proof.
  intros w1 w2 H. unfold exportVariable.
  rewrite (kb_exportVariable o blind w1 w2 name val H).
  apply rel_call; auto. apply alike_set_env. exact H.
Qed.

Lemma rel_which (tool : jsstring) : rel (which o tool) (which o tool).
Proof.
  apply rel_call; auto. intros. apply (kb_which o blind). assumption.
Qed.

Lemma rel_writeFileSync (path data : jsstring) :
  rel (writeFileSync o path data) (writeFileSync o path data).
Proof.
  apply rel_call; auto.
  - intros. apply (kb_writeFileSync o blind). assumption.
  - intros. apply alike_set_files. assumption.
Qed.

Lemma rel_exec (c : jsstring) (args : list jsstring)
    (options : exec_options) :
  rel (exec o c args options) (exec o c args options).
Proof.
  apply rel_call; auto.
  - intros. rewrite (kb_exec o blind w1 w2) by assumption. reflexivity.
  - intros. apply alike_command_effect. assumption.
Qed.

Lemma rel_rmRF (path : jsstring) : rel (rmRF o path) (rmRF o path).
Proof.
  apply rel_call; auto.
  - intros. apply (kb_rmRF o blind). assumption.
  - intros. apply alike_set_files. assumption.
Qed.

Lemma rel_restoreCache (paths : list jsstring) (k1 k2 : jsstring) :
  rel (restoreCache o paths k1) (restoreCache o paths k2).
Proof.
  intros w1 w2 H. unfold restoreCache.
  rewrite (kb_restoreCache o blind w1 w2 paths k1 k2 H).
  apply rel_call; auto. apply alike_set_files. exact H.
Qed.

Lemma rel_saveCache (paths : list jsstring) (key : jsstring) :
  rel (saveCache o paths key) (saveCache o paths key).
Proof.
  apply rel_call; auto. intros. apply (kb_saveCache o blind). assumption.
Qed.

Lemma rel_load_services (habEnv : gmap jsstring jsstring)
    (services : list jsstring) :
  (forall svc, rel (Index.load_service o habEnv svc)
                   (Index.load_service o habEnv svc)) ->
  rel (Index.load_services o habEnv services)
      (Index.load_services o habEnv services).
Proof.
  intros Hs. induction services as [|svc rest IH]; simpl.
  - apply rel_ret.
  - apply rel_bind; [apply Hs | intros _; exact IH].
Qed.

End KeyBlind.

Lemma rel_call_async {A} (b1 b2 : M A) :
  rel b1 b2 -> rel (call_async b1) (call_async b2).
Proof.
  intros Hb w1 w2 H. unfold call_async. destruct (Hb w1 w2 H) as [Hc Hw].
  destruct (b1 w1) as [c1 v1], (b2 w2) as [c2 v2]. cbn in Hc, Hw. subst c2.
  destruct c1; (split; [reflexivity | exact Hw]).
Qed.

Lemma starts_with_app (p s : jsstring) : starts_with p (p ++ s) = true.
Proof. unfold starts_with. rewrite strip_prefix_app. reflexivity. Qed.

Ltac rel_step blind :=
  match goal with
  | |- rel (bind _ _) (bind _ _) => apply rel_bind; [|intros ?]
  | |- rel (try_catch_finally _ _ _) (try_catch_finally _ _ _) =>
      apply rel_try_catch_finally; [|intros ?|]
  | |- rel (try_catch _ _) (try_catch _ _) =>
      apply rel_try_catch; [|intros ?]
  | |- rel (call_async _) (call_async _) => apply rel_call_async
  | |- rel (ret _) (ret _) => apply rel_ret
  | |- rel return_ return_ => apply rel_return
  | |- rel process_env process_env => apply rel_process_env
  | |- rel (info _) (info _) => apply (rel_say (EInfo _) (EInfo _))
  | |- rel (console_info _) (console_info _) =>
      apply (rel_say (EConsoleInfo _) (EConsoleInfo _))
  | |- rel (startGroup _) (startGroup _) =>
      apply (rel_say (EStartGroup _) (EStartGroup _))
  | |- rel endGroup endGroup => apply (rel_say EEndGroup EEndGroup)
  | |- rel (setFailed _) (setFailed _) =>
      apply (rel_say (ESetFailed _) (ESetFailed _))
  | |- rel (existsSync _) (existsSync _) => apply rel_existsSync
  | |- rel (exportVariable _ _ _) (exportVariable _ _ _) =>
      apply (rel_exportVariable _ blind)
  | |- rel (which _ _) (which _ _) => apply (rel_which _ blind)
  | |- rel (writeFileSync _ _ _) (writeFileSync _ _ _) =>
      apply (rel_writeFileSync _ blind)
  | |- rel (exec _ _ _ _) (exec _ _ _ _) => apply (rel_exec _ blind)
  | |- rel (rmRF _ _) (rmRF _ _) => apply (rel_rmRF _ blind)
  | |- rel (restoreCache _ _ _) (restoreCache _ _ _) =>
      apply (rel_restoreCache _ blind)
  | |- rel (saveCache _ _ _) (saveCache _ _ _) =>
      apply (rel_saveCache _ blind)
  | |- rel (Index.load_services _ _ _) (Index.load_services _ _ _) =>
      apply rel_load_services; intros ?;
      unfold Index.load_service
  | |- rel (if ?b then _ else _) (if ?b then _ else _) => destruct b
  | |- rel (match ?x with SupBool _ => _ | SupArray _ => _ end) _ =>
      destruct x as [[|]|?]
  end.

Lemma setup_alike (getInput1 getInput2 : jsstring -> jsstring)
    (env0 : gmap jsstring jsstring) (o : Oracle) :
  key_blind o ->
  (forall name, name <> js "cache-key" -> getInput1 name = getInput2 name) ->
  rel (Index.main getInput1 env0 o) (Index.main getInput2 env0 o).
Proof.
  intros blind Hsame.
  assert (Hdeps : Index.deps getInput1 = Index.deps getInput2).
  { unfold Index.deps. rewrite Hsame; [reflexivity|].
    vm_compute. discriminate. }
  assert (Hsup : Index.supervisor getInput1 = Index.supervisor getInput2).
  { unfold Index.supervisor. rewrite Hsame; [reflexivity|].
    vm_compute. discriminate. }
  unfold_phases. unfold Index.restore_cache. rewrite Hdeps, Hsup.
  repeat (rel_step blind);
    first [ reflexivity
          | cbn [erase_key]; rewrite !starts_with_app; reflexivity ].
Qed.

(** The log only grows. *)
Lemma extends_closure (w0 : World) :
  closure (fun w => exists evs, log w = log w0 ++ evs) (fun _ => True)
          (fun _ => True).
Proof.
  split; [intros e w _ [evs H] | intros f w _ H | intros f w H];
    [|exact H | exact H].
  exists (evs ++ [e]). cbn. rewrite H, app_assoc. reflexivity.
Qed.

Lemma run_events_spec {A} (m : M A) (w : World) :
  inv (fun w' => exists evs, log w' = log w ++ evs) m ->
  log (m w).2 = log w ++ run_events m w.
Proof.
  intros Hm. destruct (Hm w) as [evs H]; [exists []; symmetry; apply app_nil_r|].
  unfold run_events. rewrite H, drop_app_length. reflexivity.
Qed.

Lemma setup_extends (getInput : jsstring -> jsstring)
    (env0 : gmap jsstring jsstring) (o : Oracle) (w : World) :
  inv (fun w' => exists evs, log w' = log w ++ evs)
      (Index.main getInput env0 o).
Proof. inv_structure (extends_closure w); keeps_leaf. Qed.

Lemma setup_cache_events (getInput : jsstring -> jsstring)
    (env0 : gmap jsstring jsstring) (o : Oracle) (n : nat) :
  inv (since n (Forall (setup_cache_event (Index.cacheKey getInput env0))))
      (Index.main getInput env0 o).
Proof.
  inv_structure
    (since_forall_closure n
       (setup_cache_event (Index.cacheKey getInput env0)));
    first [exact Logic.I | split; reflexivity
          | rewrite rm_target_rm; exact Logic.I
          | vm_compute; exact Logic.I].
Qed.

Lemma teardown_cache_events (o : Oracle) (n : nat) :
  inv (since n (Forall teardown_cache_event)) (Post.main o).
Proof.
  inv_structure (since_forall_closure n teardown_cache_event);
    first [exact Logic.I | split; reflexivity].
Qed.

Lemma since_run_events {A} (m : M A) (w : World) (T : list event -> Prop) :
  T [] -> inv (since (length (log w)) T) m -> T (run_events m w).
Proof.
  intros Hnil Hm. apply Hm. split; [lia|]. rewrite drop_all. exact Hnil.
Qed.

(** C9. The teardown routine reads no input: in every world, whatever its
    environment holds, the cache service is only asked to save
    [/hab/pkgs] under the key [hab-pkgs]. The setup routine only asks it to
    restore [/hab/cache/artifacts] under the cache key, which is the
    [cache-key] input or, when that is empty, the default made from the
    name of the workflow. And the cache key bears on nothing else: with an
    oracle whose answers do not depend on the key, two loads of the setup
    module whose inputs differ in [cache-key] only complete the same way,
    leave the same files and environment, and their traces are the same
    once the key is erased from the events of the restore operation. *)
Theorem cache_key_only_in_restore :
  (forall o w, Forall teardown_cache_event (run_events (post_js o) w))
  /\ (forall getInput o w,
        Forall (setup_cache_event (Index.cacheKey getInput (env w)))
               (run_events (index_js getInput o) w))
  /\ (forall getInput env0,
        Index.cacheKey getInput env0
        = if Boolean (getInput (js "cache-key"))
          then getInput (js "cache-key")
          else js "hab-artifacts-cache:"
                  ++ env_text (env0 !! js "GITHUB_WORKFLOW"))
  /\ (forall getInput1 getInput2 o w,
        key_blind o ->
        (forall name, name <> js "cache-key" ->
                      getInput1 name = getInput2 name) ->
        (index_js getInput1 o w).1 = (index_js getInput2 o w).1
        /\ files (index_js getInput1 o w).2 = files (index_js getInput2 o w).2
        /\ env (index_js getInput1 o w).2 = env (index_js getInput2 o w).2
        /\ map erase_key (run_events (index_js getInput1 o) w)
           = map erase_key (run_events (index_js getInput2 o) w)).
Proof.
  split; [|split; [|split]].
  - intros o w. apply since_run_events; [constructor|].
    apply teardown_cache_events.
  - intros getInput o w.
    exact (since_run_events (Index.main getInput (env w) o) w _
             (List.Forall_nil _) (setup_cache_events getInput (env w) o _)).
  - reflexivity.
  - intros getInput1 getInput2 o w blind Hsame.
    assert (Hw : alike w w) by (repeat split).
    destruct (setup_alike getInput1 getInput2 (env w) o blind Hsame w w Hw)
      as (Hc & Hf & Hv & Hl).
    repeat split; try assumption.
    change (run_events (index_js getInput1 o) w)
      with (run_events (Index.main getInput1 (env w) o) w).
    change (run_events (index_js getInput2 o) w)
      with (run_events (Index.main getInput2 (env w) o) w).
    pose proof (run_events_spec (Index.main getInput1 (env w) o) w
                  (setup_extends getInput1 (env w) o w)) as H1.
    pose proof (run_events_spec (Index.main getInput2 (env w) o) w
                  (setup_extends getInput2 (env w) o w)) as H2.
    rewrite H1, H2, !map_app in Hl. exact (app_inv_head _ _ _ Hl).
Qed.

Lemma oracle_ok_key_blind (b : bool) : key_blind (oracle_ok b).
Proof. split; reflexivity. Qed.

Lemma cache_key_only_in_restore_witness :
  map erase_key
      (run_events (index_js (only_cache_key (js "a")) (oracle_ok true))
                  fresh)
  = map erase_key
        (run_events (index_js (only_cache_key (js "b")) (oracle_ok true))
                    fresh).
Proof.
  refine (proj2 (proj2 (proj2
            (proj2 (proj2 (proj2 cache_key_only_in_restore))
               (only_cache_key (js "a")) (only_cache_key (js "b"))
               (oracle_ok true) fresh (oracle_ok_key_blind true) _)))).
  intros name Hname. unfold only_cache_key, js_eq.
  rewrite bool_decide_eq_false_2 by exact Hname. reflexivity.
Defined.

(** With two different keys the two traces do differ, in the two events
    of the restore operation that hold the key. *)
Example cache_key_in_trace :
  List.filter
    (fun e => match e with
              | EConsoleInfo _ | ERestoreCache _ _ _ => true
              | _ => false
              end)
    (run_events (index_js (only_cache_key (js "a")) (oracle_ok true)) fresh)
  = [EConsoleInfo (js "Calling restoreCache: a");
     ERestoreCache [js "/hab/cache/artifacts"] (js "a") (Done None)].
Proof. vm_compute. reflexivity. Qed.

(** ** Failures and their reports *)

Lemma sat_ret (J : completion unit -> World -> Prop) {A} (a : A) :
  sat J (ret a).
Proof. intros w H. exact H. Qed.

Lemma sat_bind (J : completion unit -> World -> Prop) {A B} (m : M A)
    (k : A -> M B) :
  sat J m -> (forall a, sat J (k a)) -> sat J (bind m k).
Proof.
  intros Hm Hk w H. unfold bind. specialize (Hm w H).
  destruct (m w) as [[a|err|] w1]; cbn in Hm |- *; [|exact Hm..].
  apply Hk. exact Hm.
Qed.

Lemma sat_load_services (J : completion unit -> World -> Prop)
    (o : Oracle) (habEnv : gmap jsstring jsstring)
    (services : list jsstring) :
  (forall svc, sat J (Index.load_service o habEnv svc)) ->
  sat J (Index.load_services o habEnv services).
Proof.
  intros Hs. induction services as [|svc rest IH]; simpl.
  - apply sat_ret.
  - apply sat_bind; [apply Hs | intros _; exact IH].
Qed.

Section Outcome.

Variable ph : option jsstring.
Variable n : nat.

Lemma clean_snoc (evs : list event) (e : event) :
  clean evs -> failure e = None -> clean (evs ++ [e]).
Proof.
  intros H He. apply Forall_app. split; [exact H|].
  constructor; [exact He | constructor].
Qed.

Lemma outcome_emit (e : event) (w : World) :
  failure e = None ->
  outcome_ok ph n (Normal tt) w -> outcome_ok ph n (Normal tt) (emit e w).
Proof.
  intros He [Hn H]. split; cbn; [rewrite length_app; lia|].
  rewrite drop_app_le by exact Hn. apply clean_snoc; assumption.
Qed.

Lemma outcome_raise (e : event) (err : jsstring) (w : World) :
  failure e = Some err -> phase_message e = ph ->
  outcome_ok ph n (Normal tt) w -> outcome_ok ph n (Throw err) (emit e w).
Proof.
  intros He Hp [Hn H]. split; cbn; [rewrite length_app; lia|].
  rewrite drop_app_le by exact Hn. exists (drop n (log w)), e. auto.
Qed.

Lemma outcome_same_log (c : completion unit) (w w' : World) :
  log w' = log w -> outcome_ok ph n c w -> outcome_ok ph n c w'.
Proof. unfold outcome_ok. intros ->. auto. Qed.

Lemma sat_say (e : event) :
  failure e = None -> sat (outcome_ok ph n) (say e).
Proof. intros He w H. apply outcome_emit; assumption. Qed.

Lemma sat_process_env : sat (outcome_ok ph n) process_env.
Proof. intros w H. exact H. Qed.

Lemma sat_existsSync (path : jsstring) :
  sat (outcome_ok ph n) (existsSync path).
Proof. intros w H. apply outcome_emit; [reflexivity | exact H]. Qed.

Lemma sat_call {A} (ask : World -> outcome A) (ev : outcome A -> event)
    (effect : A -> World -> World) :
  (forall a, failure (ev (Done a)) = None) ->
  (forall err, failure (ev (Failed err)) = Some err) ->
  (forall err, phase_message (ev (Failed err)) = ph) ->
  (forall a w, log (effect a w) = log w) ->
  sat (outcome_ok ph n) (call ask ev effect).
Proof.
  intros Hd Hf Hp He w H. unfold call. destruct (ask w) as [a|err]; cbn.
  - apply (outcome_same_log _ (emit (ev (Done a)) w)); [apply He|].
    apply outcome_emit; [apply Hd | exact H].
  - apply outcome_raise; auto.
Qed.

Lemma log_command_effect (c : jsstring) (w : World) :
  log (command_effect c w) = log w.
Proof. unfold command_effect. destruct (rm_target c); reflexivity. Qed.

Lemma sat_exportVariable (o : Oracle) (name val : jsstring) :
  ph = None -> sat (outcome_ok ph n) (exportVariable o name val).
Proof.
  intros Hph w H. unfold exportVariable.
  apply (sat_call (fun _ => exportVariable_res o w name val)
                  (EExportVariable name val) (fun _ w' => w')); auto.
Qed.

Lemma sat_which (o : Oracle) (tool : jsstring) :
  ph = None -> sat (outcome_ok ph n) (which o tool).
Proof. intros Hph. apply sat_call; auto. Qed.

Lemma sat_writeFileSync (o : Oracle) (path data : jsstring) :
  ph = Some msg_restore -> sat (outcome_ok ph n) (writeFileSync o path data).
Proof. intros Hph. apply sat_call; auto. Qed.

Lemma sat_restoreCache (o : Oracle) (paths : list jsstring)
    (key : jsstring) :
  ph = Some msg_restore -> sat (outcome_ok ph n) (restoreCache o paths key).
Proof.
  intros Hph w H. unfold restoreCache.
  apply (sat_call (fun _ => (restoreCache_res o w paths key).1)
                  (ERestoreCache paths key) (fun _ w' => w')); auto.
Qed.

Lemma sat_exec (o : Oracle) (c : jsstring) (args : list jsstring)
    (options : exec_options) :
  phase_of_command c = ph -> sat (outcome_ok ph n) (exec o c args options).
Proof.
  intros Hph. apply sat_call; auto. intros. apply log_command_effect.
Qed.

Lemma sat_rmRF (o : Oracle) (path : jsstring) :
  phase_message (ERmRF path (Done tt)) = ph ->
  sat (outcome_ok ph n) (rmRF o path).
Proof. intros Hph. apply sat_call; auto. Qed.

End Outcome.

(** A phase: [try { body } catch (err) { core.setFailed(X + err.message);
    return; }], with [finally { core.endGroup(); }] or without. *)
Lemma sat_guarded (n : nat) (X : jsstring) {A} (body : M A) (fin : M unit) :
  sat (outcome_ok (Some X) n) body ->
  fin = endGroup \/ fin = ret tt ->
  sat (outcome_ok None n)
      (try_catch_finally body
         (fun err => bind (setFailed (X ++ err)) (fun _ => return_)) fin).
Proof.
  intros Hb Hfin w H. unfold try_catch_finally.
  assert (H' : outcome_ok (Some X) n (Normal tt) w) by exact H.
  specialize (Hb w H'). destruct (body w) as [[a|err|] w1]; cbn in Hb.
  - assert (Hw1 : outcome_ok None n (Normal tt) w1) by exact Hb.
    destruct Hfin as [->| ->]; cbn; [|exact Hw1].
    apply outcome_emit; [reflexivity | exact Hw1].
  - destruct Hb as [Hn (pre & e & Hevs & Hpre & He & Hp)].
    assert (Hrep : forall tail, tail = [] \/ tail = [EEndGroup] ->
              reported (drop n (log w1) ++ ESetFailed (X ++ err) :: tail)).
    { intros tail Ht. exists pre, e, err, X, tail. rewrite Hevs.
      rewrite <- app_assoc. auto. }
    destruct Hfin as [->| ->]; (split; cbn; [rewrite ?length_app; lia|]).
    + rewrite <- app_assoc, drop_app_le by exact Hn. cbn.
      apply Hrep. right. reflexivity.
    + rewrite drop_app_le by exact Hn. apply Hrep. left. reflexivity.
  - destruct Hb as [_ []].
Qed.

Ltac sat_step :=
  match goal with
  | |- sat _ (bind _ _) => apply sat_bind; [|intros ?]
  | |- sat _ (try_catch_finally _ _ _) =>
      apply sat_guarded; [|first [left; reflexivity | right; reflexivity]]
  | |- sat _ (try_catch _ _) => unfold try_catch
  | |- sat _ (ret _) => apply sat_ret
  | |- sat _ process_env => apply sat_process_env
  | |- sat _ (info _) => apply sat_say; reflexivity
  | |- sat _ (console_info _) => apply sat_say; reflexivity
  | |- sat _ (startGroup _) => apply sat_say; reflexivity
  | |- sat _ (existsSync _) => apply sat_existsSync
  | |- sat _ (exportVariable _ _ _) => apply sat_exportVariable; reflexivity
  | |- sat _ (which _ _) => apply sat_which; reflexivity
  | |- sat _ (writeFileSync _ _ _) => apply sat_writeFileSync; reflexivity
  | |- sat _ (restoreCache _ _ _) => apply sat_restoreCache; reflexivity
  | |- sat _ (exec _ _ _ _) => apply sat_exec; vm_compute; reflexivity
  | |- sat _ (rmRF _ _) => apply sat_rmRF; vm_compute; reflexivity
  | |- sat _ (Index.restore_cache _ _ _) => unfold Index.restore_cache
  | |- sat _ (Index.load_services _ _ _) =>
      apply sat_load_services; intros ?; unfold Index.load_service
  | |- sat _ (if ?b then _ else _) => destruct b
  | |- sat _ (match ?x with SupBool _ => _ | SupArray _ => _ end) =>
      destruct x as [[|]|?]
  end.

Lemma setup_outcome (getInput : jsstring -> jsstring)
    (env0 : gmap jsstring jsstring) (o : Oracle) (n : nat) :
  sat (outcome_ok None n) (Index.run getInput env0 o).
Proof. unfold_phases. repeat sat_step. Qed.

Lemma setup_known_calls (getInput : jsstring -> jsstring)
    (env0 : gmap jsstring jsstring) (o : Oracle) (n : nat) :
  inv (since n (Forall known_call)) (Index.run getInput env0 o).
Proof.
  inv_structure (since_forall_closure n known_call);
    first [exact Logic.I | vm_compute; discriminate
          | rewrite rm_target_rm; exact Logic.I
          | vm_compute; exact Logic.I].
Qed.

Lemma first_failure (pre' : list event) :
  forall pre e post e' post' err,
    pre ++ e :: post = pre' ++ e' :: post' ->
    clean pre' -> clean post' -> failure e = Some err ->
    pre = pre' /\ e = e' /\ post = post'.
Proof.
  induction pre' as [|x pre' IH]; intros pre e post e' post' err Heq Hp Hq He.
  - destruct pre as [|y pre]; simpl in Heq.
    + injection Heq as -> ->. auto.
    + injection Heq as -> <-.
      apply List.Forall_forall with (x := e) in Hq; [congruence|].
      apply in_elt.
  - destruct pre as [|y pre]; simpl in Heq.
    + injection Heq as -> _. inversion Hp; subst. congruence.
    + injection Heq as -> Heq. inversion Hp; subst.
      destruct (IH pre e post e' post' err Heq) as (-> & -> & ->); auto.
Qed.

Lemma erase_value_eq {A} (c : completion A) (d : completion unit) :
  erase_value c = d ->
  match d with
  | Normal _ => exists a, c = Normal a
  | Throw err => c = Throw err
  | Return => c = Return
  end.
Proof. intros <-. destruct c; cbn; eauto. Qed.

(** C3, as the code has it. Whatever call of the setup routine fails: when
    the call stands in the [try] of a phase (every call of the
    installation, of the provisioning of the cache directory, of the
    restore, of the installation of the dependencies, of the start of the
    supervisor, of the load of a service, of the enabling of unprivileged
    installs), the failure is reported with the message of that phase
    followed by the error, the log group of the phase, if it has one, is
    closed, nothing else follows in the trace, and the routine returns;
    when it stands in no [try], it is an export of the environment or the
    lookup of [bio], nothing follows it in the trace, and the routine
    throws the error (the promise of [run] is rejected): no report is made
    by the routine, and no later phase runs either. *)
Theorem setup_failures_reported (getInput : jsstring -> jsstring)
    (env0 : gmap jsstring jsstring) (o : Oracle) (w : World)
    (pre : list event) (e : event) (post : list event) (err : jsstring) :
  run_events (Index.run getInput env0 o) w = pre ++ e :: post ->
  failure e = Some err ->
  match phase_message e with
  | Some X =>
      (post = [ESetFailed (X ++ err)]
       \/ post = [ESetFailed (X ++ err); EEndGroup])
      /\ (Index.run getInput env0 o w).1 = Return
  | None =>
      top_level_call e /\ post = []
      /\ (Index.run getInput env0 o w).1 = Throw err
  end.
Proof.
  intros Heq He.
  assert (Hstart : forall ph, outcome_ok ph (length (log w)) (Normal tt) w).
  { intros ph. split; [lia|]. rewrite drop_all. constructor. }
  destruct (setup_outcome getInput env0 o _ w (Hstart None)) as [_ Hout].
  fold (run_events (Index.run getInput env0 o) w) in Hout.
  assert (Hknown : Forall known_call
                     (run_events (Index.run getInput env0 o) w)).
  { apply since_run_events; [constructor | apply setup_known_calls]. }
  rewrite Heq in Hout, Hknown.
  assert (Hk : known_call e).
  { rewrite List.Forall_forall in Hknown. apply Hknown, in_elt. }
  destruct (erase_value (Index.run getInput env0 o w).1) as [[]|err'|] eqn:Hc;
    apply erase_value_eq in Hc.
  - apply List.Forall_forall with (x := e) in Hout; [congruence|].
    apply in_elt.
  - destruct Hout as (pre' & e' & Hevs & Hpre & He' & Hp).
    destruct (first_failure pre' pre e post e' [] err Hevs Hpre
                (List.Forall_nil _) He) as (-> & -> & ->).
    rewrite Hp. split; [|split; [reflexivity | congruence]].
    destruct e'; try exact Logic.I; try discriminate He;
      cbn in Hk, Hp; first [contradiction | congruence].
  - destruct Hout as (pre' & e' & err' & X & tail & Hevs & Hpre & He' & Hp
                      & Htail).
    destruct (first_failure pre' pre e post e' (ESetFailed (X ++ err') :: tail)
                err Hevs Hpre) as (-> & -> & ->); [|exact He|].
    { constructor; [reflexivity|].
      destruct Htail as [->| ->]; repeat constructor. }
    rewrite Hp. assert (err' = err) as -> by congruence.
    split; [|exact Hc]. destruct Htail as [->| ->]; auto.
Qed.

Lemma setup_failures_reported_witness :
  top_level_call
    (EExportVariable (js "HAB_NONINTERACTIVE") (js "true")
                     (Failed (js "Missing file at path")))
  /\ (Index.run (fun _ => []) ∅ oracle_export_fails fresh).1
     = Throw (js "Missing file at path").
Proof.
  refine (let H := setup_failures_reported (fun _ => []) ∅
                     oracle_export_fails fresh []
                     (EExportVariable (js "HAB_NONINTERACTIVE") (js "true")
                        (Failed (js "Missing file at path")))
                     [] (js "Missing file at path") _ _ in
          conj (proj1 H) (proj2 (proj2 H))).
  - vm_compute. reflexivity.
  - reflexivity.
Defined.

(** C3, as it is stated, fails on a runner that cannot export variables:
    the first export throws, the routine reports nothing and its promise is
    rejected; the module-level [try] does not see the rejection, so the
    load of the module logs nothing else either. *)
Lemma unreported_export_failure :
  run_events (index_js (fun _ => []) oracle_export_fails) fresh
  = [EExportVariable (js "HAB_NONINTERACTIVE") (js "true")
                     (Failed (js "Missing file at path"))]
  /\ (index_js (fun _ => []) oracle_export_fails fresh).1
     = Normal (Some (Rejected (js "Missing file at path")))
  /\ ~ every_failure_reported
         (Index.run (fun _ => []) ∅ oracle_export_fails fresh).1
         (run_events (Index.run (fun _ => []) ∅ oracle_export_fails) fresh).
Proof.
  split; [vm_compute; reflexivity|]. split; [vm_compute; reflexivity|].
  intros Hclaim.
  destruct (Hclaim [] (EExportVariable (js "HAB_NONINTERACTIVE") (js "true")
                         (Failed (js "Missing file at path")))
                   [] (js "Missing file at path")) as [_ Hc].
  - vm_compute. reflexivity.
  - reflexivity.
  - vm_compute in Hc. discriminate Hc.
Qed.

Example download_failure_trace :
  drop 5 (run_events (Index.run (fun _ => []) ∅ oracle_download_fails) fresh)
  = [EExec (js "wget https://github.com/biome-sh/biome/releases/download/v1.6.372/bio-1.6.372-x86_64-linux.tar.gz")
           [] no_options (Failed (js "exit code 8"));
     ESetFailed (js "Failed to install Biome: exit code 8");
     EEndGroup].
Proof. vm_compute. reflexivity. Qed.

(** ** More on the inputs *)

Lemma split_runs_token (x : jsstring) :
  forallb (fun c => negb (is_space c)) x = true ->
  forall acc rest,
    split_runs false acc (x ++ rest) = split_runs false (rev x ++ acc) rest.
Proof.
  induction x as [|c x IH]; intros Hx acc rest; [reflexivity|].
  simpl in Hx. apply andb_prop in Hx as [Hc Hx].
  simpl. destruct (is_space c); [discriminate Hc|].
  rewrite IH by exact Hx. rewrite <- app_assoc. reflexivity.
Qed.

Lemma drop_space_token (x rest : jsstring) :
  x <> [] -> forallb (fun c => negb (is_space c)) x = true ->
  drop_space (x ++ rest) = x ++ rest.
Proof.
  destruct x as [|c x]; [congruence|]. intros _ Hx.
  simpl in Hx. apply andb_prop in Hx as [Hc _].
  simpl. destruct (is_space c); [discriminate Hc | reflexivity].
Qed.

Lemma split_join_tokens (l : list jsstring) :
  Forall (fun t => t <> []
                   /\ forallb (fun c => negb (is_space c)) t = true) l ->
  List.filter Boolean (split_on_whitespace_runs (join (js " ") l)) = l.
Proof.
  unfold split_on_whitespace_runs.
  induction l as [|x l IH]; intros Hl; [reflexivity|].
  inversion Hl as [|? ? [Hne Hx] Hl']; subst.
  destruct l as [|y l].
  - simpl. rewrite <- (app_nil_r x) at 1.
    rewrite split_runs_token by exact Hx. simpl. rewrite app_nil_r.
    rewrite rev_involutive. destruct x; [congruence | reflexivity].
  - change (join (js " ") (x :: y :: l))
      with (x ++ js " " ++ join (js " ") (y :: l)).
    rewrite split_runs_token by exact Hx.
    change (js " " ++ join (js " ") (y :: l))
      with (32 :: join (js " ") (y :: l)).
    cbn [split_runs]. change (is_space 32) with true. cbv iota.
    rewrite split_runs_in_run. rewrite app_nil_r, rev_involutive.
    assert (Hd : drop_space (join (js " ") (y :: l))
                 = join (js " ") (y :: l)).
    { inversion Hl' as [|? ? [Hyne Hy] _]; subst.
      destruct l as [|z l].
      - simpl. rewrite <- (app_nil_r y). apply drop_space_token; assumption.
      - change (join (js " ") (y :: z :: l))
          with (y ++ js " " ++ join (js " ") (z :: l)).
        apply drop_space_token; assumption. }
    rewrite Hd. cbn [List.filter]. rewrite (IH Hl').
    destruct x; [congruence | reflexivity].
Qed.

(** X2. The dependency list survives the round trip through the name of
    its log group: joined with single spaces, as the setup routine prints
    it, and parsed again, a list of tokens that are not empty and hold no
    whitespace comes back as it was. *)
Theorem deps_join_round_trip (l : list jsstring) :
  Forall (fun t => t <> []
                   /\ forallb (fun c => negb (is_space c)) t = true) l ->
  Index.deps (fun _ => join (js " ") l) = l.
Proof.
  intros Hl. unfold Index.deps, js_or.
  destruct (Boolean (join (js " ") l)) eqn:Hb.
  - rewrite js_split_spaces. apply split_join_tokens. exact Hl.
  - destruct l as [|x l]; [reflexivity|].
    inversion Hl as [|? ? [Hne _] _]; subst.
    destruct l; simpl in Hb; destruct x; try congruence; discriminate Hb.
Qed.

Lemma deps_join_round_trip_witness :
  Index.deps (fun _ => join (js " ") [js "core/git"; js "core/bio-studio"])
  = [js "core/git"; js "core/bio-studio"].
Proof.
  apply deps_join_round_trip.
  repeat constructor; discriminate.
Defined.

(** X1. The cache key is never the empty string: it is the [cache-key]
    input when that is not empty, and otherwise the fixed prefix followed by
    the name of the workflow, or by [undefined] when the environment holds
    no [GITHUB_WORKFLOW]. *)
Theorem cacheKey_never_empty (getInput : jsstring -> jsstring)
    (env0 : gmap jsstring jsstring) :
  Index.cacheKey getInput env0 <> []
  /\ (getInput (js "cache-key") <> [] ->
      Index.cacheKey getInput env0 = getInput (js "cache-key"))
  /\ (getInput (js "cache-key") = [] ->
      env0 !! js "GITHUB_WORKFLOW" = None ->
      Index.cacheKey getInput env0 = js "hab-artifacts-cache:undefined")
  /\ (forall name, getInput (js "cache-key") = [] ->
      env0 !! js "GITHUB_WORKFLOW" = Some name ->
      Index.cacheKey getInput env0 = js "hab-artifacts-cache:" ++ name).
Proof.
  unfold Index.cacheKey, js_or.
  destruct (getInput (js "cache-key")) as [|c k] eqn:Hk; cbn [Boolean].
  - split; [destruct (env0 !! js "GITHUB_WORKFLOW"); discriminate|].
    split; [congruence|].
    split; [intros _ H | intros name _ H];
      destruct (env0 !! js "GITHUB_WORKFLOW"); inversion H; reflexivity.
  - split; [discriminate|]. split; [reflexivity|].
    split; [discriminate | intros name H; discriminate H].
Qed.

Lemma cacheKey_never_empty_witness :
  Index.cacheKey (fun _ => []) ∅ = js "hab-artifacts-cache:undefined"
  /\ Index.cacheKey (fun _ => js "k") ∅ = js "k".
Proof.
  split.
  - exact (proj1 (proj2 (proj2 (cacheKey_never_empty (fun _ => []) ∅)))
             eq_refl eq_refl).
  - apply (proj1 (proj2 (cacheKey_never_empty (fun _ => js "k") ∅))).
    discriminate.
Defined.

Lemma lines_from_no_newline (s : jsstring) :
  forall acc,
    forallb (fun c => negb (is_newline c)) acc = true ->
    Forall (fun l => forallb (fun c => negb (is_newline c)) l = true)
           (lines_from acc s).
Proof.
  induction s as [|c s IH]; intros acc Hacc; simpl.
  - constructor; [apply forallb_rev; exact Hacc | constructor].
  - destruct (is_newline c) eqn:Hc.
    + constructor; [apply forallb_rev; exact Hacc | apply IH; reflexivity].
    + apply IH. simpl. rewrite Hc. exact Hacc.
Qed.

Lemma trim_idem (s : jsstring) : trim (trim s) = trim s.
Proof. destruct (trim_ends s) as [H1 H2]. apply trim_fix; assumption. Qed.

Lemma trim_forallb (p : N -> bool) (s : jsstring) :
  forallb p s = true -> forallb p (trim s) = true.
Proof.
  destruct (trim_split s) as [lead [trail [_ [_ Hs]]]].
  intros H. rewrite Hs in H. rewrite !forallb_app in H.
  apply andb_prop in H as [_ H]. apply andb_prop in H as [H _]. exact H.
Qed.

Lemma services_of_well_formed (s : jsstring) :
  Forall (fun svc => svc <> [] /\ trim svc = svc
                     /\ forallb (fun c => negb (is_newline c)) svc = true)
         (services_of s).
Proof.
  unfold services_of, lines.
  pose proof (lines_from_no_newline s [] eq_refl) as H.
  induction H as [|l ls Hl _ IH]; [constructor|].
  cbn [map List.filter].
  destruct (Boolean (trim l)) eqn:Hb; [|exact IH].
  constructor; [|exact IH].
  split; [intros E; rewrite E in Hb; discriminate Hb|].
  split; [apply trim_idem | apply trim_forallb; exact Hl].
Qed.

(** X3. When the supervisor input gives an array of services, every service
    in it is a string that is not empty, has no whitespace at either end
    and holds no newline: it is one command line for [bio svc load]. *)
Theorem services_well_formed (getInput : jsstring -> jsstring)
    (services : list jsstring) :
  Index.supervisor getInput = SupArray services ->
  Forall (fun svc => svc <> [] /\ trim svc = svc
                     /\ forallb (fun c => negb (is_newline c)) svc = true)
         services.
Proof.
  unfold Index.supervisor. intros H.
  destruct (js_eq _ _); [discriminate H|].
  destruct (negb _); [discriminate H|].
  injection H as <-. rewrite js_split_newline. apply services_of_well_formed.
Qed.

Lemma services_well_formed_witness :
  Forall (fun svc => svc <> [] /\ trim svc = svc
                     /\ forallb (fun c => negb (is_newline c)) svc = true)
         [js "core/mysql"; js "emergence/nginx --bind=x"].
Proof.
  apply (services_well_formed
           (fun _ => js " core/mysql " ++ [10; 13; 10]
                       ++ js "  emergence/nginx --bind=x")).
  vm_compute. reflexivity.
Defined.

(** ** The environment and the arguments of the commands *)

Lemma union_singleton_present (m : gmap jsstring jsstring)
    (k v : jsstring) :
  m !! k = Some v -> m ∪ {[ k := v ]} = m.
Proof.
  intros H. apply map_eq. intros i. rewrite lookup_union.
  destruct (m !! i) as [x|] eqn:Hi.
  - destruct ({[ k := v ]} !! i); reflexivity.
  - destruct (decide (k = i)) as [<-|Hne]; [congruence|].
    rewrite lookup_singleton_ne by exact Hne. reflexivity.
Qed.

Lemma exported_env_lookup (e : gmap jsstring jsstring) :
  exported_env e !! js "HAB_NONINTERACTIVE" = Some (js "true")
  /\ exported_env e !! js "HAB_BLDR_URL" = Some (js "https://bldr.biome.sh")
  /\ exported_env e !! js "STUDIO_TYPE" = Some (js "default")
  /\ (forall k, k <> js "HAB_NONINTERACTIVE" -> k <> js "HAB_BLDR_URL" ->
      k <> js "STUDIO_TYPE" -> exported_env e !! k = e !! k).
Proof.
  unfold exported_env. split; [|split; [|split]].
  - rewrite lookup_insert_ne by (vm_compute; discriminate).
    rewrite lookup_insert_ne by (vm_compute; discriminate).
    apply lookup_insert_eq.
  - rewrite lookup_insert_ne by (vm_compute; discriminate).
    apply lookup_insert_eq.
  - apply lookup_insert_eq.
  - intros k H1 H2 H3. rewrite !lookup_insert_ne by congruence. reflexivity.
Qed.

(** The setup routine, cut after the lookup of [bio]: what it adds to the
    log is the exports and the lookup, then the events of the phases, which
    run with the environment of the process after the exports. *)
Lemma run_forall (getInput : jsstring -> jsstring)
    (env0 : gmap jsstring jsstring) (o : Oracle) (w : World)
    (P : event -> Prop) :
  (forall name val r, P (EExportVariable name val r)) ->
  (forall tool r, P (EWhich tool r)) ->
  (forall bio,
     inv (since (length (log w)) (Forall P))
         (bind (if Boolean bio then info (js "Biome already installed!")
                else Index.install o)
               (fun _ => Index.after_install getInput env0 o
                           (exported_env (env w))))) ->
  Forall P (run_events (Index.run getInput env0 o) w).
Proof.
  intros Hexp Hwhich Hrest. unfold run_events, Index.run.
  rewrite bind_exportVariable. cbv zeta.
  destruct (exportVariable_res _ _ _ _) as [[]|err1].
  2:{ cbn. rewrite drop_app_length. repeat constructor; apply Hexp. }
  rewrite bind_exportVariable. cbv zeta.
  destruct (exportVariable_res _ _ _ _) as [[]|err2].
  2:{ cbn. rewrite <- app_assoc, drop_app_length.
      repeat constructor; apply Hexp. }
  rewrite bind_exportVariable. cbv zeta.
  destruct (exportVariable_res _ _ _ _) as [[]|err3].
  2:{ cbn. rewrite <- !app_assoc, drop_app_length.
      repeat constructor; apply Hexp. }
  rewrite bind_process_env. cbv zeta. rewrite bind_which.
  destruct (which_res _ _ _) as [bio|err4].
  2:{ cbn. rewrite <- !app_assoc, drop_app_length.
      repeat constructor; first [apply Hexp | apply Hwhich]. }
  match goal with
  | |- context [emit (EWhich ?t ?r) ?w0] =>
      set (w4 := emit (EWhich t r) w0)
  end.
  assert (Hlog : log w4
                 = log w
                   ++ [EExportVariable (js "HAB_NONINTERACTIVE") (js "true")
                                       (Done tt);
                       EExportVariable (js "HAB_BLDR_URL")
                                       (js "https://bldr.biome.sh") (Done tt);
                       EExportVariable (js "STUDIO_TYPE") (js "default")
                                       (Done tt);
                       EWhich (js "bio") (Done bio)]).
  { subst w4. cbn. rewrite <- !app_assoc. reflexivity. }
  match goal with
  | |- context [Index.after_install _ _ _ ?h] =>
      assert (Henv : h = exported_env (env w))
  end.
  { subst w4. cbn. apply union_singleton_present.
    apply (exported_env_lookup (env w)). }
  clearbody w4. rewrite Henv.
  apply (Hrest bio w4). eapply since_start; [exact Hlog|].
  repeat constructor; first [apply Hexp | apply Hwhich].
Qed.

Lemma phases_command_options (getInput : jsstring -> jsstring)
    (env0 : gmap jsstring jsstring) (o : Oracle)
    (habEnv : gmap jsstring jsstring) (n : nat) (bio : jsstring) :
  inv (since n (Forall (command_options habEnv)))
      (bind (if Boolean bio then info (js "Biome already installed!")
             else Index.install o)
            (fun _ => Index.after_install getInput env0 o habEnv)).
Proof.
  inv_structure (since_forall_closure n (command_options habEnv));
    first [exact Logic.I | vm_compute; reflexivity
          | rewrite rm_target_rm; exact Logic.I
          | vm_compute; exact Logic.I].
Qed.

(** X4. Every command of the setup routine runs either with no option or
    with the environment of the process as it is after the three exports:
    that environment holds [HAB_NONINTERACTIVE], [HAB_BLDR_URL] and
    [STUDIO_TYPE] with the exported values and is otherwise the
    environment the routine started in. The commands that get it are the
    installation of the dependencies, the start of the supervisor and the
    load of a service; no command is told to ignore its exit code. *)
Theorem setup_forwards_environment (getInput : jsstring -> jsstring)
    (env0 : gmap jsstring jsstring) (o : Oracle) (w : World) :
  let habEnv := exported_env (env w) in
  habEnv !! js "HAB_NONINTERACTIVE" = Some (js "true")
  /\ habEnv !! js "HAB_BLDR_URL" = Some (js "https://bldr.biome.sh")
  /\ habEnv !! js "STUDIO_TYPE" = Some (js "default")
  /\ (forall k, k <> js "HAB_NONINTERACTIVE" -> k <> js "HAB_BLDR_URL" ->
      k <> js "STUDIO_TYPE" -> habEnv !! k = env w !! k)
  /\ Forall (command_options habEnv)
            (run_events (Index.run getInput env0 o) w).
Proof.
  intros habEnv.
  destruct (exported_env_lookup (env w)) as (H1 & H2 & H3 & H4).
  repeat (split; [assumption|]).
  apply run_forall; [intros; exact Logic.I.. |].
  intros bio. apply phases_command_options.
Qed.

Lemma setup_command_args (getInput : jsstring -> jsstring)
    (env0 : gmap jsstring jsstring) (o : Oracle) (n : nat) :
  inv (since n (Forall (command_args (Index.deps getInput))))
      (Index.run getInput env0 o).
Proof.
  inv_structure_but
    ltac:(idtac;
          match goal with
          | |- inv _ (if ?b then _ else _) => destruct b eqn:?
          end)
    (since_forall_closure n (command_args (Index.deps getInput)));
    first
      [ exact Logic.I
      | match goal with
        | H : Boolean_length ?d = true |- command_args ?d _ =>
            unfold command_args, js_eq;
            rewrite bool_decide_eq_true_2 by reflexivity;
            split; [reflexivity | intros H0; rewrite H0 in H; discriminate H]
        end
      | vm_compute; reflexivity
      | vm_compute; eexists; reflexivity
      | rewrite rm_target_rm; exact Logic.I
      | vm_compute; exact Logic.I ].
Qed.

(** X5. The packages are installed with one kind of command, whose
    arguments are the parsed dependencies, in the order of the input, and
    which only runs when there is a dependency. The shells are given a
    script; every other command of the setup routine is given no argument:
    what varies in it is part of the command line. *)
Theorem deps_are_the_install_arguments (getInput : jsstring -> jsstring)
    (env0 : gmap jsstring jsstring) (o : Oracle) (w : World) :
  Forall (command_args (Index.deps getInput))
         (run_events (Index.run getInput env0 o) w).
Proof.
  apply since_run_events; [constructor | apply setup_command_args].
Qed.

(** ** The supervisor and its services *)

Lemma inv_load_services_in (I : World -> Prop) (o : Oracle)
    (habEnv : gmap jsstring jsstring) (services : list jsstring) :
  (forall svc, In svc services -> inv I (Index.load_service o habEnv svc)) ->
  inv I (Index.load_services o habEnv services).
Proof.
  induction services as [|svc rest IH]; intros Hs; simpl.
  - apply inv_ret.
  - apply inv_bind; [apply Hs; left; reflexivity | intros _].
    apply IH. intros s Hin. apply Hs. right. exact Hin.
Qed.

Ltac supervisor_leaf :=
  first
    [ exact Logic.I
    | reflexivity
    | vm_compute; reflexivity
    | match goal with
      | a : option jsstring |- _ =>
          destruct a as [[|? ?]|]; vm_compute; reflexivity
      end
    | rewrite rm_target_rm; exact Logic.I
    | vm_compute; exact Logic.I
    | let H := fresh in
      intros ? H; cbn [loaded_service] in H;
      first
        [ discriminate H
        | rewrite strip_prefix_app in H; injection H as <-; assumption
        | vm_compute in H; discriminate H ] ].

(** X6. The value of [supervisor] decides what the setup routine does for
    the supervisor. With [false] (the input is not set) the trace holds no
    event of the supervisor: none of the commands that start it or load a
    service, none of their log groups, log lines and failure reports. With
    [true] the trace holds no event of the load of a service. With an array
    every service a command loads is a service of the array. *)
Theorem supervisor_value_decides (getInput : jsstring -> jsstring)
    (env0 : gmap jsstring jsstring) (o : Oracle) (w : World) :
  Forall (supervisor_allows (Index.supervisor getInput))
         (run_events (Index.run getInput env0 o) w).
Proof.
  apply since_run_events; [constructor|].
  destruct (Index.supervisor getInput) as [[|]|services] eqn:E;
    unfold_phases; rewrite E.
  - repeat inv_step
      (since_forall_closure (length (log w))
         (supervisor_allows (SupBool true)));
      supervisor_leaf.
  - repeat inv_step
      (since_forall_closure (length (log w))
         (supervisor_allows (SupBool false)));
      supervisor_leaf.
  - repeat
      (first
         [ apply inv_load_services_in; intros ? ?; unfold Index.load_service
         | inv_step
             (since_forall_closure (length (log w))
                (supervisor_allows (SupArray services))) ]);
      supervisor_leaf.
Qed.

Lemma load_service_cases (o : Oracle) (habEnv : gmap jsstring jsstring)
    (svc : jsstring) (w : World) :
  (exists code w',
      Index.load_service o habEnv svc w = (Normal tt, w')
      /\ log w' = log w ++ load_group habEnv svc (Done code))
  \/ (exists err w',
      Index.load_service o habEnv svc w = (Return, w')
      /\ log w' = log w ++ load_group habEnv svc (Failed err)).
Proof.
  unfold Index.load_service. symex.
  - left. eexists _, _. split; [reflexivity|].
    cbn. rewrite <- !app_assoc. reflexivity.
  - right. eexists _, _. split; [reflexivity|].
    cbn. rewrite <- !app_assoc. reflexivity.
Qed.

Lemma load_services_log (o : Oracle) (habEnv : gmap jsstring jsstring)
    (services : list jsstring) :
  forall w,
  exists codes : list Z,
    (length codes <= length services)%nat
    /\ match services !! length codes with
       | None =>
           (Index.load_services o habEnv services w).1 = Normal tt
           /\ log (Index.load_services o habEnv services w).2
              = log w ++ loaded_groups habEnv services codes
       | Some svc =>
           exists err,
             (Index.load_services o habEnv services w).1 = Return
             /\ log (Index.load_services o habEnv services w).2
                = log w ++ loaded_groups habEnv services codes
                    ++ load_group habEnv svc (Failed err)
       end.
Proof.
  induction services as [|svc rest IH]; intros w.
  - exists []. split; [reflexivity|]. cbn. rewrite app_nil_r. auto.
  - cbn [Index.load_services]. unfold bind.
    destruct (load_service_cases o habEnv svc w)
      as [(code & w' & Hrun & Hlog)|(err & w' & Hrun & Hlog)];
      rewrite Hrun.
    + destruct (IH w') as (codes & Hlen & Hrest).
      exists (code :: codes). split; [cbn; lia|].
      cbn [length lookup list_lookup].
      change ((svc :: rest) !! S (length codes))
        with (rest !! length codes).
      unfold loaded_groups in *. cbn [zip_with concat].
      destruct (rest !! length codes) as [s|].
      * destruct Hrest as (err & Hc & Hl). exists err.
        split; [exact Hc|]. rewrite Hl, Hlog, <- !app_assoc. reflexivity.
      * destruct Hrest as (Hc & Hl).
        split; [exact Hc|]. rewrite Hl, Hlog, <- !app_assoc. reflexivity.
    + exists []. split; [cbn; lia|]. cbn. exists err.
      split; [reflexivity | exact Hlog].
Qed.

(** X7. The services are loaded in the order of the array, each in a log
    group of its own with one command, and the loop stops at the first
    service whose command fails: that failure is reported, the group is
    closed, the routine returns and no later service is tried. When every
    command succeeds the loop completes and the trace holds one group for
    each service. *)
Theorem services_loaded_in_order (o : Oracle)
    (habEnv : gmap jsstring jsstring) (services : list jsstring)
    (w : World) :
  exists codes : list Z,
    (length codes <= length services)%nat
    /\ match services !! length codes with
       | None =>
           (Index.load_services o habEnv services w).1 = Normal tt
           /\ run_events (Index.load_services o habEnv services) w
              = loaded_groups habEnv services codes
       | Some svc =>
           exists err,
             (Index.load_services o habEnv services w).1 = Return
             /\ run_events (Index.load_services o habEnv services) w
                = loaded_groups habEnv services codes
                    ++ load_group habEnv svc (Failed err)
       end.
Proof.
  destruct (load_services_log o habEnv services w) as (codes & Hlen & H).
  exists codes. split; [exact Hlen|]. unfold run_events.
  destruct (services !! length codes) as [svc|].
  - destruct H as (err & Hc & Hl). exists err. split; [exact Hc|].
    rewrite Hl. apply drop_app_length.
  - destruct H as (Hc & Hl). split; [exact Hc|].
    rewrite Hl. apply drop_app_length.
Qed.

(** ** The log groups *)

Lemma groups_app (l1 l2 : list event) :
  forall b,
    groups b (l1 ++ l2)
    = match groups b l1 with
      | Some b' => groups b' l2
      | None => None
      end.
Proof.
  induction l1 as [|e l1 IH]; intros b; [reflexivity|].
  destruct e; cbn; try apply IH; destruct b; try reflexivity; apply IH.
Qed.

Lemma groups_closure (n : nat) (b : bool) :
  closure (since n (fun evs => groups false evs = Some b))
          (fun e => is_group_mark e = false) (fun _ => True).
Proof.
  split; [intros e w He [Hn HT] | intros f w _ H | intros f w H];
    [|exact H | exact H].
  split; cbn; [rewrite length_app; lia|].
  rewrite drop_app_le by exact Hn. rewrite groups_app, HT.
  destruct e; try discriminate He; reflexivity.
Qed.

(** A phase with a log group: the group is opened first, and closed in the
    [finally]. *)
Lemma inv_group (n : nat) {A} (name : jsstring) (k : unit -> M A)
    (handler : jsstring -> M A) :
  inv (since n (fun evs => groups false evs = Some true)) (k tt) ->
  (forall err,
      inv (since n (fun evs => groups false evs = Some true))
          (handler err)) ->
  inv (since n (fun evs => groups false evs = Some false))
      (try_catch_finally (bind (startGroup name) k) handler endGroup).
Proof.
  intros Hk Hh w [Hn HT].
  assert (Hopen : since n (fun evs => groups false evs = Some true)
                        (emit (EStartGroup name) w)).
  { split; cbn; [rewrite length_app; lia|].
    rewrite drop_app_le by exact Hn. rewrite groups_app, HT. reflexivity. }
  assert (Hclose : forall w1,
             since n (fun evs => groups false evs = Some true) w1 ->
             since n (fun evs => groups false evs = Some false)
                   (emit EEndGroup w1)).
  { intros w1 [Hn1 HT1]. split; cbn; [rewrite length_app; lia|].
    rewrite drop_app_le by exact Hn1. rewrite groups_app, HT1.
    reflexivity. }
  unfold try_catch_finally, bind, startGroup, endGroup, say.
  specialize (Hk _ Hopen).
  destruct (k tt (emit (EStartGroup name) w)) as [[a|err|] w1];
    cbn in Hk |- *.
  - apply Hclose, Hk.
  - specialize (Hh err w1 Hk). destruct (handler err w1) as [c1 w2].
    cbn in Hh |- *. apply Hclose, Hh.
  - apply Hclose, Hk.
Qed.

Ltac groups_structure n :=
  unfold_phases;
  repeat
    (first
       [ apply inv_group;
         [ repeat inv_step (groups_closure n true)
         | intros ?; repeat inv_step (groups_closure n true) ]
       | inv_step (groups_closure n false) ]);
  first [exact Logic.I | reflexivity
        | rewrite rm_target_rm; exact Logic.I
        | vm_compute; exact Logic.I].

Lemma setup_groups (getInput : jsstring -> jsstring)
    (env0 : gmap jsstring jsstring) (o : Oracle) (n : nat) :
  inv (since n (fun evs => groups false evs = Some false))
      (Index.run getInput env0 o).
Proof. groups_structure n. Qed.

Lemma teardown_groups (o : Oracle) (n : nat) :
  inv (since n (fun evs => groups false evs = Some false)) (Post.run o).
Proof. groups_structure n. Qed.

(** X8. The log groups of the two routines are balanced, whatever fails: in
    the trace of the setup routine and in the trace of the teardown routine
    a group is only opened when none is open, only closed when one is open,
    and none is open when the routine is over. *)
Theorem log_groups_balanced (getInput : jsstring -> jsstring)
    (env0 : gmap jsstring jsstring) (o : Oracle) (w : World) :
  groups false (run_events (Index.run getInput env0 o) w) = Some false
  /\ groups false (run_events (Post.run o) w) = Some false.
Proof.
  split.
  - apply (since_run_events _ _ (fun evs => groups false evs = Some false));
      [reflexivity | apply setup_groups].
  - apply (since_run_events _ _ (fun evs => groups false evs = Some false));
      [reflexivity | apply teardown_groups].
Qed.

(** ** How often a failure is reported *)

Section Reports.

Variable inside : bool.
Variable n : nat.

Lemma reports_emit (e : event) (c : completion unit) (w : World) :
  is_setFailed e = false -> c <> Return ->
  reports inside n (Normal tt) w -> reports inside n c (emit e w).
Proof.
  intros He Hc [Hn H]. split; cbn; [rewrite length_app; lia|].
  rewrite drop_app_le by exact Hn. unfold count in *.
  rewrite List.filter_app, length_app, H. cbn. rewrite He.
  destruct c; [reflexivity | reflexivity | congruence].
Qed.

Lemma reports_same_log (c : completion unit) (w w' : World) :
  log w' = log w -> reports inside n c w -> reports inside n c w'.
Proof. unfold reports. intros ->. auto. Qed.

Lemma rep_say (e : event) :
  is_setFailed e = false -> sat (reports inside n) (say e).
Proof. intros He w H. apply reports_emit; [exact He | discriminate | exact H]. Qed.

Lemma rep_process_env : sat (reports inside n) process_env.
Proof. intros w H. exact H. Qed.

Lemma rep_existsSync (path : jsstring) :
  sat (reports inside n) (existsSync path).
Proof.
  intros w H. apply reports_emit; [reflexivity | discriminate | exact H].
Qed.

Lemma rep_call {A} (ask : World -> outcome A) (ev : outcome A -> event)
    (effect : A -> World -> World) :
  (forall r, is_setFailed (ev r) = false) ->
  (forall a w, log (effect a w) = log w) ->
  sat (reports inside n) (call ask ev effect).
Proof.
  intros Hev He w H. unfold call. destruct (ask w) as [a|err]; cbn.
  - apply (reports_same_log _ (emit (ev (Done a)) w)); [apply He|].
    apply reports_emit; [apply Hev | discriminate | exact H].
  - apply reports_emit; [apply Hev | discriminate | exact H].
Qed.

Lemma rep_exportVariable (o : Oracle) (name val : jsstring) :
  sat (reports inside n) (exportVariable o name val).
Proof.
  intros w H. unfold exportVariable.
  apply (rep_call (fun _ => exportVariable_res o w name val)
                  (EExportVariable name val) (fun _ w' => w')); auto.
Qed.

Lemma rep_which (o : Oracle) (tool : jsstring) :
  sat (reports inside n) (which o tool).
Proof. apply rep_call; auto. Qed.

Lemma rep_writeFileSync (o : Oracle) (path data : jsstring) :
  sat (reports inside n) (writeFileSync o path data).
Proof. apply rep_call; auto. Qed.

Lemma rep_restoreCache (o : Oracle) (paths : list jsstring)
    (key : jsstring) :
  sat (reports inside n) (restoreCache o paths key).
Proof.
  intros w H. unfold restoreCache.
  apply (rep_call (fun _ => (restoreCache_res o w paths key).1)
                  (ERestoreCache paths key) (fun _ w' => w')); auto.
Qed.

Lemma rep_saveCache (o : Oracle) (paths : list jsstring) (key : jsstring) :
  sat (reports inside n) (saveCache o paths key).
Proof. apply rep_call; auto. Qed.

Lemma rep_exec (o : Oracle) (c : jsstring) (args : list jsstring)
    (options : exec_options) :
  sat (reports inside n) (exec o c args options).
Proof. apply rep_call; auto. intros. apply log_command_effect. Qed.

Lemma rep_rmRF (o : Oracle) (path : jsstring) :
  sat (reports inside n) (rmRF o path).
Proof. apply rep_call; auto. Qed.

End Reports.

(** A phase: what its [try] throws is reported once, and the routine
    returns. *)
Lemma rep_guarded (n : nat) (msg : jsstring -> jsstring) {A} (body : M A)
    (fin : M unit) :
  sat (reports true n) body ->
  fin = endGroup \/ fin = ret tt ->
  sat (reports false n)
      (try_catch_finally body
         (fun err => bind (setFailed (msg err)) (fun _ => return_)) fin).
Proof.
  intros Hb Hfin w H. unfold try_catch_finally.
  assert (H' : reports true n (Normal tt) w) by exact H.
  specialize (Hb w H'). destruct (body w) as [[a|err|] w1]; cbn in Hb.
  - assert (Hw1 : reports false n (Normal tt) w1) by exact Hb.
    destruct Hfin as [->| ->]; cbn; [|exact Hw1].
    apply reports_emit; [reflexivity | discriminate | exact Hw1].
  - destruct Hb as [Hn Hc].
    destruct Hfin as [->| ->]; (split; cbn; [rewrite ?length_app; lia|]);
      split; try reflexivity.
    + rewrite <- app_assoc, drop_app_le by exact Hn. unfold count in *.
      rewrite List.filter_app, length_app, Hc. reflexivity.
    + rewrite drop_app_le by exact Hn. unfold count in *.
      rewrite List.filter_app, length_app, Hc. reflexivity.
  - destruct Hb as [_ [Hf _]]. discriminate Hf.
Qed.

Ltac rep_step :=
  match goal with
  | |- sat _ (bind _ _) => apply sat_bind; [|intros ?]
  | |- sat _ (try_catch_finally _ (fun err => bind (setFailed (?X ++ err)) _) _) =>
      apply (rep_guarded _ (fun err => X ++ err));
      [|first [left; reflexivity | right; reflexivity]]
  | |- sat _ (try_catch _ _) => unfold try_catch
  | |- sat _ (ret _) => apply sat_ret
  | |- sat _ process_env => apply rep_process_env
  | |- sat _ (info _) => apply rep_say; reflexivity
  | |- sat _ (console_info _) => apply rep_say; reflexivity
  | |- sat _ (startGroup _) => apply rep_say; reflexivity
  | |- sat _ (existsSync _) => apply rep_existsSync
  | |- sat _ (exportVariable _ _ _) => apply rep_exportVariable
  | |- sat _ (which _ _) => apply rep_which
  | |- sat _ (writeFileSync _ _ _) => apply rep_writeFileSync
  | |- sat _ (restoreCache _ _ _) => apply rep_restoreCache
  | |- sat _ (saveCache _ _ _) => apply rep_saveCache
  | |- sat _ (exec _ _ _ _) => apply rep_exec
  | |- sat _ (rmRF _ _) => apply rep_rmRF
  | |- sat _ (Index.restore_cache _ _ _) => unfold Index.restore_cache
  | |- sat _ (Index.load_services _ _ _) =>
      apply sat_load_services; intros ?; unfold Index.load_service
  | |- sat _ (if ?b then _ else _) => destruct b
  | |- sat _ (match ?x with SupBool _ => _ | SupArray _ => _ end) =>
      destruct x as [[|]|?]
  end.

Lemma setup_reports (getInput : jsstring -> jsstring)
    (env0 : gmap jsstring jsstring) (o : Oracle) (n : nat) :
  sat (reports false n) (Index.run getInput env0 o).
Proof. unfold_phases. repeat rep_step. Qed.

Lemma teardown_reports (o : Oracle) (n : nat) :
  sat (reports false n) (Post.run o).
Proof. unfold_phases. repeat rep_step. Qed.

Lemma reports_start (inside : bool) (w : World) :
  reports inside (length (log w)) (Normal tt) w.
Proof. split; [lia|]. rewrite drop_all. reflexivity. Qed.

Lemma failure_count (getInput : jsstring -> jsstring)
    (env0 : gmap jsstring jsstring) (o : Oracle) (w : World) :
  count is_setFailed (drop (length (log w))
                           (log (Index.run getInput env0 o w).2))
  = match (Index.run getInput env0 o w).1 with
    | Return => 1%nat
    | _ => 0%nat
    end.
Proof.
  destruct (setup_reports getInput env0 o _ w (reports_start false w))
    as [_ Hrep].
  destruct (Index.run getInput env0 o w).1 as [[]|err|]; cbn in Hrep;
    [exact Hrep | exact Hrep | apply Hrep].
Qed.

(** X9. The setup routine reports a failure exactly once when it returns
    early, and never otherwise: when it completes, no call failed and
    nothing was reported; when it throws, nothing was reported. *)
Theorem failure_reported_once (getInput : jsstring -> jsstring)
    (env0 : gmap jsstring jsstring) (o : Oracle) (w : World) :
  let evs := run_events (Index.run getInput env0 o) w in
  match (Index.run getInput env0 o w).1 with
  | Normal _ => clean evs /\ count is_setFailed evs = 0%nat
  | Throw _ => count is_setFailed evs = 0%nat
  | Return => count is_setFailed evs = 1%nat
  end.
Proof.
  intros evs. subst evs. unfold run_events.
  pose proof (failure_count getInput env0 o w) as Hrep.
  assert (Hstart : outcome_ok None (length (log w)) (Normal tt) w).
  { split; [lia|]. rewrite drop_all. constructor. }
  destruct (setup_outcome getInput env0 o _ w Hstart) as [_ Hout].
  destruct (Index.run getInput env0 o w).1 as [[]|err|]; cbn in Hout.
  - split; assumption.
  - exact Hrep.
  - exact Hrep.
Qed.

Lemma teardown_no_throw (o : Oracle) (w : World) (err : jsstring) :
  (Post.run o w).1 <> Throw err.
Proof. unfold Post.run. symex; discriminate. Qed.

Lemma teardown_clean (o : Oracle) (w : World) :
  (Post.run o w).1 = Normal tt -> clean (run_events (Post.run o) w).
Proof.
  unfold run_events, Post.run. symex; new_events; intros H;
    first [discriminate H | repeat constructor].
Qed.

(** X10. The teardown routine never throws, so the promise its module
    exports is always fulfilled and the module-level handler never runs.
    It reports a failure exactly once when it returns early, and never
    otherwise; when it completes, no call failed. *)
Theorem teardown_never_throws (o : Oracle) (w : World) :
  let evs := run_events (Post.run o) w in
  post_js o w = (Normal (Some Fulfilled), (Post.run o w).2)
  /\ run_events (post_js o) w = evs
  /\ match (Post.run o w).1 with
     | Normal _ => clean evs /\ count is_setFailed evs = 0%nat
     | Throw _ => False
     | Return => count is_setFailed evs = 1%nat
     end.
Proof.
  intros evs. subst evs.
  assert (Hjs : post_js o w = (Normal (Some Fulfilled), (Post.run o w).2)).
  { pose proof (teardown_no_throw o w) as Hno.
    unfold post_js, Post.main, try_catch, try_catch_finally, bind,
      call_async, ret.
    destruct (Post.run o w) as [[[]|err|] w1]; cbn in *;
      [reflexivity | destruct (Hno err eq_refl) | reflexivity]. }
  split; [exact Hjs|]. split; [unfold run_events; rewrite Hjs; reflexivity|].
  destruct (teardown_reports o _ w (reports_start false w)) as [_ Hrep].
  pose proof (teardown_clean o w) as Hclean.
  pose proof (teardown_no_throw o w) as Hno.
  unfold run_events in *.
  destruct (Post.run o w).1 as [[]|err|]; cbn in Hrep.
  - split; [apply Hclean; reflexivity | exact Hrep].
  - exact (Hno err eq_refl).
  - apply Hrep.
Qed.

Lemma setup_throw_is_top_level (getInput : jsstring -> jsstring)
    (env0 : gmap jsstring jsstring) (o : Oracle) (w : World)
    (err : jsstring) :
  (Index.run getInput env0 o w).1 = Throw err ->
  exists pre e,
    run_events (Index.run getInput env0 o) w = pre ++ [e]
    /\ clean pre /\ failure e = Some err /\ top_level_call e.
Proof.
  intros Hc.
  assert (Hstart : outcome_ok None (length (log w)) (Normal tt) w).
  { split; [lia|]. rewrite drop_all. constructor. }
  destruct (setup_outcome getInput env0 o _ w Hstart) as [_ Hout].
  fold (run_events (Index.run getInput env0 o) w) in Hout.
  rewrite Hc in Hout. cbn in Hout.
  destruct Hout as (pre & e & Hevs & Hpre & He & Hp).
  exists pre, e. repeat (split; [assumption|]).
  assert (Hknown : Forall known_call
                     (run_events (Index.run getInput env0 o) w)).
  { apply since_run_events; [constructor | apply setup_known_calls]. }
  rewrite Hevs in Hknown. apply Forall_app in Hknown as [_ Hk].
  inversion Hk as [|? ? Hke _]; subst.
  destruct e; try exact Logic.I; try discriminate He;
    cbn in Hke, Hp; first [contradiction | congruence].
Qed.

(** X11. Loading the setup module never throws and always exports a
    promise; the module-level handler never runs. The promise is rejected
    only when an export of the environment or the lookup of [bio] failed:
    that call is then the last event of the trace, the promise carries its
    error, and no failure was reported. *)
Theorem setup_promise (getInput : jsstring -> jsstring) (o : Oracle)
    (w : World) :
  let run := Index.run getInput (env w) o in
  exists p,
    index_js getInput o w = (Normal (Some p), (run w).2)
    /\ match p with
       | Fulfilled => forall err, (run w).1 <> Throw err
       | Rejected err =>
           (run w).1 = Throw err
           /\ count is_setFailed (run_events (index_js getInput o) w)
              = 0%nat
           /\ exists pre e,
               run_events (index_js getInput o) w = pre ++ [e]
               /\ clean pre /\ failure e = Some err /\ top_level_call e
       end.
Proof.
  intros run. subst run.
  pose proof (setup_throw_is_top_level getInput (env w) o w) as Htop.
  pose proof (failure_count getInput (env w) o w) as Hcount.
  unfold index_js, Index.main, try_catch, try_catch_finally, bind,
    call_async, ret.
  unfold run_events in *.
  destruct (Index.run getInput (env w) o w) as [[[]|err|] w1]; cbn in *.
  - exists Fulfilled. split; [reflexivity | discriminate].
  - exists (Rejected err). split; [reflexivity|].
    split; [reflexivity|]. split; [exact Hcount | exact (Htop err eq_refl)].
  - exists Fulfilled. split; [reflexivity | discriminate].
Qed.

(** ** The markers after the restore phase *)

(** X12. When the restore phase completes, the restore marker exists; and
    when the phase did not skip the restore (the marker was not there), the
    cache marker [/hab/cache/artifacts/.cached] does not exist afterwards,
    whatever the archive of the cache held. *)
Theorem restore_leaves_markers (getInput : jsstring -> jsstring)
    (env0 : gmap jsstring jsstring) (o : Oracle) (w : World) :
  (Index.restore_cache getInput env0 o w).1 = Normal tt ->
  Index.RESTORE_LOCK_PATH ∈ files (Index.restore_cache getInput env0 o w).2
  /\ (Index.RESTORE_LOCK_PATH ∉ files w ->
      Index.CACHE_LOCK_PATH
        ∉ files (Index.restore_cache getInput env0 o w).2).
Proof.
  assert (Hne : Index.RESTORE_LOCK_PATH <> Index.CACHE_LOCK_PATH)
    by (vm_compute; discriminate).
  unfold Index.restore_cache. symex; intros Hc; try discriminate Hc;
    clear Hc;
    repeat match goal with
      | H : bool_decide _ = true |- _ => apply bool_decide_eq_true_1 in H
      | H : bool_decide _ = false |- _ => apply bool_decide_eq_false_1 in H
      end;
    cbn in *.
  - split; [assumption | intros Hn; contradiction].
  - split.
    + apply elem_of_difference. split.
      * apply elem_of_union_r, elem_of_singleton. reflexivity.
      * rewrite elem_of_singleton. exact Hne.
    + intros _ Hin. apply elem_of_difference in Hin as [_ Hn].
      apply Hn, elem_of_singleton. reflexivity.
  - split; [|intros _; assumption].
    apply elem_of_union_r, elem_of_singleton. reflexivity.
Qed.

Lemma restore_leaves_markers_witness :
  Index.RESTORE_LOCK_PATH
    ∈ files (Index.restore_cache (fun _ => []) ∅ oracle_cache_hit fresh).2
  /\ Index.CACHE_LOCK_PATH
       ∉ files (Index.restore_cache (fun _ => []) ∅ oracle_cache_hit
                  fresh).2.
Proof.
  assert (Hrun : (Index.restore_cache (fun _ => []) ∅ oracle_cache_hit
                    fresh).1 = Normal tt) by (vm_compute; reflexivity).
  split.
  - exact (proj1 (restore_leaves_markers _ _ _ _ Hrun)).
  - apply (proj2 (restore_leaves_markers _ _ _ _ Hrun)).
    apply not_elem_of_empty.
Defined.

(** On that runner the archive did bring the cache marker, and the phase
    erased it. *)
Example restore_erases_cache_marker :
  List.filter
    (fun e => match e with
              | ERestoreCache _ _ _ | EExistsSync _ _ | EExec _ _ _ _ => true
              | _ => false
              end)
    (run_events (Index.restore_cache (fun _ => []) ∅ oracle_cache_hit) fresh)
  = [EExistsSync Index.RESTORE_LOCK_PATH false;
     EExec (js "mkdir -p /hab/cache/artifacts") [] no_options (Done 0%Z);
     ERestoreCache [js "/hab/cache/artifacts"]
                   (js "hab-artifacts-cache:undefined")
                   (Done (Some (js "hab-artifacts-cache:undefined")));
     EExistsSync Index.CACHE_LOCK_PATH true;
     EExec (js "rm -v " ++ dquote ++ Index.CACHE_LOCK_PATH ++ dquote) []
           no_options (Done 0%Z)].
Proof. vm_compute. reflexivity. Qed.

(** ** What the command/output helper trims *)

Lemma no_space_ahead_fix (s : jsstring) :
  drop_space s = s -> no_space_ahead s.
Proof.
  destruct s as [|c x]; [exact (fun _ => Logic.I)|].
  apply drop_space_fix_cons.
Qed.

(** X13. The string the helper returns is the standard output of the
    command without the whitespace at its two ends: it neither starts nor
    ends with whitespace, and the output is that string between two runs of
    whitespace. *)
Theorem execOutput_trims (o : Oracle)
    (Buffer_toString : list N -> jsstring) (commandLine : jsstring)
    (args : list jsstring) (options : exec_options) (w w' : World)
    (s : jsstring) :
  Index.execOutput o Buffer_toString commandLine args options w
  = (Normal s, w') ->
  no_space_ahead s /\ no_space_ahead (rev s)
  /\ exists lead trail,
       forallb is_space lead = true /\ forallb is_space trail = true
       /\ concat (map Buffer_toString
                      (stdout_chunks
                         (exec_res o w commandLine args options)))
          = lead ++ s ++ trail.
Proof.
  rewrite execOutput_eq. cbv zeta.
  destruct (status (exec_res o w commandLine args options));
    [|discriminate].
  intros H. injection H as <- _.
  destruct (trim_ends
              (concat (map Buffer_toString
                           (stdout_chunks
                              (exec_res o w commandLine args options)))))
    as [H1 H2].
  split; [apply no_space_ahead_fix; exact H1|].
  split; [apply no_space_ahead_fix; exact H2|].
  apply trim_split.
Qed.

Lemma execOutput_trims_witness :
  no_space_ahead (js "ok") /\ no_space_ahead (rev (js "ok"))
  /\ exists lead trail,
       forallb is_space lead = true /\ forallb is_space trail = true
       /\ [111; 107; 10] = lead ++ js "ok" ++ trail.
Proof.
  apply (execOutput_trims oracle_exit_1 (fun b => b) (js "false") []
           ignoring_code fresh
           (emit (EExec (js "false") [] ignoring_code (Done 1%Z)) fresh)).
  rewrite execOutput_eq. vm_compute. reflexivity.
Defined.

(** ** What has succeeded before a call *)

Lemma all_succeeded_mono (cs : list (jsstring * list jsstring))
    (a evs b : list event) :
  all_succeeded cs evs -> all_succeeded cs (a ++ evs ++ b).
Proof.
  unfold all_succeeded. rewrite !forallb_forall. intros H c Hc.
  rewrite !existsb_app, (H c Hc). apply orb_true_r.
Qed.

Section OnlyAfter.

Variable R : event -> bool.
Variable Q : list event -> Prop.
Hypothesis Q_mono : forall a evs b, Q evs -> Q (a ++ evs ++ b).

Lemma Q_mono_l (a pre : list event) : Q pre -> Q (a ++ pre).
Proof.
  intros H. rewrite <- (app_nil_r pre). apply Q_mono. exact H.
Qed.

Lemma around_none (evs : list event) :
  Forall (fun e => R e = false) evs ->
  around R Q (fun _ _ => True) evs.
Proof.
  intros H pre e post -> HR. apply Forall_app in H as [_ H].
  inversion H; subst. congruence.
Qed.

(** Once [Q] holds of the trace, any event may follow. *)
Lemma established_closure (n : nat) :
  closure (since n (fun evs => Q evs /\ around R Q (fun _ _ => True) evs))
          (fun _ => True) (fun _ => True).
Proof.
  split; [intros e w _ [Hn [HQ Har]] | intros f w _ H | intros f w H];
    [|exact H | exact H].
  split; cbn; [rewrite length_app; lia|].
  rewrite drop_app_le by exact Hn. split.
  - rewrite <- (app_nil_l (drop n (log w) ++ [e])). apply Q_mono. exact HQ.
  - intros pre e' post Heq HR. split; [|exact Logic.I].
    induction post as [|x post' _] using rev_ind.
    + apply app_inj_tail in Heq as [<- _]. exact HQ.
    + rewrite app_comm_cons, app_assoc in Heq.
      apply app_inj_tail in Heq as [Heq _].
      exact (proj1 (Har pre e' post' Heq HR)).
Qed.

(** A computation that establishes [Q] when it completes, and calls no [R],
    followed by one that may call [R]. *)
Lemma seq_after {A B} (m : M A) (k : A -> M B) (n : nat) :
  (forall w, exists evs,
      log (m w).2 = log w ++ evs
      /\ Forall (fun e => R e = false) evs
      /\ (forall a, (m w).1 = Normal a -> Q evs)) ->
  (forall a,
      inv (since n (fun evs => Q evs /\ around R Q (fun _ _ => True) evs))
          (k a)) ->
  inv (since n (around R Q (fun _ _ => True))) (bind m k).
Proof.
  intros Hm Hk w [Hn Har]. unfold bind.
  destruct (Hm w) as (evs & Hlog & HnoR & HQ).
  assert (Hw1 : since n (around R Q (fun _ _ => True)) (m w).2).
  { split; rewrite Hlog; [rewrite length_app; lia|].
    rewrite drop_app_le by exact Hn.
    apply around_app; [exact Q_mono_l | auto | exact Har |].
    apply around_none. exact HnoR. }
  destruct (m w) as [[a|err|] w1]; cbn in *; [|exact Hw1..].
  destruct (Hk a w1) as [Hn' [_ Hfin]]; [|split; assumption].
  destruct Hw1 as [Hn1 Har1]. split; [exact Hn1|]. split; [|exact Har1].
  rewrite Hlog, drop_app_le by exact Hn. apply Q_mono_l. exact (HQ a eq_refl).
Qed.

End OnlyAfter.

Lemma all_succeeded_mono_l (cs : list (jsstring * list jsstring))
    (a pre : list event) :
  all_succeeded cs pre -> all_succeeded cs (a ++ pre).
Proof.
  intros H. rewrite <- (app_nil_r pre). apply all_succeeded_mono. exact H.
Qed.

Ltac phase_establishes :=
  symex;
  (eexists; split; [cbn; rewrite <- ?app_assoc; cbn; reflexivity|];
   split; [repeat constructor
          | let H := fresh in
            intros ? H; first [discriminate H | vm_compute; reflexivity]]).

Ltac after_leaf :=
  first [exact Logic.I | reflexivity
        | rewrite rm_target_rm; exact Logic.I
        | vm_compute; exact Logic.I
        | vm_compute; reflexivity].

Lemma ownership_establishes (o : Oracle) (w : World) :
  exists evs,
    log (Index.update_cache_ownership o w).2 = log w ++ evs
    /\ Forall (fun e => is_restoreCache e = false) evs
    /\ (forall a, (Index.update_cache_ownership o w).1 = Normal a ->
        all_succeeded ownership_commands evs).
Proof. unfold Index.update_cache_ownership. phase_establishes. Qed.

Lemma setup_restore_after_ownership (getInput : jsstring -> jsstring)
    (env0 : gmap jsstring jsstring) (o : Oracle) (n : nat) :
  inv (since n (around is_restoreCache (all_succeeded ownership_commands)
                       (fun _ _ => True)))
      (Index.run getInput env0 o).
Proof.
  unfold Index.run, Index.install, Index.after_install, Index.install_bio,
    Index.create_hab_user, Index.verify_installation, Index.link_cache,
    Index.install_deps, Index.setup_supervisor, Index.start_supervisor,
    Index.enable_sudoless.
  repeat
    (first
       [ apply (seq_after _ _ (all_succeeded_mono ownership_commands));
         [ intros; apply ownership_establishes
         | intros ?;
           repeat inv_step
             (established_closure is_restoreCache _
                (all_succeeded_mono ownership_commands) n) ]
       | inv_step
           (around_closure is_restoreCache _ (fun _ _ => True)
              (all_succeeded_mono_l ownership_commands)
              (fun _ _ _ H => H) n) ]);
    after_leaf.
Qed.

(** X14. The cache is only restored into a directory that was made ready:
    wherever the setup routine calls the platform's cache-restore
    operation, the three commands that create [/hab/cache], give it to the
    runner and set its group bit have run before and completed. *)
Theorem restore_after_ownership (getInput : jsstring -> jsstring)
    (env0 : gmap jsstring jsstring) (o : Oracle) (w : World)
    (pre : list event) (paths : list jsstring) (key : jsstring)
    (res : outcome (option jsstring)) (post : list event) :
  run_events (Index.run getInput env0 o) w
  = pre ++ ERestoreCache paths key res :: post ->
  all_succeeded ownership_commands pre.
Proof.
  intros Heq.
  assert (Har : around is_restoreCache (all_succeeded ownership_commands)
                       (fun _ _ => True)
                       (run_events (Index.run getInput env0 o) w)).
  { apply since_run_events; [apply around_nil|].
    apply setup_restore_after_ownership. }
  exact (proj1 (Har pre _ post Heq eq_refl)).
Qed.

Lemma restore_after_ownership_witness :
  all_succeeded ownership_commands
    (take 17 (run_events (Index.run (fun _ => []) ∅ (oracle_ok true)) fresh)).
Proof.
  apply (restore_after_ownership (fun _ => []) ∅ (oracle_ok true) fresh
           _ [js "/hab/cache/artifacts"]
           (js "hab-artifacts-cache:undefined") (Done None)
           (drop 18 (run_events (Index.run (fun _ => []) ∅ (oracle_ok true))
                                fresh))).
  vm_compute. reflexivity.
Defined.

Lemma supervisor_establishes (o : Oracle) (habEnv : gmap jsstring jsstring)
    (w : World) :
  exists evs,
    log (Index.start_supervisor o habEnv w).2 = log w ++ evs
    /\ Forall (fun e => is_load_command e = false) evs
    /\ (forall a, (Index.start_supervisor o habEnv w).1 = Normal a ->
        all_succeeded supervisor_start_commands evs).
Proof. unfold Index.start_supervisor. phase_establishes. Qed.

Lemma setup_load_after_start (getInput : jsstring -> jsstring)
    (env0 : gmap jsstring jsstring) (o : Oracle) (n : nat) :
  inv (since n (around is_load_command
                       (all_succeeded supervisor_start_commands)
                       (fun _ _ => True)))
      (Index.run getInput env0 o).
Proof.
  unfold Index.run, Index.install, Index.after_install, Index.install_bio,
    Index.create_hab_user, Index.verify_installation, Index.link_cache,
    Index.update_cache_ownership, Index.install_deps,
    Index.setup_supervisor, Index.enable_sudoless.
  repeat
    (first
       [ apply (seq_after _ _
                  (all_succeeded_mono supervisor_start_commands));
         [ intros; apply supervisor_establishes
         | intros ?;
           repeat inv_step
             (established_closure is_load_command _
                (all_succeeded_mono supervisor_start_commands) n) ]
       | inv_step
           (around_closure is_load_command _ (fun _ _ => True)
              (all_succeeded_mono_l supervisor_start_commands)
              (fun _ _ _ H => H) n) ]);
    try (unfold Index.start_supervisor;
         repeat inv_step
           (around_closure is_load_command _ (fun _ _ => True)
              (all_succeeded_mono_l supervisor_start_commands)
              (fun _ _ _ H => H) n));
    after_leaf.
Qed.

(** X15. A service is only loaded once the supervisor is up: wherever the
    setup routine runs a command that loads a service, the commands that
    start the supervisor, wait for its secret, open it to the group and
    wait for it to answer have run before and completed. *)
Theorem services_loaded_after_start (getInput : jsstring -> jsstring)
    (env0 : gmap jsstring jsstring) (o : Oracle) (w : World)
    (pre : list event) (e : event) (post : list event) :
  run_events (Index.run getInput env0 o) w = pre ++ e :: post ->
  is_load_command e = true ->
  all_succeeded supervisor_start_commands pre.
Proof.
  intros Heq He.
  assert (Har : around is_load_command
                       (all_succeeded supervisor_start_commands)
                       (fun _ _ => True)
                       (run_events (Index.run getInput env0 o) w)).
  { apply since_run_events; [apply around_nil|].
    apply setup_load_after_start. }
  exact (proj1 (Har pre e post Heq He)).
Qed.

Lemma services_loaded_after_start_witness :
  all_succeeded supervisor_start_commands
    (take 38 (run_events (Index.run two_services ∅ (oracle_ok true)) fresh)).
Proof.
  apply (services_loaded_after_start two_services ∅ (oracle_ok true) fresh
           _ (EExec (js "bio svc load core/mysql") []
                    (with_env (exported_env ∅)) (Done 0%Z))
           (drop 39 (run_events (Index.run two_services ∅ (oracle_ok true))
                                fresh))).
  - vm_compute. reflexivity.
  - reflexivity.
Defined.

(** The commands of that job, with their arguments and whether they are
    given the non-interactive environment. *)
Example two_services_commands :
  omap (fun e =>
          match e with
          | EExec c args options _ =>
              Some (c, args,
                    match opt_env options with
                    | Some habEnv => habEnv !! js "HAB_NONINTERACTIVE"
                    | None => None
                    end)
          | _ => None
          end)
       (drop 21 (run_events (Index.run two_services ∅ (oracle_ok true))
                            fresh))
  = [(js "sudo --preserve-env bio pkg install",
      [js "core/git"; js "core/jq"], Some (js "true"));
     (js "sudo mkdir -p /hab/sup/default", [], None);
     (js "sudo --preserve-env setsid bash",
      [js "-c"; js "bio sup run > /hab/sup/default/sup.log 2>&1 &"],
      Some (js "true"));
     (js "bash",
      [js "-c";
       js "until test -f /hab/sup/default/CTL_SECRET; do echo -n "
         ++ dquote ++ js "." ++ dquote ++ js "; sleep .1; done; echo"],
      None);
     (js "sudo chgrp docker /hab/sup/default/CTL_SECRET", [], None);
     (js "sudo chmod g+r /hab/sup/default/CTL_SECRET", [], None);
     (js "bash",
      [js "-c";
       js "until bio svc status; do echo -n "
         ++ dquote ++ js "." ++ dquote ++ js "; sleep .1; done; echo"],
      None);
     (js "bio svc load core/mysql", [], Some (js "true"));
     (js "bio svc load core/nginx --bind x", [], Some (js "true"));
     (js "sudo chown -R runner:docker /hab/pkgs", [], None);
     (js "find /hab/pkgs -maxdepth 3 -type d -exec sudo chmod g+ws {} ;",
      [], None)].
Proof. vm_compute. reflexivity. Qed.

(** ** The installation runs when [bio] is not found *)

Lemma started_closure (w : World) :
  closure (installation_started w) (fun _ => True) (fun _ => True).
Proof.
  split; [intros e w' _ (res & post & H) | intros f w' _ H | intros f w' H];
    [|exact H | exact H].
  exists res, (post ++ [e]). cbn. rewrite H, <- app_assoc. reflexivity.
Qed.

Lemma bind_from (I : World -> Prop) {A B} (m : M A) (k : A -> M B)
    (w : World) :
  I (m w).2 -> (forall a, inv I (k a)) -> I (bind m k w).2.
Proof.
  intros Hm Hk. unfold bind.
  destruct (m w) as [[a|err|] w1]; cbn in *; [apply Hk|..]; exact Hm.
Qed.

(** A phase whose [try] starts with the opening of its group and a
    command. *)
Lemma try_first_two (I : World -> Prop) (o : Oracle) {A} (name c : jsstring)
    (args : list jsstring) (options : exec_options) (K : Z -> M A)
    (handler : jsstring -> M A) (w : World) :
  (forall r, I (emit (EExec c args options r) (emit (EStartGroup name) w))) ->
  (forall w', I w' -> I (command_effect c w')) ->
  (forall a, inv I (K a)) -> (forall err, inv I (handler err)) ->
  inv I endGroup ->
  I (try_catch_finally
       (bind (startGroup name) (fun _ => bind (exec o c args options) K))
       handler endGroup w).2.
Proof.
  intros H2 Heff HK Hh Hfin.
  assert (Hbody : I (bind (startGroup name)
                          (fun _ => bind (exec o c args options) K) w).2).
  { unfold bind at 1. unfold startGroup, say. cbn.
    apply bind_from; [|exact HK]. unfold exec, call.
    destruct (status (exec_res o _ c args options)); cbn;
      [apply Heff|]; apply H2. }
  unfold try_catch_finally.
  destruct (bind (startGroup name) _ w) as [[a|err|] w1]; cbn in Hbody.
  - specialize (Hfin w1 Hbody). destruct (endGroup w1) as [[?|?|] w3];
      exact Hfin.
  - specialize (Hh err w1 Hbody). destruct (handler err w1) as [c1 w2].
    specialize (Hfin w2 Hh). destruct (endGroup w2) as [[?|?|] w3];
      exact Hfin.
  - specialize (Hfin w1 Hbody). destruct (endGroup w1) as [[?|?|] w3];
      exact Hfin.
Qed.

Lemma install_starts (getInput : jsstring -> jsstring)
    (env0 : gmap jsstring jsstring) (o : Oracle)
    (habEnv : gmap jsstring jsstring) (w : World) :
  installation_started w
    (bind (Index.install o)
          (fun _ => Index.after_install getInput env0 o habEnv) w).2.
Proof.
  apply bind_from.
  - unfold Index.install. apply bind_from.
    + unfold Index.install_bio. apply try_first_two.
      * intros r. exists r, []. cbn. rewrite <- app_assoc. reflexivity.
      * intros w' H. rewrite command_effect_other by (vm_compute; reflexivity).
        exact H.
      * intros a. repeat inv_step (started_closure w); after_leaf.
      * intros err. repeat inv_step (started_closure w); after_leaf.
      * repeat inv_step (started_closure w); after_leaf.
    + intros a. inv_structure (started_closure w); after_leaf.
  - intros a. inv_structure (started_closure w); after_leaf.
Qed.

Lemma extends_forall_closure (w0 : World) (P : event -> Prop) :
  closure (fun w => exists evs, log w = log w0 ++ evs /\ Forall P evs) P
          (fun _ => True).
Proof.
  split; [intros e w He (evs & H & HP) | intros f w _ H | intros f w H];
    [|exact H | exact H].
  exists (evs ++ [e]). cbn. rewrite H, app_assoc. split; [reflexivity|].
  apply Forall_app. split; [exact HP|]. constructor; [exact He | constructor].
Qed.

Lemma found_no_lookup (getInput : jsstring -> jsstring)
    (env0 : gmap jsstring jsstring) (o : Oracle)
    (habEnv : gmap jsstring jsstring) (w : World) :
  inv (fun w' => exists evs,
           log w' = log w ++ evs /\ Forall (fun e => is_lookup e = false) evs)
      (bind (info (js "Biome already installed!"))
            (fun _ => Index.after_install getInput env0 o habEnv)).
Proof.
  inv_structure
    (extends_forall_closure w (fun e => is_lookup e = false)); after_leaf.
Qed.

(** X16. When the lookup of [bio] finds nothing (it answers the empty
    string), the setup routine starts the installation: the events that
    follow the lookup are the opening of the group [Installing Biome] and
    the download of the release. *)
Theorem bio_missing_starts_installation (getInput : jsstring -> jsstring)
    (env0 : gmap jsstring jsstring) (o : Oracle) (w : World) :
  In (EWhich (js "bio") (Done []))
     (run_events (Index.run getInput env0 o) w) ->
  exists pre res post,
    run_events (Index.run getInput env0 o) w
    = pre ++ [EWhich (js "bio") (Done []);
              EStartGroup (js "Installing Biome");
              EExec download [] no_options res] ++ post.
Proof.
  unfold run_events, Index.run.
  rewrite bind_exportVariable. cbv zeta.
  destruct (exportVariable_res _ _ _ _) as [[]|err1].
  2:{ cbn. rewrite drop_app_length. intros [H|[]]. discriminate. }
  rewrite bind_exportVariable. cbv zeta.
  destruct (exportVariable_res _ _ _ _) as [[]|err2].
  2:{ cbn. rewrite <- app_assoc, drop_app_length. cbn.
      intros [H|[H|[]]]; discriminate. }
  rewrite bind_exportVariable. cbv zeta.
  destruct (exportVariable_res _ _ _ _) as [[]|err3].
  2:{ cbn. rewrite <- !app_assoc, drop_app_length. cbn.
      intros [H|[H|[H|[]]]]; discriminate. }
  rewrite bind_process_env. cbv zeta. rewrite bind_which.
  destruct (which_res _ _ _) as [bio|err4].
  2:{ cbn. rewrite <- !app_assoc, drop_app_length. cbn.
      intros [H|[H|[H|[H|[]]]]]; discriminate. }
  match goal with
  | |- context [emit (EWhich ?t ?r) ?w0] =>
      set (w4 := emit (EWhich t r) w0)
  end.
  assert (Hlog : log w4
                 = log w
                   ++ [EExportVariable (js "HAB_NONINTERACTIVE") (js "true")
                                       (Done tt);
                       EExportVariable (js "HAB_BLDR_URL")
                                       (js "https://bldr.biome.sh") (Done tt);
                       EExportVariable (js "STUDIO_TYPE") (js "default")
                                       (Done tt);
                       EWhich (js "bio") (Done bio)]).
  { subst w4. cbn. rewrite <- !app_assoc. reflexivity. }
  clearbody w4. destruct (Boolean bio) eqn:Hbio.
  - intros Hin. exfalso.
    match type of Hin with
    | context [Index.after_install _ _ _ ?h] =>
        destruct (found_no_lookup getInput env0 o h w4 w4)
          as (evs & Hfin & Hno)
    end.
    { exists []. split; [rewrite app_nil_r; reflexivity | constructor]. }
    rewrite Hfin, Hlog, <- app_assoc, drop_app_length in Hin.
    cbn in Hin. destruct Hin as [H|[H|[H|[H|Hin]]]]; try discriminate H.
    + injection H as ->. discriminate Hbio.
    + rewrite List.Forall_forall in Hno. specialize (Hno _ Hin).
      discriminate Hno.
  - intros _. destruct bio as [|c bio]; [|discriminate Hbio].
    match goal with
    | |- context [Index.after_install _ _ _ ?h] =>
        destruct (install_starts getInput env0 o h w4) as (res & post & Hst)
    end.
    exists [EExportVariable (js "HAB_NONINTERACTIVE") (js "true") (Done tt);
            EExportVariable (js "HAB_BLDR_URL") (js "https://bldr.biome.sh")
                            (Done tt);
            EExportVariable (js "STUDIO_TYPE") (js "default") (Done tt)],
           res, post.
    rewrite Hst, Hlog, <- !app_assoc, drop_app_length. reflexivity.
Qed.

Lemma bio_missing_starts_installation_witness :
  exists pre res post,
    run_events (Index.run (fun _ => []) ∅ (oracle_ok false)) fresh
    = pre ++ [EWhich (js "bio") (Done []);
              EStartGroup (js "Installing Biome");
              EExec download [] no_options res] ++ post.
Proof.
  apply (bio_missing_starts_installation (fun _ => []) ∅ (oracle_ok false)
           fresh).
  vm_compute. right. right. right. left. reflexivity.
Defined.
